(** * bootstrap-tangle: a shallow embedding of the bootstrap tangler

    The development follows [scripts/bootstrap-tangle.mjs] function by
    function: the header parser, the document scanner, the block index,
    the noweb expander, the target grouping, the content generator and the
    write loop of [main].

    Modelling conventions.
    - A JavaScript string is a [string] whose characters are the code units
      0..255; documents using code units above 255 are outside the model.
      The character classes below ([\s], [\w], line terminators, case
      mapping) are the ECMAScript ones restricted to that range.
    - A header-argument value is a string or a boolean ([Value]); an
      argument object is a finite map from keys to values.
    - Source blocks are JavaScript objects shared between [allBlocks], the
      block index and the targets.  They live in a store (a list indexed
      by allocation order); the index and the targets hold positions in
      the store, so that a write to a block is seen through every alias.
    - An object literal that the code reads or writes under a computed
      key (the properties object of a document, the table of extensions)
      is modelled with its prototype: the members inherited from
      [Object.prototype] and the accessor [__proto__].
    - [path.dirname], [path.resolve], [path.relative] and [process.cwd]
      belong to the Node runtime and are section variables. *)

From Stdlib Require Import Ascii String List Arith ZArith NArith Lia.
From Stdlib Require Import Decimal DecimalString.
From Stdlib Require DecimalFacts.
From stdpp Require Import base option list gmap strings.

Local Open Scope string_scope.
Local Open Scope list_scope.

#[local] Arguments String.append _ _ : simpl nomatch.

(* ===================================================================== *)
(** * JavaScript string primitives *)
(* ===================================================================== *)

Module Js.

Definition code (c : ascii) : N := N_of_ascii c.

Definition LF : ascii := "010"%char.
Definition CR : ascii := "013"%char.
Definition nl : string := String LF "".
Definition cr : string := String CR "".
Definition dquote : string := String "034"%char "".
Definition backtick : string := String "096"%char "".

(** [\s]: WhiteSpace and LineTerminator code points below 256. *)
Definition isSpace (c : ascii) : bool :=
  let n := code c in
  ((9 <=? n) && (n <=? 13) || (n =? 32) || (n =? 160))%N.

(** Characters that [.] does not match. *)
Definition isLineTerminator (c : ascii) : bool :=
  let n := code c in ((n =? 10) || (n =? 13))%N.

(** [\w] *)
Definition isWordChar (c : ascii) : bool :=
  let n := code c in
  ((97 <=? n) && (n <=? 122) || (65 <=? n) && (n <=? 90)
   || (48 <=? n) && (n <=? 57) || (n =? 95))%N.

(** [[\w-]] *)
Definition isKeyChar (c : ascii) : bool :=
  isWordChar c || Ascii.eqb c "-"%char.

(** [String.prototype.toLowerCase] on one code unit below 256. *)
Definition toLowerChar (c : ascii) : ascii :=
  let n := code c in
  if ((65 <=? n) && (n <=? 90)
      || (192 <=? n) && (n <=? 222) && negb (n =? 215))%N
  then ascii_of_N (n + 32) else c.

(** Case folding of the [i] flag against an ASCII pattern character. *)
Definition eqCI (p c : ascii) : bool :=
  let fold x := let n := code x in
                if ((97 <=? n) && (n <=? 122))%N then ascii_of_N (n - 32) else x in
  Ascii.eqb (fold p) (fold c).

Fixpoint toLowerCase (s : string) : string :=
  match s with
  | "" => ""
  | String c r => String (toLowerChar c) (toLowerCase r)
  end.

Definition isEmpty (s : string) : bool :=
  match s with "" => true | _ => false end.

(** [s.startsWith(p)] *)
Fixpoint startsWith (s p : string) : bool :=
  match p, s with
  | "", _ => true
  | String a p', String b s' => Ascii.eqb a b && startsWith s' p'
  | String _ _, "" => false
  end.

(** A pattern prefix under the [i] flag. *)
Fixpoint startsWithCI (s p : string) : bool :=
  match p, s with
  | "", _ => true
  | String a p', String b s' => eqCI a b && startsWithCI s' p'
  | String _ _, "" => false
  end.

(** [s.substring(n)] *)
Fixpoint drop (n : nat) (s : string) : string :=
  match n, s with
  | O, _ => s
  | S k, String _ r => drop k r
  | S _, "" => ""
  end.

(** [s.endsWith(p)] *)
Definition endsWith (s p : string) : bool :=
  String.eqb (drop (String.length s - String.length p) s) p
  && (String.length p <=? String.length s)%nat.

(** The longest prefix whose characters satisfy [p], and what follows. *)
Fixpoint span (p : ascii -> bool) (s : string) : string * string :=
  match s with
  | "" => ("", "")
  | String c r =>
      if p c then let '(a, b) := span p r in (String c a, b) else ("", s)
  end.

Definition trimStart (s : string) : string := snd (span isSpace s).

Fixpoint trimEnd (s : string) : string :=
  match s with
  | "" => ""
  | String c r =>
      let r' := trimEnd r in
      if isSpace c && isEmpty r' then "" else String c r'
  end.

(** [s.trim()] *)
Definition trim (s : string) : string := trimEnd (trimStart s).

Fixpoint existsb (p : ascii -> bool) (s : string) : bool :=
  match s with
  | "" => false
  | String c r => p c || existsb p r
  end.

(** [s.indexOf(c)], [None] for -1. *)
Fixpoint indexOf (c : ascii) (s : string) : option nat :=
  match s with
  | "" => None
  | String d r => if Ascii.eqb c d then Some O else S <$> indexOf c r
  end.

(** [s.split(sep)] for a one-character separator. *)
Fixpoint split (sep : ascii) (s : string) : list string :=
  match s with
  | "" => [""]
  | String c r =>
      if Ascii.eqb c sep then "" :: split sep r
      else match split sep r with
           | x :: xs => String c x :: xs
           | [] => [String c ""]
           end
  end.

(** [a.join(sep)] *)
Fixpoint join (sep : string) (l : list string) : string :=
  match l with
  | [] => ""
  | [x] => x
  | x :: xs => x +:+ sep +:+ join sep xs
  end.

(** [s.replace(/pat/g, rep)] for a literal, non-empty pattern: matches
    are taken leftmost and do not overlap ([skip] counts the characters
    of the current match still to be consumed). *)
Fixpoint replaceAllFrom (pat rep : string) (skip : nat) (s : string) : string :=
  match s with
  | "" => ""
  | String c r =>
      match skip with
      | S k => replaceAllFrom pat rep k r
      | O =>
          if startsWith s pat
          then rep +:+ replaceAllFrom pat rep (String.length pat - 1) r
          else String c (replaceAllFrom pat rep 0 r)
      end
  end.

Definition replaceAll (pat rep s : string) : string :=
  replaceAllFrom pat rep 0 s.

(** [s.replace(/\n$/, '')] *)
Fixpoint stripFinalNewline (s : string) : string :=
  match s with
  | "" => ""
  | String c "" => if Ascii.eqb c LF then "" else s
  | String c r => String c (stripFinalNewline r)
  end.

(** [s.slice(1, -1)] *)
Fixpoint dropLast (s : string) : string :=
  match s with
  | "" => ""
  | String _ "" => ""
  | String c r => String c (dropLast r)
  end.

Definition slice1 (s : string) : string := dropLast (drop 1 s).

(** [String(n)] for a non-negative integer. *)
Definition ofNat (n : nat) : string := NilEmpty.string_of_uint (Nat.to_uint n).

(** Line-ending normalisation used by both scanners:
    [.replace(/\r\n/g, '\n').replace(/\r/g, '\n')]. *)
Definition normalizeNewlines (s : string) : string :=
  replaceAll cr nl (replaceAll (cr +:+ nl) nl s).

End Js.

Import Js.

(* ===================================================================== *)
(** * Header arguments *)
(* ===================================================================== *)

(** A header-argument value: the string bound by the [:key value] scan or
    the boolean bound by the flag scan. *)
Inductive Value : Type :=
| VStr (s : string)
| VBool (b : bool).

#[global] Instance Value_eq_dec : EqDecision Value.
Proof. solve_decision. Defined.

#[global] Instance Value_countable : Countable Value.
Proof.
  refine (inj_countable'
            (fun v => match v with VStr s => inl s | VBool b => inr b end)
            (fun x => match x with inl s => VStr s | inr b => VBool b end) _).
  intros []; reflexivity.
Defined.

(** An argument object ([args], [mergedArgs], [headerArgs]). *)
Abbreviation Args := (gmap string Value).

(** JavaScript truthiness of a property read ([None] is [undefined]). *)
Definition truthy (v : option Value) : bool :=
  match v with
  | Some (VStr s) => negb (isEmpty s)
  | Some (VBool b) => b
  | None => false
  end.

(** [a || b] on property reads. *)
Definition jsOr (a b : option Value) : option Value :=
  if truthy a then a else b.

(** String conversion of a value, as [Array.prototype.join] performs it. *)
Definition valueToString (v : Value) : string :=
  match v with
  | VStr s => s
  | VBool true => "true"
  | VBool false => "false"
  end.

(** [args[key] = v] on an object literal: the key [__proto__] reaches the
    prototype setter, which ignores a string or a boolean. *)
Definition setArg (key : string) (v : Value) (args : Args) : Args :=
  if String.eqb key "__proto__" then args else <[key := v]> args.

(* ===================================================================== *)
(** * Parser: [parseHeaderArgs] *)
(* ===================================================================== *)

(** The pattern of line 59, [^#\+begin_src\s+(\S+)] followed by any
    characters up to the end of the input, under the [i] flag.  Every quantifier is followed by a
    character outside its class, so the greedy choice is the only one:
    the longest run of white space, then the longest run of other
    characters; the remainder must be free of line terminators. *)
Definition matchBeginSrc (line : string) : option (string * string) :=
  if startsWithCI line "#+begin_src" then
    let '(ws, r1) := span isSpace (drop 11 line) in
    if isEmpty ws then None else
    let '(lang, r2) := span (fun c => negb (isSpace c)) r1 in
    if isEmpty lang then None else
    if existsb isLineTerminator r2 then None else Some (lang, r2)
  else None.

(** The common prefix [:([\w-]+)\s+] of the two argument patterns, tried
    at the head of [s]: the key, the length matched and what follows. *)
Definition matchKeyAt (s : string) : option (string * nat * string) :=
  match s with
  | String ":"%char r =>
      let '(key, r1) := span isKeyChar r in
      if isEmpty key then None else
      let '(ws, r2) := span isSpace r1 in
      if isEmpty ws then None else
      Some (key, 1 + String.length key + String.length ws, r2)
  | _ => None
  end.

(** The pattern of line 67 at the head of [s]: the key prefix, then a run
    of characters other than white space and colon, or a double-quoted
    string.  Result: key, value and length of the match.  The first alternative accepts a double quote, so
    whenever the second could start the first has already matched. *)
Definition matchArgAt (s : string) : option (string * string * nat) :=
  match matchKeyAt s with
  | Some (key, n, r) =>
      let '(v, _) := span (fun c => negb (isSpace c) && negb (Ascii.eqb c ":"%char)) r in
      if isEmpty v then None else Some (key, v, n + String.length v)
  | None => None
  end.

(** [\b] after a word character: the next character is not a word
    character, or the input ends. *)
Definition wordBoundary (r : string) : bool :=
  match r with
  | "" => true
  | String c _ => negb (isWordChar c)
  end.

(** The alternation [(yes|no|t|nil)\b] under the [i] flag, alternatives in
    order. *)
Definition matchFlagToken (r : string) : option string :=
  let try tok := startsWithCI r tok && wordBoundary (drop (String.length tok) r) in
  let take tok := Some (String.substring 0 (String.length tok) r) in
  if try "yes" then take "yes"
  else if try "no" then take "no"
  else if try "t" then take "t"
  else if try "nil" then take "nil"
  else None.

(** [/:([\w-]+)\s+(yes|no|t|nil)\b/i] at the head of [s]. *)
Definition matchFlagAt (s : string) : option (string * string * nat) :=
  match matchKeyAt s with
  | Some (key, n, r) =>
      match matchFlagToken r with
      | Some tok => Some (key, tok, n + String.length tok)
      | None => None
      end
  | None => None
  end.

(** The successive results of [regex.exec(s)] for a global pattern: the
    leftmost match from the current position, then the search resumes
    after it ([skip] counts the characters of the match still to pass). *)
Fixpoint execAllFrom {A} (matchAt : string -> option (A * nat))
    (skip : nat) (s : string) : list A :=
  match s with
  | "" => []
  | String _ r =>
      match skip with
      | S k => execAllFrom matchAt k r
      | O =>
          match matchAt s with
          | Some (m, len) => m :: execAllFrom matchAt (len - 1) r
          | None => execAllFrom matchAt 0 r
          end
      end
  end.

Definition argMatches (argsStr : string) : list (string * string) :=
  execAllFrom (fun s => (fun '(k, v, n) => ((k, v), n)) <$> matchArgAt s) 0 argsStr.

Definition flagMatches (argsStr : string) : list (string * string) :=
  execAllFrom (fun s => (fun '(k, v, n) => ((k, v), n)) <$> matchFlagAt s) 0 argsStr.

(** Body of the first [while] loop. *)
Definition applyArg (args : Args) (m : string * string) : Args :=
  let '(key, raw) := m in
  let value := if startsWith raw dquote && endsWith raw dquote
               then slice1 raw else raw in
  setArg key (VStr value) args.

(** Body of the second [while] loop. *)
Definition applyFlag (args : Args) (m : string * string) : Args :=
  let '(key, tok) := m in
  let value := toLowerCase tok in
  setArg key (VBool (String.eqb value "yes" || String.eqb value "t")) args.

Definition headerArgsOf (argsStr : string) : Args :=
  fold_left applyFlag (flagMatches argsStr)
            (fold_left applyArg (argMatches argsStr) ∅).

Definition parseHeaderArgs (line : string) : string * Args :=
  match matchBeginSrc line with
  | None => ("", ∅)
  | Some (language, rest) => (language, headerArgsOf (trim rest))
  end.

(* ===================================================================== *)
(** * Parser: [extractFileProperties] and [extractBlocks] *)
(* ===================================================================== *)

(** The object [props] that [extractFileProperties] builds and that
    [extractBlocks] receives as [fileProperties]: its own keys, each bound
    to an argument object, and its prototype.  The object literal starts
    with [Object.prototype] as prototype ([None]); line 219 can replace
    it by an argument object, see [setProp]. *)
Record FileProperties : Type := mkProps {
  ownProps : gmap string Args;
  protoProps : option Args;
}.

(** The object literal of line 204, and the default of line 96. *)
Definition emptyProps : FileProperties := mkProps ∅ None.

(** What a property read [props[key]] evaluates to. *)
Inductive PropValue : Type :=
| PArgs (a : Args)     (* an argument object *)
| PValue (v : Value)   (* a value held by the argument object that serves as prototype *)
| PBuiltin             (* a member of [Object.prototype] *)
| PUndefined.

(** The members of [Object.prototype]: functions, and under [__proto__]
    the accessor whose getter returns the prototype of the receiver. *)
Definition objectPrototypeMember (key : string) : bool :=
  List.existsb (String.eqb key)
    ["constructor"; "hasOwnProperty"; "isPrototypeOf"; "propertyIsEnumerable";
     "toLocaleString"; "toString"; "valueOf"; "__defineGetter__";
     "__defineSetter__"; "__lookupGetter__"; "__lookupSetter__"; "__proto__"].

(** [props[key]]: an own key, else the prototype chain.  An argument
    object that serves as prototype answers with the value it binds to
    the key; the chain ends in [Object.prototype]. *)
Definition getProp (props : FileProperties) (key : string) : PropValue :=
  match ownProps props !! key with
  | Some a => PArgs a
  | None =>
      match protoProps props with
      | Some proto =>
          if String.eqb key "__proto__" then PArgs proto else
          match proto !! key with
          | Some v => PValue v
          | None => if objectPrototypeMember key then PBuiltin else PUndefined
          end
      | None => if objectPrototypeMember key then PBuiltin else PUndefined
      end
  end.

(** [{ ...'ab' }] is [{ 0: 'a', 1: 'b' }]: the code units of a string
    under their indices, counted from [i]. *)
Fixpoint charsFrom (i : nat) (s : string) : Args :=
  match s with
  | "" => ∅
  | String c r => <[ofNat i := VStr (String c "")]> (charsFrom (S i) r)
  end.

(** The own enumerable properties that a spread [{ ...value }] copies:
    those of an argument object, the indexed code units of a string, and
    none for a boolean, for [undefined] and for a member of
    [Object.prototype].  The operand [value || {}] of line 140 spreads
    to the same properties as [value]. *)
Definition spreadProp (p : PropValue) : Args :=
  match p with
  | PArgs a => a
  | PValue (VStr s) => charsFrom 0 s
  | PValue (VBool _) | PBuiltin | PUndefined => ∅
  end.

(** [props[key] = a] for an argument object [a].  Where the object has
    no own key [__proto__] the assignment under that name reaches the
    setter inherited from [Object.prototype], which makes [a] the
    prototype of [props] and creates no key. *)
Definition setProp (key : string) (a : Args) (props : FileProperties)
    : FileProperties :=
  if String.eqb key "__proto__"
     && negb (bool_decide (is_Some (ownProps props !! key)))
  then mkProps (ownProps props) (Some a)
  else mkProps (<[key := a]> (ownProps props)) (protoProps props).

(** The pattern of line 212 on a trimmed line free of line terminators:
    [^#\+PROPERTY:\s+header-args(?::(\w+))?\s+] followed by at least one
    character, under the [i] flag.  Result: the optional language tag and
    the argument text. *)
Definition matchProperty (trimmed : string) : option (option string * string) :=
  if startsWithCI trimmed "#+property:" then
    let '(ws, r1) := span isSpace (drop 11 trimmed) in
    if isEmpty ws then None else
    if startsWithCI r1 "header-args" then
      let r2 := drop 11 r1 in
      let '(lang, r3) :=
        match r2 with
        | String ":"%char r2' =>
            let '(w, r') := span isWordChar r2' in
            if isEmpty w then (None, r2) else (Some w, r')
        | _ => (None, r2)
        end in
      let '(ws2, r4) := span isSpace r3 in
      if isEmpty ws2 then None else
      if isEmpty r4 || existsb isLineTerminator r4 then None
      else Some (lang, r4)
    else None
  else None.

(** Body of the loop of [extractFileProperties]. *)
Definition propertyLine (props : FileProperties) (line : string) : FileProperties :=
  let trimmed := trim line in
  match matchProperty trimmed with
  | Some (tag, argsStr) =>
      let lang := default "*" tag in
      let '(_, args) := parseHeaderArgs ("#+begin_src dummy " +:+ argsStr) in
      setProp lang (args ∪ spreadProp (getProp props lang)) props
  | None => props
  end.

Definition extractFileProperties (text : string) : FileProperties :=
  fold_left propertyLine (split LF (normalizeNewlines text)) emptyProps.

Record SourceBlock : Type := mkBlock {
  name : option string;          (* [null] or the text after [#+name:] *)
  language : string;
  content : string;
  headerArgs : Args;
  startLine : nat;
  contentStartLine : nat;
  endLine : Z;
  sourcePath : string;
}.

Definition setContent (b : SourceBlock) (c : string) : SourceBlock :=
  mkBlock (name b) (language b) c (headerArgs b) (startLine b)
          (contentStartLine b) (endLine b) (sourcePath b).

Definition setEndLine (b : SourceBlock) (e : Z) : SourceBlock :=
  mkBlock (name b) (language b) (content b) (headerArgs b) (startLine b)
          (contentStartLine b) e (sourcePath b).

(** [fileProperties['*'] || {}] and [fileProperties[language] || {}]
    spread into [{ ...globalProps, ...langProps, ...args }], followed by the implicit
    [tangle = 'no'] of a block that carries [:noweb-ref] and no [:tangle]
    of its own (lines 139 to 149). *)
Definition mergeHeaderArgs (fileProperties : FileProperties)
    (lang : string) (args : Args) : Args :=
  let globalProps := spreadProp (getProp fileProperties "*") in
  let langProps := spreadProp (getProp fileProperties lang) in
  let mergedArgs := args ∪ (langProps ∪ globalProps) in
  let hasNowebRef := jsOr (args !! "noweb-ref") (args !! "nowebRef") in
  let hasTangleInBlock := bool_decide (is_Some (args !! "tangle")) in
  if truthy hasNowebRef && negb hasTangleInBlock
  then <["tangle" := VStr "no"]> mergedArgs
  else mergedArgs.

(** The variables of the loop of [extractBlocks]. *)
Record ScanState : Type := mkScan {
  blocks : list SourceBlock;
  currentName : option string;
  inBlock : bool;
  currentBlock : option SourceBlock;
  inExampleBlock : bool;
}.

Definition initialScan : ScanState := mkScan [] None false None false.

(** The block allocated at a [#+begin_src] line. *)
Definition openBlock (path : string) (fileProperties : FileProperties)
    (pending : option string) (i : nat) (line : string) : SourceBlock :=
  let '(lang, args) := parseHeaderArgs (trim line) in
  mkBlock pending lang "" (mergeHeaderArgs fileProperties lang args)
          i (i + 1) (-1) path.

(** Comma unescaping of a content line (lines 181 to 190). *)
Definition unescapeLine (line : string) : string :=
  let contentLine := if startsWith line "," then drop 1 line else line in
  let contentLine := replaceAll (nl +:+ ",#+") (nl +:+ "#+") contentLine in
  replaceAll (backtick +:+ ",#+") (backtick +:+ "#+") contentLine.

(** [line.substring(line.indexOf(':') + 1).trim()] *)
Definition directiveName (line : string) : string :=
  trim (match indexOf ":"%char line with
        | Some k => drop (k + 1) line
        | None => line
        end).

(** One iteration of the loop of [extractBlocks] on line [i].  The loop
    sets and clears [inBlock] and [currentBlock] together, so the branches
    that find [inBlock] without a current block are never reached. *)
Definition scanLine (path : string) (fileProperties : FileProperties)
    (st : ScanState) (i : nat) (line : string) : ScanState :=
  let trimmed := toLowerCase (trim line) in
  let isAtColumnZero := startsWith line "#+" in
  if negb (inBlock st) && isAtColumnZero && startsWith trimmed "#+begin_example" then
    mkScan (blocks st) (currentName st) (inBlock st) (currentBlock st) true
  else if negb (inBlock st) && isAtColumnZero && startsWith trimmed "#+end_example" then
    mkScan (blocks st) (currentName st) (inBlock st) (currentBlock st) false
  else if inExampleBlock st then st
  else if isAtColumnZero && startsWith trimmed "#+name:" && negb (inBlock st) then
    mkScan (blocks st) (Some (directiveName line)) (inBlock st) (currentBlock st)
           (inExampleBlock st)
  else if isAtColumnZero && startsWith trimmed "#+begin_src" && negb (inBlock st) then
    mkScan (blocks st) None true
           (Some (openBlock path fileProperties (currentName st) i line))
           (inExampleBlock st)
  else if isAtColumnZero && startsWith trimmed "#+end_src" && inBlock st then
    match currentBlock st with
    | Some b =>
        let b' := setContent (setEndLine b (Z.of_nat i))
                             (stripFinalNewline (content b)) in
        mkScan (blocks st ++ [b']) (currentName st) false None (inExampleBlock st)
    | None => st
    end
  else
    match currentBlock st with
    | Some b =>
        if inBlock st then
          mkScan (blocks st) (currentName st) (inBlock st)
                 (Some (setContent b (content b +:+ unescapeLine line +:+ nl)))
                 (inExampleBlock st)
        else st
    | None => st
    end.

(** The loop over the lines, numbered from 0. *)
Fixpoint scanLines (path : string) (fileProperties : FileProperties)
    (st : ScanState) (i : nat) (lines : list string) : ScanState :=
  match lines with
  | [] => st
  | line :: rest =>
      scanLines path fileProperties (scanLine path fileProperties st i line)
                (S i) rest
  end.

Definition extractBlocks (text path : string) (fileProperties : FileProperties)
    : list SourceBlock :=
  blocks (scanLines path fileProperties initialScan 0
                    (split LF (normalizeNewlines text))).

(* ===================================================================== *)
(** * Noweb expansion: [buildBlockIndex] and [expandNoweb] *)
(* ===================================================================== *)

(** The blocks of a run, in allocation order; a block is referred to by
    its position. *)
Abbreviation Store := (list SourceBlock).

(** The [Map] built by [buildBlockIndex].  A key is the value of
    [block.name] or of the [noweb-ref] argument, hence a string or the
    boolean [true]; [expandNoweb] only ever looks up strings. *)
Abbreviation BlockIndex := (gmap Value (list nat)).

(** [if (!index.has(k)) index.set(k, []); index.get(k).push(block)] *)
Definition indexPush (key : Value) (id : nat) (index : BlockIndex) : BlockIndex :=
  <[key := default [] (index !! key) ++ [id]]> index.

(** [nowebRef !== block.name] *)
Definition differsFromName (v : Value) (n : option string) : bool :=
  match v, n with
  | VStr s, Some m => negb (String.eqb s m)
  | _, _ => true
  end.

(** Body of the loop of [buildBlockIndex] for the block at position [id]. *)
Definition indexBlock (index : BlockIndex) (id : nat) (block : SourceBlock)
    : BlockIndex :=
  let index :=
    match name block with
    | Some n => if isEmpty n then index else indexPush (VStr n) id index
    | None => index
    end in
  let nowebRef := jsOr (headerArgs block !! "noweb-ref")
                       (headerArgs block !! "nowebRef") in
  match nowebRef with
  | Some v =>
      if truthy nowebRef && differsFromName v (name block)
      then indexPush v id index else index
  | None => index
  end.

Fixpoint buildBlockIndexFrom (id : nat) (bs : list SourceBlock)
    (index : BlockIndex) : BlockIndex :=
  match bs with
  | [] => index
  | b :: rest => buildBlockIndexFrom (S id) rest (indexBlock index id b)
  end.

Definition buildBlockIndex (store : Store) : BlockIndex :=
  buildBlockIndexFrom 0 store ∅.

(** The pattern of line 271 on a line: leading white space, [<<], a
    non-empty run of characters other than [>], [>>], and trailing text
    free of line terminators.  Each run is followed by a character outside
    its class, so the longest run is the only candidate. *)
Definition matchNoweb (line : string) : option (string * string * string) :=
  let '(leadingIndent, r1) := span isSpace line in
  if startsWith r1 "<<" then
    let '(refName, r2) := span (fun c => negb (Ascii.eqb c ">"%char)) (drop 2 r1) in
    if isEmpty refName then None else
    if startsWith r2 ">>" then
      let trailing := drop 2 r2 in
      if existsb isLineTerminator trailing then None
      else Some (leadingIndent, refName, trailing)
    else None
  else None.

(** [result[result.length - 1] += trailing]; the array is never empty where
    the statement is reached. *)
Fixpoint appendToLast (result : list string) (trailing : string) : list string :=
  match result with
  | [] => []
  | [x] => [x +:+ trailing]
  | x :: rest => x :: appendToLast rest trailing
  end.

Definition circularMarker (refName : string) : string :=
  "/* ERROR: Circular reference to " +:+ refName +:+ " */".

Section Expander.

Variable store : Store.
Variable blockIndex : BlockIndex.

(** The state threaded through an expansion: the [result] array and the
    [visited] set, which is one mutable [Set] shared by the whole
    recursion. *)
Definition ExpandState : Type := list string * gset string.

Section Body.

(** The recursive call [expandNoweb(content, blockIndex, visited, indent)]. *)
Variable self : string -> gset string -> string -> option (string * gset string).

(** The loop over [referencedBlocks] (lines 291 to 303). *)
Fixpoint expandBlocks (ids : list nat) (totalIndent : string)
    (st : ExpandState) : option ExpandState :=
  match ids with
  | [] => Some st
  | id :: rest =>
      match store !! id with
      | Some block =>
          match self (content block) (snd st) totalIndent with
          | Some (expanded, visited) =>
              let result := fst st ++ split LF expanded in
              let result := match rest with
                            | [] => result
                            | _ :: _ => result ++ [""]
                            end in
              expandBlocks rest totalIndent (result, visited)
          | None => None
          end
      | None => None
      end
  end.

(** One iteration of the loop over the lines (lines 271 to 311). *)
Definition expandLine (indent : string) (st : ExpandState) (line : string)
    : option ExpandState :=
  let '(result, visited) := st in
  match matchNoweb line with
  | Some (leadingIndent, refName, trailing) =>
      let totalIndent := indent +:+ leadingIndent in
      if bool_decide (refName ∈ visited) then
        Some (result ++ [totalIndent +:+ circularMarker refName +:+ trailing],
              visited)
      else
        match blockIndex !! VStr refName with
        | None | Some [] =>
            Some (result ++ [totalIndent +:+ "<<" +:+ refName +:+ ">>" +:+ trailing],
                  visited)
        | Some referencedBlocks =>
            match expandBlocks referencedBlocks totalIndent
                               (result, {[refName]} ∪ visited) with
            | Some (result', visited') =>
                Some (if isEmpty trailing then result'
                      else appendToLast result' trailing,
                      visited' ∖ {[refName]})
            | None => None
            end
        end
  | None => Some (result ++ [indent +:+ line], visited)
  end.

Fixpoint expandLines (indent : string) (lines : list string)
    (st : ExpandState) : option ExpandState :=
  match lines with
  | [] => Some st
  | line :: rest =>
      match expandLine indent st line with
      | Some st' => expandLines indent rest st'
      | None => None
      end
  end.

End Body.

(** [expandNoweb]; [fuel] bounds the depth of the recursion, and [None]
    means that the bound was reached (or that the index names a block
    that is not in the store).  The result carries the [visited] set as
    the call leaves it. *)
Fixpoint expandNoweb (fuel : nat) (text : string) (visited : gset string)
    (indent : string) : option (string * gset string) :=
  match fuel with
  | O => None
  | S f =>
      match expandLines (expandNoweb f) indent (split LF text) ([], visited) with
      | Some (result, visited') => Some (join nl result, visited')
      | None => None
      end
  end.

End Expander.

(* ===================================================================== *)
(** * Tangling: [groupByTarget] and [generateContent] *)
(* ===================================================================== *)

(** What [extensions[lang.toLowerCase()] || '.txt'] evaluates to.  The
    table is an object literal, so the read also reaches the members that
    the literal inherits from [Object.prototype]; the lowercased names
    among them are [constructor], the function [Object], and [__proto__],
    the prototype object itself.  Both are truthy, so the default is not
    taken for them. *)
Inductive Extension : Type :=
| ExtString (s : string)
| ExtObjectFunction
| ExtObjectPrototype.

Definition getExtensionForLanguage (lang : string) : Extension :=
  let l := toLowerCase lang in
  if String.eqb l "typescript" then ExtString ".ts"
  else if String.eqb l "javascript" then ExtString ".js"
  else if String.eqb l "python" then ExtString ".py"
  else if String.eqb l "rust" then ExtString ".rs"
  else if String.eqb l "go" then ExtString ".go"
  else if String.eqb l "java" then ExtString ".java"
  else if String.eqb l "c" then ExtString ".c"
  else if String.eqb l "cpp" then ExtString ".cpp"
  else if String.eqb l "sh" then ExtString ".sh"
  else if String.eqb l "bash" then ExtString ".sh"
  else if String.eqb l "ruby" then ExtString ".rb"
  else if String.eqb l "json" then ExtString ".json"
  else if String.eqb l "yaml" then ExtString ".yaml"
  else if String.eqb l "yml" then ExtString ".yml"
  else if String.eqb l "markdown" then ExtString ".md"
  else if String.eqb l "org" then ExtString ".org"
  else if String.eqb l "constructor" then ExtObjectFunction
  else if String.eqb l "__proto__" then ExtObjectPrototype
  else ExtString ".txt".

(** The string that [baseName + ext] (line 430) appends for [ext]: the
    string itself, the source text that Node gives for the built-in
    function, or the tag of a plain object. *)
Definition extensionToString (ext : Extension) : string :=
  match ext with
  | ExtString s => s
  | ExtObjectFunction => "function Object() { [native code] }"
  | ExtObjectPrototype => "[object Object]"
  end.

(** [targetPath.split('.').pop()?.toLowerCase() || ''] *)
Definition extensionOf (targetPath : string) : string :=
  toLowerCase (List.last (split "."%char targetPath) "").

Definition oneOf (s : string) (l : list string) : bool :=
  List.existsb (String.eqb s) l.

Definition getCommentPrefix (targetPath : string) : string :=
  let ext := extensionOf targetPath in
  if oneOf ext ["py"; "sh"; "bash"; "zsh"; "fish"; "toml"; "rb"; "pl"; "r"] then "#"
  else if oneOf ext ["lisp"; "el"; "clj"; "scm"] then ";;"
  else if oneOf ext ["lua"; "sql"; "hs"] then "--"
  else if oneOf ext ["css"] then "/*"
  else if oneOf ext ["html"; "xml"] then "<!--"
  else if oneOf ext ["json"; "yaml"; "yml"; "md"; "org"; "wasm"; "txt"] then ""
  else "//".

Definition getCommentSuffix (targetPath : string) : string :=
  let ext := extensionOf targetPath in
  if oneOf ext ["css"] then " */"
  else if oneOf ext ["html"; "xml"] then " -->"
  else "".

(** [s.replace(/\.org$/, '')] *)
Definition stripOrgSuffix (s : string) : string :=
  if endsWith s ".org" then String.substring 0 (String.length s - 4) s else s.

(** [[...new Set(l)]]: first occurrences, in order. *)
Fixpoint uniqueFrom (seen : list string) (l : list string) : list string :=
  match l with
  | [] => []
  | x :: rest =>
      if oneOf x seen then uniqueFrom seen rest
      else x :: uniqueFrom (x :: seen) rest
  end.

(** The [Map] of [groupByTarget]: target path to the positions of its
    blocks, in insertion order of the paths. *)
Abbreviation Targets := (list (string * list nat)).

(** [if (!targets.has(p)) targets.set(p, []); targets.get(p).push(block)] *)
Fixpoint targetPush (path : string) (id : nat) (targets : Targets) : Targets :=
  match targets with
  | [] => [(path, [id])]
  | (p, ids) :: rest =>
      if String.eqb p path then (p, ids ++ [id]) :: rest
      else (p, ids) :: targetPush path id rest
  end.

(** [block.content.split('\n')[0]] *)
Definition firstLine (block : SourceBlock) : string :=
  List.hd "" (split LF (content block)).

(** [firstLine && firstLine.startsWith('#!')] *)
Definition startsWithShebang (block : SourceBlock) : bool :=
  negb (isEmpty (firstLine block)) && startsWith (firstLine block) "#!".

(** [block.content.substring(firstLine.length + 1)] *)
Definition withoutFirstLine (block : SourceBlock) : string :=
  drop (String.length (firstLine block) + 1) (content block).

Section Tangling.

(** [path.dirname], [path.resolve] with two arguments, [path.relative]
    and the value of [process.cwd()]. *)
Variable dirname : string -> string.
Variable resolve : string -> string -> string.
Variable relative : string -> string -> string.
Variable cwd : string.

(** The target path of one block in the loop of [groupByTarget], or
    [None] where the loop reaches [continue]. *)
Definition targetPathOf (block : SourceBlock) : option string :=
  let hasNowebRef := jsOr (headerArgs block !! "noweb-ref")
                          (headerArgs block !! "nowebRef") in
  let hasTangle := bool_decide (is_Some (headerArgs block !! "tangle")) in
  if truthy hasNowebRef && negb hasTangle then None else
  match headerArgs block !! "tangle" with
  | None => None
  | Some (VBool false) => None
  | Some (VBool true) =>
      Some (stripOrgSuffix (sourcePath block)
            +:+ extensionToString (getExtensionForLanguage (language block)))
  | Some (VStr tangle) =>
      if isEmpty tangle || String.eqb tangle "no" then None
      else if String.eqb tangle "yes" then
        Some (stripOrgSuffix (sourcePath block)
              +:+ extensionToString (getExtensionForLanguage (language block)))
      else Some (resolve (dirname (sourcePath block)) tangle)
  end.

Fixpoint groupByTargetFrom (id : nat) (bs : list SourceBlock)
    (targets : Targets) : Targets :=
  match bs with
  | [] => targets
  | block :: rest =>
      groupByTargetFrom (S id) rest
        match targetPathOf block with
        | Some targetPath => targetPush targetPath id targets
        | None => targets
        end
  end.

Definition groupByTarget (store : Store) : Targets :=
  groupByTargetFrom 0 store [].

(** The shebang loop of [generateContent] (lines 472 to 487): the
    shebang found, and the store after the assignment to
    [block.content]. *)
Fixpoint findShebang (store : Store) (ids : list nat)
    : option (option string * Store) :=
  match ids with
  | [] => Some (None, store)
  | id :: rest =>
      match store !! id with
      | Some block =>
          if truthy (headerArgs block !! "shebang") then
            Some (valueToString <$> (headerArgs block !! "shebang"), store)
          else if startsWithShebang block then
            Some (Some (firstLine block),
                  <[id := setContent block (withoutFirstLine block)]> store)
          else findShebang store rest
      | None => None
      end
  end.

Definition commentsOff (block : SourceBlock) : bool :=
  match headerArgs block !! "comments" with
  | Some (VStr s) => String.eqb s "no"
  | Some (VBool b) => negb b
  | None => false
  end.

(** The depth bound handed to [expandNoweb]: one more than the number
    of names in the index. *)
Definition expansionFuel (blockIndex : BlockIndex) : nat := S (size blockIndex).

(** The parts pushed for one block in the second loop of
    [generateContent] (lines 504 to 520). *)
Definition blockParts (blockIndex : BlockIndex) (store : Store)
    (framing isOrg : bool) (commentPrefix commentSuffix : string)
    (block : SourceBlock) : option (list string) :=
  let link :=
    if framing then
      [commentPrefix +:+ " [[file:" +:+ relative cwd (sourcePath block) +:+ "::"
       +:+ ofNat (startLine block + 1) +:+ "]]" +:+ commentSuffix]
    else [] in
  let footer :=
    if framing then
      [commentPrefix +:+ " "
       +:+ (match name block with
            | Some n => if isEmpty n then "unnamed" else n
            | None => "unnamed"
            end)
       +:+ " ends here" +:+ commentSuffix; ""]
    else [] in
  match (if isOrg then Some (content block)
         else fst <$> expandNoweb store blockIndex (expansionFuel blockIndex)
                                  (content block) ∅ "") with
  | Some expanded => Some (link ++ [expanded] ++ footer)
  | None => None
  end.

Fixpoint bodyParts (blockIndex : BlockIndex) (store : Store)
    (framing isOrg : bool) (commentPrefix commentSuffix : string)
    (ids : list nat) : option (list string) :=
  match ids with
  | [] => Some []
  | id :: rest =>
      match store !! id with
      | Some block =>
          match blockParts blockIndex store framing isOrg
                           commentPrefix commentSuffix block,
                bodyParts blockIndex store framing isOrg
                          commentPrefix commentSuffix rest with
          | Some ps, Some qs => Some (ps ++ qs)
          | _, _ => None
          end
      | None => None
      end
  end.

(** [!skipComments && commentPrefix] (lines 457 to 467 and 497). *)
Definition framingEnabled (targetPath : string) (bs : list SourceBlock) : bool :=
  let isJson := endsWith targetPath ".json" in
  let isYaml := endsWith targetPath ".yaml" || endsWith targetPath ".yml" in
  let isMarkdown := endsWith targetPath ".md" in
  let isOrg := endsWith targetPath ".org" in
  let isBinary := endsWith targetPath ".wasm" in
  let noComments := List.existsb commentsOff bs in
  let skipComments :=
    isJson || isYaml || isMarkdown || isOrg || isBinary || noComments in
  negb skipComments && negb (isEmpty (getCommentPrefix targetPath)).

(** The header comment (lines 497 to 502). *)
Definition bannerParts (targetPath : string) (bs : list SourceBlock) : list string :=
  let commentPrefix := getCommentPrefix targetPath in
  let commentSuffix := getCommentSuffix targetPath in
  if framingEnabled targetPath bs then
    [commentPrefix
     +:+ " This file is auto-generated by organjsm tangle. Do not edit directly."
     +:+ commentSuffix;
     commentPrefix +:+ " Source: "
     +:+ join ", " (uniqueFrom []
                      (List.map (fun b => relative cwd (sourcePath b)) bs))
     +:+ commentSuffix;
     ""]
  else [].

(** [if (shebang) parts.push(shebang)] *)
Definition shebangParts (shebang : option string) : list string :=
  match shebang with
  | Some s => [s]
  | None => []
  end.

(** [generateContent(blocks, blockIndex, targetPath)]: the text of the
    target and the store as the call leaves it.  The header arguments and
    the source paths read before and after the shebang loop are those of
    the blocks on entry, which the loop does not change. *)
Definition generateContent (store : Store) (ids : list nat)
    (blockIndex : BlockIndex) (targetPath : string)
    : option (string * Store) :=
  let bs := omap (fun id => store !! id) ids in
  match findShebang store ids with
  | Some (shebang, store') =>
      match bodyParts blockIndex store' (framingEnabled targetPath bs)
                      (endsWith targetPath ".org")
                      (getCommentPrefix targetPath) (getCommentSuffix targetPath)
                      ids with
      | Some body =>
          Some (join nl (shebangParts shebang ++ bannerParts targetPath bs ++ body),
                store')
      | None => None
      end
  | None => None
  end.

End Tangling.

(* ===================================================================== *)
(** * CLI: the write loop of [main] *)
(* ===================================================================== *)

(** A line printed by [console.log] or by [console.error]. *)
Inductive ConsoleLine : Type :=
| Log (msg : string)
| Error (msg : string).

(** How the process ends: [main] returns, or [process.exit(code)]. *)
Inductive Exit : Type :=
| Returned
| ExitCode (code : nat).

Section Main.

Variable dirname : string -> string.
Variable resolve : string -> string -> string.
Variable relative : string -> string -> string.
Variable cwd : string.

(** The file system behind [fs]: a call either returns with a new state
    or throws ([inl] carries the error). *)
Variable World : Type.
Variable existsSync : string -> World -> bool.
Variable mkdirSync : string -> World -> string + World.
Variable writeFileSync : string -> string -> World -> string + World.

Variable dryRun : bool.
Variable verbose : bool.

(** What the loop of [main] carries from one target to the next. *)
Record RunState : Type := mkRun {
  blockStore : Store;
  world : World;
  console : list ConsoleLine;
  written : nat;
}.

(** A statement sequence either completes or throws. *)
Inductive Completion : Type :=
| Normal (st : RunState)
| Throw (err : string) (st : RunState).

(** Body of the loop of [main] for one target (lines 657 to 672). *)
Definition writeTarget (blockIndex : BlockIndex) (st : RunState)
    (target : string * list nat) : option Completion :=
  let '(targetPath, ids) := target in
  match generateContent relative cwd (blockStore st) ids blockIndex targetPath with
  | None => None
  | Some (text, store') =>
      let relativePath := relative cwd targetPath in
      if dryRun then
        Some (Normal (mkRun store' (world st)
                (console st ++
                   [Log ("Would write: " +:+ relativePath +:+ " ("
                         +:+ ofNat (String.length text) +:+ " bytes, "
                         +:+ ofNat (List.length ids) +:+ " blocks)")])
                (written st)))
      else
        let dir := dirname targetPath in
        let made := if existsSync dir (world st) then inr (world st)
                    else mkdirSync dir (world st) in
        match made with
        | inl err => Some (Throw err (mkRun store' (world st) (console st) (written st)))
        | inr w1 =>
            match writeFileSync targetPath text w1 with
            | inl err => Some (Throw err (mkRun store' w1 (console st) (written st)))
            | inr w2 =>
                Some (Normal (mkRun store' w2
                        (if verbose
                         then console st ++ [Log ("Wrote: " +:+ relativePath)]
                         else console st)
                        (S (written st))))
            end
        end
  end.

(** The loop over the targets: a thrown error leaves the loop. *)
Fixpoint writeTargets (blockIndex : BlockIndex) (st : RunState)
    (targets : Targets) : option Completion :=
  match targets with
  | [] => Some (Normal st)
  | target :: rest =>
      match writeTarget blockIndex st target with
      | Some (Normal st') => writeTargets blockIndex st' rest
      | other => other
      end
  end.

(** [main] from the grouping of the targets to the end (lines 650 to
    676), under the handler of lines 685 to 688.  The cache clean-up that
    follows the last message is not modelled. *)
Definition mainFromTargets (store : Store) (w : World)
    (out : list ConsoleLine) : option (Exit * RunState) :=
  let blockIndex := buildBlockIndex store in
  let targets := groupByTarget dirname resolve store in
  let out := out ++ [Log ("Tangle targets: " +:+ ofNat (List.length targets))] in
  match writeTargets blockIndex (mkRun store w out 0) targets with
  | Some (Normal st) =>
      Some (Returned,
            if dryRun then st
            else mkRun (blockStore st) (world st)
                   (console st ++ [Log ("Wrote " +:+ ofNat (written st) +:+ " files")])
                   (written st))
  | Some (Throw err st) =>
      Some (ExitCode 1,
            mkRun (blockStore st) (world st) (console st ++ [Error err]) (written st))
  | None => None
  end.

End Main.

(* ===================================================================== *)
(** * Sample documents and a sample runtime *)
(* ===================================================================== *)

Module Sample.

(** The Node path functions on POSIX paths that are absolute and free of
    [.] and [..] segments, of doubled and of trailing slashes; the
    examples use no other path. *)

(** [path.dirname]: what stands before the last slash, [/] for an entry
    of the root directory, [.] for a bare name. *)
Definition dirname (p : string) : string :=
  match List.rev (split "/"%char p) with
  | _ :: (_ :: _) as front =>
      let d := join "/" (List.rev front) in
      if isEmpty d then "/" else d
  | _ => "."
  end.

(** [path.resolve(dir, p)] for an absolute [dir]: an absolute [p] stands
    for itself, a relative one is appended to [dir]. *)
Definition resolve (dir p : string) : string :=
  if startsWith p "/" then p
  else if String.eqb dir "/" then "/" +:+ p
  else dir +:+ "/" +:+ p.

(** [path.relative(from, p)] for a path [p] at or below the directory
    [from]. *)
Definition relative (from p : string) : string :=
  if String.eqb from p then ""
  else if String.eqb from "/" then drop 1 p
  else if startsWith p (from +:+ "/") then drop (String.length from + 1) p
  else p.

Definition cwd : string := "/".

Definition document (lines : list string) : string := join nl lines.

(** The blocks of a single document [/d/a.org]. *)
Definition blocksOf (text : string) : Store :=
  extractBlocks text "/d/a.org" (extractFileProperties text).

Definition block (n : option string) (text : string) (args : Args) : SourceBlock :=
  mkBlock n "sh" text args 0 1 2 "/d/a.org".

(** A file system that records the files written and refuses to write
    below [/d/ro]; every directory exists. *)
Definition Fs : Type := list (string * string).
Definition existsSync (dir : string) (w : Fs) : bool := true.
Definition mkdirSync (dir : string) (w : Fs) : string + Fs := inr w.
Definition writeFileSync (p text : string) (w : Fs) : string + Fs :=
  if startsWith p "/d/ro/" then inl ("EACCES: permission denied, open " +:+ p)
  else inr (w ++ [(p, text)]).

End Sample.

(* ===================================================================== *)
(** * Facts about the string primitives *)
(* ===================================================================== *)

Lemma isEmpty_true (s : string) : isEmpty s = true <-> s = "".
Proof. destruct s; simpl; split; congruence. Qed.

Lemma isEmpty_false (s : string) : isEmpty s = false <-> s <> "".
Proof. destruct s; simpl; intuition congruence. Qed.

Lemma append_nil_r (s : string) : s +:+ "" = s.
Proof. induction s; simpl; congruence. Qed.

Lemma append_assoc (a b c : string) : (a +:+ b) +:+ c = a +:+ (b +:+ c).
Proof. induction a; simpl; congruence. Qed.

Lemma startsWith_append (a b : string) : startsWith (a +:+ b) a = true.
Proof.
  induction a as [|c a IH]; simpl.
  - destruct b; reflexivity.
  - rewrite Ascii.eqb_refl. exact IH.
Qed.

Lemma startsWith_split (s p : string) :
  startsWith s p = true -> s = p +:+ drop (String.length p) s.
Proof.
  revert s. induction p as [|a p IH]; intros s H; simpl in *.
  - reflexivity.
  - destruct s as [|b s]; [destruct p; discriminate|].
    simpl in H. apply andb_prop in H as [Hab Hs].
    apply Ascii.eqb_eq in Hab. subst b. simpl. f_equal. apply IH.
    destruct p; exact Hs.
Qed.

Lemma startsWith_trans (s p q : string) :
  startsWith s p = true -> startsWith p q = true -> startsWith s q = true.
Proof.
  revert s p. induction q as [|c q IH]; intros s p Hsp Hpq.
  - destruct s; reflexivity.
  - destruct p as [|b p]; [discriminate|].
    destruct s as [|a s]; [discriminate|].
    simpl in *. apply andb_prop in Hsp as [H1 H2].
    apply andb_prop in Hpq as [H3 H4].
    apply Ascii.eqb_eq in H1. apply Ascii.eqb_eq in H3. subst.
    rewrite Ascii.eqb_refl. simpl. eapply IH; eauto.
Qed.

Lemma span_append (p : ascii -> bool) (s a r : string) :
  span p s = (a, r) -> s = a +:+ r.
Proof.
  revert a r. induction s as [|c s IH]; intros a r H; simpl in H.
  - inversion H. reflexivity.
  - destruct (p c).
    + destruct (span p s) as [a' r'] eqn:E. inversion H; subst.
      simpl. f_equal. apply IH. reflexivity.
    + inversion H. reflexivity.
Qed.

(* ===================================================================== *)
(** * The header parser: the flag scan and the value scan *)
(* ===================================================================== *)

Lemma setArg_lookup_same (key : string) (v : Value) (args : Args) :
  key <> "__proto__" -> setArg key v args !! key = Some v.
Proof.
  intros Hk. unfold setArg.
  destruct (String.eqb_spec key "__proto__") as [E|_]; [contradiction|].
  apply lookup_insert_eq.
Qed.

Lemma setArg_lookup_other (key k : string) (v : Value) (args : Args) :
  k <> key -> setArg key v args !! k = args !! k.
Proof.
  intros Hk. unfold setArg.
  destruct (String.eqb key "__proto__"); [reflexivity|].
  apply lookup_insert_ne. congruence.
Qed.

(** The boolean that the flag scan binds for a token. *)
Definition flagValue (tok : string) : bool :=
  String.eqb (toLowerCase tok) "yes" || String.eqb (toLowerCase tok) "t".

Lemma applyFlag_lookup (args : Args) (key tok k : string) :
  applyFlag args (key, tok) !! k =
    if decide (k = key /\ key <> "__proto__") then Some (VBool (flagValue tok))
    else args !! k.
Proof.
  unfold applyFlag. fold (flagValue tok).
  destruct (decide (k = key /\ key <> "__proto__")) as [[-> Hp]|Hn].
  - apply setArg_lookup_same. exact Hp.
  - destruct (decide (k = key)) as [->|Hne].
    + unfold setArg. destruct (String.eqb_spec key "__proto__") as [E|E].
      * reflexivity.
      * exfalso. apply Hn. split; [reflexivity | exact E].
    + apply setArg_lookup_other. exact Hne.
Qed.

(** A key matched by the flag scan ends bound to the boolean of one of
    its flag matches (the last one), whatever was bound before. *)
Lemma fold_applyFlag_bound (l : list (string * string)) (args : Args)
    (key tok : string) :
  key <> "__proto__" ->
  (key, tok) ∈ l ->
  exists tok', (key, tok') ∈ l
               /\ fold_left applyFlag l args !! key = Some (VBool (flagValue tok')).
Proof.
  intros Hk. induction l as [|[k t] l IH] using rev_ind; intros Hin.
  - inversion Hin.
  - assert (E : fold_left applyFlag (l ++ [(k, t)]) args !! key
                 = if decide (key = k /\ k <> "__proto__")
                   then Some (VBool (flagValue t))
                   else fold_left applyFlag l args !! key).
    { rewrite fold_left_app. simpl. apply applyFlag_lookup. }
    destruct (decide (key = k /\ k <> "__proto__")) as [[-> _]|Hn].
    + exists t. split; [|exact E].
      apply elem_of_app. right. apply list_elem_of_here.
    + apply elem_of_app in Hin as [Hin|Hin].
      * destruct (IH Hin) as [tok' [H1 H2]].
        exists tok'. split; [|rewrite E; exact H2].
        apply elem_of_app. left. exact H1.
      * apply list_elem_of_singleton in Hin. inversion Hin; subst.
        exfalso. apply Hn. split; [reflexivity | exact Hk].
Qed.

Definition flagYesLine : string := "#+begin_src ts :key yes".
Definition quotedYesLine : string :=
  "#+begin_src ts :key " +:+ dquote +:+ "yes" +:+ dquote.

(** C7 (as amended).  In [parseHeaderArgs] the flag scan runs after the
    value scan, so every key that the flag scan matches (an unquoted
    [yes], [no], [t] or [nil], in any case, after the key) ends bound to
    the boolean of one of its flag matches, whatever string the value scan
    had bound: the boolean form wins.  The flag pattern does not match a
    quoted token: [:key yes] binds [key] to [true], whereas the
    double-quoted [:key "yes"] binds [key] to the string [yes]. *)
Theorem flag_scan_wins_over_value_scan :
  (forall argsStr key tok : string,
      (key, tok) ∈ flagMatches argsStr ->
      key <> "__proto__" ->
      exists tok', (key, tok') ∈ flagMatches argsStr
                   /\ headerArgsOf argsStr !! key = Some (VBool (flagValue tok')))
  /\ snd (parseHeaderArgs flagYesLine) !! "key" = Some (VBool true)
  /\ snd (parseHeaderArgs quotedYesLine) !! "key" = Some (VStr "yes").
Proof.
  split; [|split; vm_compute; reflexivity].
  intros argsStr key tok Hin Hk. unfold headerArgsOf.
  eapply fold_applyFlag_bound; eassumption.
Qed.

Lemma flag_scan_wins_over_value_scan_witness :
  ("noweb", "YES") ∈ flagMatches ":tangle out.ts :noweb YES"
  /\ exists tok', ("noweb", tok') ∈ flagMatches ":tangle out.ts :noweb YES"
        /\ headerArgsOf ":tangle out.ts :noweb YES" !! "noweb"
           = Some (VBool (flagValue tok')).
Proof.
  assert (Hin : ("noweb", "YES") ∈ flagMatches ":tangle out.ts :noweb YES").
  { vm_compute. apply list_elem_of_here. }
  split; [exact Hin|].
  apply (proj1 flag_scan_wins_over_value_scan _ "noweb" "YES" Hin).
  discriminate.
Defined.

(** C7 as stated fails: the quoted [:key "yes"] does not bind [key] to the
    boolean [true], so it is distinguishable from the flag [:key yes]. *)
Lemma quoted_yes_is_not_the_flag :
  ~ (snd (parseHeaderArgs quotedYesLine) !! "key" = Some (VBool true)
     /\ snd (parseHeaderArgs flagYesLine) !! "key" = Some (VBool true)).
Proof. intros [H _]. vm_compute in H. discriminate. Qed.

(* ===================================================================== *)
(** * Inheritance of header arguments and the grouping into targets *)
(* ===================================================================== *)

Lemma mergeHeaderArgs_local (fp : FileProperties) (lang : string) (args : Args)
    (key : string) (v : Value) :
  args !! key = Some v -> mergeHeaderArgs fp lang args !! key = Some v.
Proof.
  intros H. unfold mergeHeaderArgs.
  destruct (truthy _ && negb _) eqn:E.
  - destruct (decide (key = "tangle")) as [->|Hne].
    + apply andb_prop in E as [_ E]. apply negb_true_iff in E.
      apply bool_decide_eq_false in E. exfalso. apply E. eauto.
    + rewrite lookup_insert_ne by congruence.
      apply lookup_union_Some_l. exact H.
  - apply lookup_union_Some_l. exact H.
Qed.

Lemma mergeHeaderArgs_implicit_no (fp : FileProperties) (lang : string) (args : Args) :
  truthy (jsOr (args !! "noweb-ref") (args !! "nowebRef")) = true ->
  args !! "tangle" = None ->
  mergeHeaderArgs fp lang args !! "tangle" = Some (VStr "no").
Proof.
  intros Hn Ht. unfold mergeHeaderArgs. rewrite Hn, Ht.
  rewrite bool_decide_eq_false_2 by (intros [x Hx]; discriminate).
  simpl. apply lookup_insert_eq.
Qed.

Section TargetFacts.

Variable dirname : string -> string.
Variable resolve : string -> string -> string.

Lemma targetPathOf_tangle_no (b : SourceBlock) :
  headerArgs b !! "tangle" = Some (VStr "no") -> targetPathOf dirname resolve b = None.
Proof.
  intros H. unfold targetPathOf. rewrite H.
  destruct (truthy _ && negb _); reflexivity.
Qed.

Lemma targetPush_elem (path : string) (id : nat) (targets : Targets)
    (p : string) (ids : list nat) (i : nat) :
  (p, ids) ∈ targetPush path id targets -> i ∈ ids ->
  (exists ids0, (p, ids0) ∈ targets /\ i ∈ ids0) \/ (p = path /\ i = id).
Proof.
  induction targets as [|[q qs] rest IH]; simpl; intros Hin Hi.
  - apply list_elem_of_singleton in Hin. inversion Hin; subst.
    apply list_elem_of_singleton in Hi. right. split; [reflexivity | exact Hi].
  - destruct (String.eqb_spec q path) as [->|Hne].
    + apply elem_of_cons in Hin as [Hin|Hin].
      * inversion Hin; subst. apply elem_of_app in Hi as [Hi|Hi].
        -- left. exists qs. split; [apply list_elem_of_here | exact Hi].
        -- apply list_elem_of_singleton in Hi. right. split; [reflexivity | exact Hi].
      * left. exists ids. split; [apply list_elem_of_further; exact Hin | exact Hi].
    + apply elem_of_cons in Hin as [Hin|Hin].
      * inversion Hin; subst. left. exists qs.
        split; [apply list_elem_of_here | exact Hi].
      * destruct (IH Hin Hi) as [[ids0 [H1 H2]]|H].
        -- left. exists ids0. split; [apply list_elem_of_further; exact H1 | exact H2].
        -- right. exact H.
Qed.

(** A position enters a target only through its own block, whose target
    path is that of the target. *)
Lemma groupByTargetFrom_elem (bs : list SourceBlock) (n : nat) (targets : Targets)
    (p : string) (ids : list nat) (i : nat) :
  (p, ids) ∈ groupByTargetFrom dirname resolve n bs targets -> i ∈ ids ->
  (exists ids0, (p, ids0) ∈ targets /\ i ∈ ids0)
  \/ (exists k b, i = n + k /\ bs !! k = Some b
                  /\ targetPathOf dirname resolve b = Some p).
Proof.
  revert n targets. induction bs as [|b bs IH]; intros n targets Hin Hi; simpl in Hin.
  - left. exists ids. split; assumption.
  - apply IH in Hin; [|exact Hi].
    destruct Hin as [[ids0 [H1 H2]]|[k [b' [-> [H1 H2]]]]].
    + destruct (targetPathOf dirname resolve b) as [tp|] eqn:E.
      * destruct (targetPush_elem _ _ _ _ _ _ H1 H2) as [H|[-> ->]].
        -- left. exact H.
        -- right. exists 0, b. split; [lia|]. split; [reflexivity | exact E].
      * left. exists ids0. split; assumption.
    + right. exists (S k), b'. split; [lia|]. split; assumption.
Qed.

Lemma groupByTarget_elem (store : Store) (p : string) (ids : list nat) (i : nat) :
  (p, ids) ∈ groupByTarget dirname resolve store -> i ∈ ids ->
  exists b, store !! i = Some b /\ targetPathOf dirname resolve b = Some p.
Proof.
  intros Hin Hi. unfold groupByTarget in Hin.
  destruct (groupByTargetFrom_elem _ _ _ _ _ _ Hin Hi)
    as [[ids0 [H _]]|[k [b [-> [H1 H2]]]]].
  - inversion H.
  - exists b. split; assumption.
Qed.

(** C1 (as amended).  A block whose own header arguments bind
    [noweb-ref] or [nowebRef] to a truthy value (a non-empty string or
    [true]) and carry no [tangle] key is placed in no target by
    [groupByTarget], whatever [tangle] value the document-global or the
    language-scoped properties supply. *)
Theorem noweb_ref_block_in_no_target
    (fileProperties : FileProperties) (lang : string) (args : Args)
    (store : Store) (i : nat) (b : SourceBlock) :
  truthy (jsOr (args !! "noweb-ref") (args !! "nowebRef")) = true ->
  args !! "tangle" = None ->
  store !! i = Some b ->
  headerArgs b = mergeHeaderArgs fileProperties lang args ->
  forall p ids, (p, ids) ∈ groupByTarget dirname resolve store -> i ∉ ids.
Proof.
  intros Hn Ht Hb Hargs p ids Hin Hi.
  destruct (groupByTarget_elem _ _ _ _ Hin Hi) as [b' [Hb' Hp]].
  rewrite Hb in Hb'. inversion Hb'; subst b'.
  rewrite targetPathOf_tangle_no in Hp; [discriminate|].
  rewrite Hargs. apply mergeHeaderArgs_implicit_no; assumption.
Qed.

End TargetFacts.

Definition nowebRefDoc : string :=
  Sample.document
    ["#+PROPERTY: header-args :tangle out.ts";
     "#+begin_src ts :noweb-ref helper";
     "x";
     "#+end_src";
     "#+begin_src ts";
     "<<helper>>";
     "#+end_src"].

Lemma noweb_ref_block_in_no_target_witness :
  let fp := extractFileProperties nowebRefDoc in
  let args := snd (parseHeaderArgs "#+begin_src ts :noweb-ref helper") in
  let store := Sample.blocksOf nowebRefDoc in
  ownProps fp !! "*" = Some {[ "tangle" := VStr "out.ts" ]}
  /\ groupByTarget Sample.dirname Sample.resolve store = [("/d/out.ts", [1])]
  /\ forall p ids,
       (p, ids) ∈ groupByTarget Sample.dirname Sample.resolve store -> 0 ∉ ids.
Proof.
  intros fp args store.
  split; [vm_compute; reflexivity|].
  split; [vm_compute; reflexivity|].
  destruct (store !! 0) as [b|] eqn:Hb; [|vm_compute in Hb; discriminate].
  apply (noweb_ref_block_in_no_target Sample.dirname Sample.resolve
           fp "ts" args store 0 b).
  - vm_compute. reflexivity.
  - vm_compute. reflexivity.
  - exact Hb.
  - vm_compute in Hb. inversion Hb. vm_compute. reflexivity.
Defined.

Definition falsyNowebRefDoc : string :=
  Sample.document
    ["#+PROPERTY: header-args :tangle out.ts";
     "#+begin_src ts :noweb-ref no";
     "x";
     "#+end_src"].

(** C1 as stated fails: the block-local arguments of the block below
    contain the key [noweb-ref] (bound to [false]) and no [tangle] key, the
    document-global property supplies [tangle], and the block is placed in
    the target [out.ts]. *)
Lemma falsy_noweb_ref_block_is_tangled :
  let args := snd (parseHeaderArgs "#+begin_src ts :noweb-ref no") in
  args !! "noweb-ref" = Some (VBool false)
  /\ args !! "tangle" = None
  /\ (headerArgs <$> Sample.blocksOf falsyNowebRefDoc !! 0)
     = Some (mergeHeaderArgs (extractFileProperties falsyNowebRefDoc) "ts" args)
  /\ groupByTarget Sample.dirname Sample.resolve (Sample.blocksOf falsyNowebRefDoc)
     = [("/d/out.ts", [0])].
Proof. vm_compute. repeat split; reflexivity. Qed.

Lemma openBlock_args (path : string) (fp : FileProperties)
    (pending : option string) (i : nat) (line : string) :
  language (openBlock path fp pending i line) = fst (parseHeaderArgs (trim line))
  /\ headerArgs (openBlock path fp pending i line)
     = mergeHeaderArgs fp (fst (parseHeaderArgs (trim line)))
                       (snd (parseHeaderArgs (trim line)))
  /\ name (openBlock path fp pending i line) = pending.
Proof.
  unfold openBlock. destruct (parseHeaderArgs (trim line)) as [lang args].
  simpl. repeat split.
Qed.

Lemma openBlock_startLine (path : string) (fp : FileProperties)
    (pending : option string) (i : nat) (line : string) :
  startLine (openBlock path fp pending i line) = i.
Proof.
  unfold openBlock. destruct (parseHeaderArgs (trim line)). reflexivity.
Qed.

(** An own key of the properties object supplies its argument object;
    without one, an object that still has [Object.prototype] as prototype
    supplies nothing. *)
Lemma inherited_own (fp : FileProperties) (key : string) (a : Args) :
  ownProps fp !! key = Some a -> spreadProp (getProp fp key) = a.
Proof. intros H. unfold getProp. rewrite H. reflexivity. Qed.

Lemma inherited_none (fp : FileProperties) (key : string) :
  ownProps fp !! key = None -> protoProps fp = None ->
  spreadProp (getProp fp key) = ∅.
Proof.
  intros H1 H2. unfold getProp. rewrite H1, H2.
  destruct (objectPrototypeMember key); reflexivity.
Qed.

(** C8 (as amended).  The language-scoped properties applied to a block
    are those filed under a tag identical to the fence language, letter
    case included: the block opened at a fence line looks up the language
    token as written.  Block-local arguments override them, they override
    the document-global ones, and a property filed under any other tag,
    a case variant of the language included, leaves the merged arguments
    unchanged.  What a tag supplies is the argument object filed under it
    as an own key of the properties object; an object with the prototype
    it was created with supplies nothing under any other name. *)
Theorem language_properties_need_identical_tag
    (fp : FileProperties) (lang : string) (args : Args) :
  (forall key v, args !! key = Some v ->
                 mergeHeaderArgs fp lang args !! key = Some v)
  /\ (forall key, args !! key = None ->
        (key = "tangle" ->
         truthy (jsOr (args !! "noweb-ref") (args !! "nowebRef")) = false) ->
        mergeHeaderArgs fp lang args !! key
        = (spreadProp (getProp fp lang) ∪ spreadProp (getProp fp "*")) !! key)
  /\ (forall tag props, ownProps fp !! tag = Some props ->
        spreadProp (getProp fp tag) = props)
  /\ (protoProps fp = None ->
      forall tag, spreadProp (getProp fp tag) = default ∅ (ownProps fp !! tag))
  /\ (forall tag props, tag <> lang -> tag <> "*" ->
        mergeHeaderArgs (mkProps (<[tag := props]> (ownProps fp)) (protoProps fp))
                        lang args
        = mergeHeaderArgs fp lang args)
  /\ (forall path pending i line,
        lang = fst (parseHeaderArgs (trim line)) ->
        args = snd (parseHeaderArgs (trim line)) ->
        language (openBlock path fp pending i line) = lang
        /\ headerArgs (openBlock path fp pending i line)
           = mergeHeaderArgs fp lang args).
Proof.
  split; [|split; [|split; [|split; [|split]]]].
  - intros key v H. apply mergeHeaderArgs_local. exact H.
  - intros key Hnone Ht. unfold mergeHeaderArgs.
    destruct (truthy _ && negb _) eqn:E.
    + destruct (decide (key = "tangle")) as [->|Hne].
      * apply andb_prop in E as [E _]. rewrite (Ht eq_refl) in E. discriminate.
      * rewrite lookup_insert_ne by congruence.
        rewrite lookup_union_r by exact Hnone. reflexivity.
    + rewrite lookup_union_r by exact Hnone. reflexivity.
  - intros tag props H. apply inherited_own. exact H.
  - intros Hp tag. destruct (ownProps fp !! tag) as [props|] eqn:E.
    + apply inherited_own. exact E.
    + apply inherited_none; assumption.
  - intros tag props H1 H2. unfold mergeHeaderArgs, getProp. cbn [ownProps protoProps].
    rewrite !lookup_insert_ne by congruence. reflexivity.
  - intros path pending i line -> ->.
    destruct (openBlock_args path fp pending i line) as [H1 [H2 _]].
    split; assumption.
Qed.

Definition caseVariantDoc : string :=
  Sample.document
    ["#+PROPERTY: header-args:TypeScript :tangle out.ts";
     "#+begin_src typescript";
     "const x = 1;";
     "#+end_src"].

Lemma language_properties_need_identical_tag_witness :
  let fp := extractFileProperties caseVariantDoc in
  mergeHeaderArgs fp "TypeScript" {[ "noweb" := VBool true ]} !! "noweb"
  = Some (VBool true)
  /\ mergeHeaderArgs fp "TypeScript" {[ "noweb" := VBool true ]} !! "tangle"
     = Some (VStr "out.ts")
  /\ mergeHeaderArgs (mkProps (<["TypeScript" := {[ "tangle" := VStr "out.ts" ]}]> ∅) None)
                     "typescript" ∅
     = mergeHeaderArgs emptyProps "typescript" ∅.
Proof.
  intros fp.
  pose proof (language_properties_need_identical_tag fp "TypeScript"
                {[ "noweb" := VBool true ]}) as [H1 [H2 _]].
  pose proof (language_properties_need_identical_tag emptyProps "typescript" ∅)
    as [_ [_ [_ [_ [H3 _]]]]].
  split; [apply H1; vm_compute; reflexivity|].
  split.
  - rewrite H2; [vm_compute; reflexivity | vm_compute; reflexivity |].
    intros _. vm_compute. reflexivity.
  - apply (H3 "TypeScript" {[ "tangle" := VStr "out.ts" ]}); discriminate.
Defined.

(** C8 as stated fails: the property tag [TypeScript] and the fence
    language [typescript] are equal under lowercase comparison, yet the
    block inherits nothing and is placed in no target. *)
Lemma case_variant_tag_is_not_inherited :
  toLowerCase "TypeScript" = toLowerCase "typescript"
  /\ ownProps (extractFileProperties caseVariantDoc) !! "TypeScript"
     = Some {[ "tangle" := VStr "out.ts" ]}
  /\ (headerArgs <$> Sample.blocksOf caseVariantDoc !! 0) = Some ∅
  /\ groupByTarget Sample.dirname Sample.resolve (Sample.blocksOf caseVariantDoc) = [].
Proof. vm_compute. repeat split; reflexivity. Qed.

(* ===================================================================== *)
(** * The document scanner: the pending name *)
(* ===================================================================== *)

(** A line that the scanner reads as a [#+name:] directive when it is
    outside a block and outside an example. *)
Definition isNameDirective (line : string) : bool :=
  startsWith line "#+" && startsWith (toLowerCase (trim line)) "#+name:".

(** A line that the scanner reads as the opening fence of a block when it
    is outside a block and outside an example. *)
Definition isBeginSrc (line : string) : bool :=
  startsWith line "#+" && startsWith (toLowerCase (trim line)) "#+begin_src".

(** A line that opens an example when read outside a block. *)
Definition isBeginExample (line : string) : bool :=
  startsWith line "#+" && startsWith (toLowerCase (trim line)) "#+begin_example".

(** A line that closes an example when read outside a block. *)
Definition isEndExample (line : string) : bool :=
  startsWith line "#+" && startsWith (toLowerCase (trim line)) "#+end_example".

(** Lines between a name directive and the block it names: any line
    that is neither a name directive nor an opening fence, and whole
    examples, whose body may hold any line but the one that closes
    it. *)
Inductive Quiet : list string -> Prop :=
| quiet_nil : Quiet []
| quiet_line (l : string) (rest : list string) :
    isNameDirective l = false -> isBeginSrc l = false ->
    isBeginExample l = false ->
    Quiet rest -> Quiet (l :: rest)
| quiet_example (opening : string) (body : list string) (closing : string)
    (rest : list string) :
    isBeginExample opening = true ->
    Forall (fun l => isEndExample l = false) body ->
    isEndExample closing = true ->
    Quiet rest -> Quiet (opening :: body ++ closing :: rest).

(** Two prefixes of one string are comparable. *)
Lemma startsWith_comparable (t p q : string) :
  startsWith t p = true -> startsWith t q = true ->
  startsWith p q = true \/ startsWith q p = true.
Proof.
  revert t q. induction p as [|a p IH]; intros t q Hp Hq.
  - right. destruct q; reflexivity.
  - destruct q as [|b q]; [left; reflexivity|].
    destruct t as [|c t]; [discriminate|].
    simpl in *. apply andb_prop in Hp as [H1 H2]. apply andb_prop in Hq as [H3 H4].
    apply Ascii.eqb_eq in H1. apply Ascii.eqb_eq in H3. subst.
    rewrite Ascii.eqb_refl. simpl. eapply IH; eauto.
Qed.

Lemma startsWith_exclusive (t p q : string) :
  startsWith p q = false -> startsWith q p = false ->
  startsWith t p = true -> startsWith t q = false.
Proof.
  intros H1 H2 Hp. destruct (startsWith t q) eqn:Hq; [|reflexivity].
  destruct (startsWith_comparable t p q Hp Hq); congruence.
Qed.

Section ScannerFacts.

Variable path : string.
Variable fileProperties : FileProperties.

Lemma scanLines_app (l1 l2 : list string) (st : ScanState) (i : nat) :
  scanLines path fileProperties st i (l1 ++ l2)
  = scanLines path fileProperties (scanLines path fileProperties st i l1)
              (i + List.length l1) l2.
Proof.
  revert st i. induction l1 as [|l l1 IH]; intros st i; simpl.
  - f_equal. lia.
  - rewrite IH. f_equal. lia.
Qed.

(** Only a name directive or an opening fence changes the pending name,
    and only outside a block and outside an example. *)
Lemma scanLine_keeps_currentName (st : ScanState) (i : nat) (line : string) :
  inBlock st = true \/ inExampleBlock st = true
  \/ (isNameDirective line = false /\ isBeginSrc line = false) ->
  currentName (scanLine path fileProperties st i line) = currentName st.
Proof.
  unfold isNameDirective, isBeginSrc, scanLine. intros [H|[H|[H1 H2]]].
  - rewrite H. cbn [negb andb]. rewrite !andb_false_r. cbn [andb].
    destruct (inExampleBlock st); [reflexivity|].
    destruct (startsWith line "#+" && startsWith (toLowerCase (trim line)) "#+end_src");
      destruct (currentBlock st); reflexivity.
  - rewrite H.
    repeat match goal with
           | |- context [if ?c then _ else _] => destruct c
           end; reflexivity.
  - rewrite H1, H2. simpl.
    repeat match goal with
           | |- context [if ?c then _ else _] => destruct c
           | |- context [match currentBlock st with _ => _ end] =>
               destruct (currentBlock st)
           end; reflexivity.
Qed.

(** Outside a block and outside an example, a name directive sets the
    pending name and nothing else. *)
Lemma scanLine_name (st : ScanState) (i : nat) (line : string) :
  inBlock st = false -> inExampleBlock st = false ->
  isNameDirective line = true ->
  scanLine path fileProperties st i line
  = mkScan (blocks st) (Some (directiveName line)) false (currentBlock st) false.
Proof.
  unfold isNameDirective, scanLine. intros Hb He H.
  apply andb_prop in H as [H0 Hn]. rewrite Hb, He, H0, Hn. simpl.
  rewrite (startsWith_exclusive _ "#+name:" "#+begin_example") by (reflexivity || exact Hn).
  rewrite (startsWith_exclusive _ "#+name:" "#+end_example") by (reflexivity || exact Hn).
  reflexivity.
Qed.

(** Outside a block and outside an example, a line that does not start
    with the directive sigil leaves the scanner state as it is. *)
Lemma scanLine_prose (st : ScanState) (i : nat) (line : string) :
  inBlock st = false -> inExampleBlock st = false ->
  startsWith line "#+" = false ->
  scanLine path fileProperties st i line = st.
Proof.
  unfold scanLine. intros Hb He H. rewrite Hb, He, H. simpl.
  destruct (currentBlock st); reflexivity.
Qed.

Lemma scanLines_prose (prose : list string) (st : ScanState) (i : nat) :
  inBlock st = false -> inExampleBlock st = false ->
  Forall (fun l => startsWith l "#+" = false) prose ->
  scanLines path fileProperties st i prose = st.
Proof.
  intros Hb He H. revert i. induction H as [|l prose Hl _ IH]; intros i; simpl.
  - reflexivity.
  - rewrite scanLine_prose by assumption. apply IH.
Qed.

(** Outside a block and outside an example, an opening fence allocates
    a block that takes the pending name, and clears the pending name. *)
Lemma scanLine_beginSrc (st : ScanState) (i : nat) (line : string) :
  inBlock st = false -> inExampleBlock st = false ->
  isBeginSrc line = true ->
  scanLine path fileProperties st i line
  = mkScan (blocks st) None true
           (Some (openBlock path fileProperties (currentName st) i line)) false.
Proof.
  unfold isBeginSrc, scanLine. intros Hb He H.
  apply andb_prop in H as [H0 Hn]. rewrite Hb, He, H0, Hn. simpl.
  rewrite (startsWith_exclusive _ "#+begin_src" "#+begin_example") by (reflexivity || exact Hn).
  rewrite (startsWith_exclusive _ "#+begin_src" "#+end_example") by (reflexivity || exact Hn).
  rewrite (startsWith_exclusive _ "#+begin_src" "#+name:") by (reflexivity || exact Hn).
  reflexivity.
Qed.

(** Outside a block and outside an example, a line that is neither a
    name directive, nor an opening fence, nor the opening of an example
    leaves the scanner state as it is. *)
Lemma scanLine_quiet (st : ScanState) (i : nat) (line : string) :
  inBlock st = false -> inExampleBlock st = false ->
  isNameDirective line = false -> isBeginSrc line = false ->
  isBeginExample line = false ->
  scanLine path fileProperties st i line = st.
Proof.
  unfold isNameDirective, isBeginSrc, isBeginExample, scanLine.
  intros Hb He H1 H2 H3. rewrite Hb, He. cbn [negb andb].
  rewrite H1, H2, H3. cbn [andb]. rewrite !andb_false_r.
  destruct st as [bs cn ib cb ie]. cbn in *. subst ib ie.
  destruct (startsWith line "#+" && startsWith (toLowerCase (trim line)) "#+end_example");
    destruct cb; reflexivity.
Qed.

(** Outside a block, the opening line of an example sets the example
    flag and nothing else. *)
Lemma scanLine_beginExample (st : ScanState) (i : nat) (line : string) :
  inBlock st = false -> isBeginExample line = true ->
  scanLine path fileProperties st i line
  = mkScan (blocks st) (currentName st) false (currentBlock st) true.
Proof.
  unfold isBeginExample, scanLine. intros Hb H. rewrite Hb. cbn [negb andb].
  rewrite H. reflexivity.
Qed.

(** Inside an example and outside a block, every line but the closing
    one leaves the state as it is, fences and name directives included. *)
Lemma scanLine_in_example (st : ScanState) (i : nat) (line : string) :
  inBlock st = false -> inExampleBlock st = true ->
  isEndExample line = false ->
  scanLine path fileProperties st i line = st.
Proof.
  unfold isEndExample, scanLine. intros Hb He H. rewrite Hb, He. cbn [negb andb].
  rewrite H.
  destruct st as [bs cn ib cb ie]. cbn in *. subst ib ie.
  destruct (startsWith line "#+" && startsWith (toLowerCase (trim line)) "#+begin_example");
    reflexivity.
Qed.

Lemma scanLines_in_example (body : list string) (st : ScanState) (i : nat) :
  inBlock st = false -> inExampleBlock st = true ->
  Forall (fun l => isEndExample l = false) body ->
  scanLines path fileProperties st i body = st.
Proof.
  intros Hb He H. revert i. induction H as [|l body Hl _ IH]; intros i; simpl.
  - reflexivity.
  - rewrite scanLine_in_example by assumption. apply IH.
Qed.

(** Outside a block, the closing line of an example clears the example
    flag and nothing else. *)
Lemma scanLine_endExample (st : ScanState) (i : nat) (line : string) :
  inBlock st = false -> isEndExample line = true ->
  scanLine path fileProperties st i line
  = mkScan (blocks st) (currentName st) false (currentBlock st) false.
Proof.
  unfold isEndExample, scanLine. intros Hb H. rewrite Hb. cbn [negb andb].
  rewrite H.
  apply andb_prop in H as [H0 Hn]. rewrite H0. cbn [andb].
  rewrite (startsWith_exclusive _ "#+end_example" "#+begin_example")
    by (reflexivity || exact Hn).
  reflexivity.
Qed.

(** Quiet lines, read outside a block and outside an example, leave the
    scanner state as it is. *)
Lemma scanLines_quiet (mid : list string) :
  Quiet mid ->
  forall st i, inBlock st = false -> inExampleBlock st = false ->
               scanLines path fileProperties st i mid = st.
Proof.
  induction 1 as [|l rest H1 H2 H3 _ IH|opening body closing rest Ho Hbody Hc _ IH];
    intros st i Hb He.
  - reflexivity.
  - cbn [scanLines]. rewrite scanLine_quiet by assumption. apply IH; assumption.
  - cbn [scanLines]. rewrite scanLine_beginExample by assumption.
    rewrite scanLines_app.
    rewrite (scanLines_in_example body) by (reflexivity || exact Hbody).
    cbn [scanLines]. rewrite scanLine_endExample by (reflexivity || exact Hc).
    cbn [blocks currentName currentBlock].
    assert (E : mkScan (blocks st) (currentName st) false (currentBlock st) false = st).
    { destruct st as [bs cn ib cb ie]. cbn in *. subst ib ie. reflexivity. }
    rewrite E. apply IH; assumption.
Qed.

(** C10.  The pending name is changed by two events only, both outside
    a block and outside an example: a name directive overwrites it, and
    an opening fence hands it to the block it allocates and resets it to
    null.  Every other line leaves it as it is, in every state of the
    scanner: prose and blank lines, other directives, and inside a block
    or an example also the lines that look like a name directive or a
    fence.  So after a name directive any run of such lines and of whole
    examples leaves the name pending, and the next opening fence
    allocates the block that carries it. *)
Theorem pending_name_survives_until_next_block :
  (forall st i line,
      inBlock st = true \/ inExampleBlock st = true
      \/ (isNameDirective line = false /\ isBeginSrc line = false) ->
      currentName (scanLine path fileProperties st i line) = currentName st)
  /\ (forall st i line,
        inBlock st = false -> inExampleBlock st = false ->
        isNameDirective line = true ->
        scanLine path fileProperties st i line
        = mkScan (blocks st) (Some (directiveName line)) false (currentBlock st) false)
  /\ (forall st i line,
        inBlock st = false -> inExampleBlock st = false ->
        isBeginSrc line = true ->
        scanLine path fileProperties st i line
        = mkScan (blocks st) None true
                 (Some (openBlock path fileProperties (currentName st) i line)) false
        /\ name (openBlock path fileProperties (currentName st) i line)
           = currentName st)
  /\ (forall st i mid,
        inBlock st = false -> inExampleBlock st = false -> Quiet mid ->
        scanLines path fileProperties st i mid = st)
  /\ (forall st i nameLine mid srcLine,
        inBlock st = false -> inExampleBlock st = false ->
        isNameDirective nameLine = true ->
        Quiet mid ->
        isBeginSrc srcLine = true ->
        let st1 := scanLines path fileProperties st i (nameLine :: mid) in
        let st2 := scanLines path fileProperties st i
                             (nameLine :: mid ++ [srcLine]) in
        currentName st1 = Some (directiveName nameLine)
        /\ currentName st2 = None
        /\ inBlock st2 = true
        /\ exists b, currentBlock st2 = Some b
                     /\ name b = Some (directiveName nameLine)
                     /\ startLine b = i + 1 + List.length mid).
Proof.
  split; [apply scanLine_keeps_currentName|].
  split; [apply scanLine_name|].
  split.
  { intros st i line Hb He H. split; [apply scanLine_beginSrc; assumption|].
    apply openBlock_args. }
  split.
  { intros st i mid Hb He Hq. apply scanLines_quiet; assumption. }
  intros st i nameLine mid srcLine Hb He Hn Hq Hs st1 st2.
  assert (E1 : st1 = mkScan (blocks st) (Some (directiveName nameLine)) false
                            (currentBlock st) false).
  { subst st1. simpl. rewrite scanLine_name by assumption.
    apply scanLines_quiet; [exact Hq | reflexivity | reflexivity]. }
  assert (E2 : st2 = scanLine path fileProperties st1
                              (i + 1 + List.length mid) srcLine).
  { subst st1 st2. change (nameLine :: mid ++ [srcLine])
      with ((nameLine :: mid) ++ [srcLine]).
    rewrite scanLines_app. simpl. f_equal. lia. }
  rewrite E2, E1. rewrite scanLine_beginSrc by (reflexivity || assumption).
  simpl. repeat split.
  eexists. split; [reflexivity|].
  split; [apply openBlock_args | apply openBlock_startLine].
Qed.

End ScannerFacts.

Definition namedBlockDoc : string :=
  Sample.document
    ["#+NAME: setup";
     "";
     "Some prose about the block.";
     "  #+name: not-a-directive";
     "#+begin_src sh :tangle run.sh";
     "echo ok";
     "#+end_src";
     "#+begin_src sh :tangle run.sh";
     "echo two";
     "#+end_src"].

Definition namedAcrossExampleDoc : string :=
  Sample.document
    ["#+NAME: setup";
     "";
     "Some prose about the block.";
     "  #+name: not-a-directive";
     "#+begin_example";
     "#+name: shown";
     "#+begin_src sh";
     "#+end_src";
     "#+end_example";
     "#+title: a directive of no concern";
     "#+begin_src sh :tangle run.sh";
     "echo ok";
     "#+name: content";
     "#+end_src";
     "#+begin_src sh :tangle run.sh";
     "echo two";
     "#+end_src"].

Lemma pending_name_survives_until_next_block_witness :
  (let st2 := scanLines "/d/a.org" emptyProps initialScan 0
                ("#+NAME: setup"
                   :: [""; "Some prose about the block."; "  #+name: not-a-directive";
                       "#+begin_example"; "#+name: shown"; "#+begin_src sh";
                       "#+end_src"; "#+end_example";
                       "#+title: a directive of no concern"]
                   ++ ["#+begin_src sh :tangle run.sh"]) in
   currentName st2 = None
   /\ exists b, currentBlock st2 = Some b /\ name b = Some "setup")
  /\ List.map name (Sample.blocksOf namedBlockDoc) = [Some "setup"; None]
  /\ List.map name (Sample.blocksOf namedAcrossExampleDoc) = [Some "setup"; None]
  /\ List.map content (Sample.blocksOf namedAcrossExampleDoc)
     = [Sample.document ["echo ok"; "#+name: content"]; "echo two"].
Proof.
  split; [|split; [|split]; vm_compute; reflexivity].
  destruct (proj2 (proj2 (proj2 (proj2
              (pending_name_survives_until_next_block "/d/a.org" emptyProps))))
              initialScan 0 "#+NAME: setup"
              [""; "Some prose about the block."; "  #+name: not-a-directive";
               "#+begin_example"; "#+name: shown"; "#+begin_src sh";
               "#+end_src"; "#+end_example";
               "#+title: a directive of no concern"]
              "#+begin_src sh :tangle run.sh")
    as [_ [H2 [_ [b [H4 [H5 _]]]]]].
  - reflexivity.
  - reflexivity.
  - vm_compute. reflexivity.
  - do 3 (apply quiet_line; [reflexivity | reflexivity | reflexivity |]).
    apply (quiet_example "#+begin_example"
             ["#+name: shown"; "#+begin_src sh"; "#+end_src"] "#+end_example"
             ["#+title: a directive of no concern"]).
    + reflexivity.
    + repeat constructor.
    + reflexivity.
    + apply quiet_line; [reflexivity | reflexivity | reflexivity | apply quiet_nil].
  - vm_compute. reflexivity.
  - split; [exact H2|]. exists b. split; [exact H4|].
    rewrite H5. vm_compute. reflexivity.
Defined.

(* ===================================================================== *)
(** * Lines: [split] and [join] *)
(* ===================================================================== *)

(** The string contains a line feed. *)
Definition hasLF (s : string) : bool := existsb (fun c => Ascii.eqb c LF) s.

Lemma hasLF_append (a b : string) : hasLF (a +:+ b) = hasLF a || hasLF b.
Proof.
  unfold hasLF. induction a as [|c a IH]; simpl.
  - reflexivity.
  - rewrite IH. apply orb_assoc.
Qed.

Lemma hasLF_append_false (a b : string) :
  hasLF (a +:+ b) = false <-> hasLF a = false /\ hasLF b = false.
Proof. rewrite hasLF_append. apply orb_false_iff. Qed.

Lemma split_nonempty (s : string) : split LF s <> [].
Proof.
  destruct s as [|c s]; simpl; [discriminate|].
  destruct (Ascii.eqb c LF); [discriminate|].
  destruct (split LF s); discriminate.
Qed.

Lemma split_noLF (s : string) : Forall (fun l => hasLF l = false) (split LF s).
Proof.
  induction s as [|c s IH]; simpl.
  - repeat constructor.
  - destruct (Ascii.eqb c LF) eqn:E.
    + constructor; [reflexivity | exact IH].
    + destruct (split LF s) as [|x xs].
      * constructor; [|constructor]. unfold hasLF. simpl. rewrite E. reflexivity.
      * inversion IH; subst. constructor; [|assumption].
        unfold hasLF in *. simpl. rewrite E. assumption.
Qed.

Lemma split_single (s : string) : hasLF s = false -> split LF s = [s].
Proof.
  unfold hasLF. induction s as [|c s IH]; simpl; intros H.
  - reflexivity.
  - apply orb_false_iff in H as [H1 H2]. rewrite H1, (IH H2). reflexivity.
Qed.

Lemma split_append_nl (a b : string) :
  hasLF a = false -> split LF (a +:+ String LF b) = a :: split LF b.
Proof.
  unfold hasLF. induction a as [|c a IH]; simpl; intros H.
  - reflexivity.
  - apply orb_false_iff in H as [H1 H2]. rewrite H1, (IH H2). reflexivity.
Qed.

Lemma split_join (ls : list string) :
  ls <> [] -> Forall (fun l => hasLF l = false) ls -> split LF (join nl ls) = ls.
Proof.
  induction ls as [|x ls IH]; intros Hne H; [contradiction|].
  inversion H as [|? ? Hx Hls]; subst.
  destruct ls as [|y ls].
  - simpl. apply split_single. exact Hx.
  - change (join nl (x :: y :: ls)) with (x +:+ String LF (join nl (y :: ls))).
    rewrite split_append_nl by exact Hx. f_equal.
    apply IH; [discriminate | exact Hls].
Qed.

Lemma join_cons_char (c : ascii) (x : string) (xs : list string) :
  join nl (String c x :: xs) = String c (join nl (x :: xs)).
Proof. destruct xs; reflexivity. Qed.

(** Splitting at line feeds and joining with line feeds gives the text
    back. *)
Lemma join_split (s : string) : join nl (split LF s) = s.
Proof.
  induction s as [|c s IH]; [reflexivity|].
  cbn [split]. destruct (Ascii.eqb_spec c LF) as [->|Hc].
  - pose proof (split_nonempty s) as Hne.
    destruct (split LF s) as [|x xs] eqn:E; [contradiction|].
    change (join nl ("" :: x :: xs)) with (String LF (join nl (x :: xs))).
    rewrite IH. reflexivity.
  - pose proof (split_nonempty s) as Hne.
    destruct (split LF s) as [|x xs] eqn:E; [contradiction|].
    rewrite join_cons_char, IH. reflexivity.
Qed.

Lemma startsWith_append_l (a b p : string) :
  startsWith a p = true -> startsWith (a +:+ b) p = true.
Proof.
  intros H. apply startsWith_split in H. rewrite H, append_assoc.
  apply startsWith_append.
Qed.

Lemma startsWith_nil (s : string) : startsWith s "" = true.
Proof. destruct s; reflexivity. Qed.

(** What a match of the reference pattern says about the line. *)
Lemma matchNoweb_spec (line lead ref trailing : string) :
  matchNoweb line = Some (lead, ref, trailing) ->
  line = lead +:+ "<<" +:+ ref +:+ ">>" +:+ trailing /\ ref <> "".
Proof.
  unfold matchNoweb. intros H.
  destruct (span isSpace line) as [l r1] eqn:E1.
  destruct (startsWith r1 "<<") eqn:E2; [|discriminate].
  destruct (span _ (drop 2 r1)) as [n r2] eqn:E3.
  destruct (isEmpty n) eqn:E4; [discriminate|].
  destruct (startsWith r2 ">>") eqn:E5; [|discriminate].
  destruct (existsb isLineTerminator (drop 2 r2)); [discriminate|].
  inversion H; subst. split; [|apply isEmpty_false; exact E4].
  apply span_append in E1. apply span_append in E3.
  apply startsWith_split in E2. apply startsWith_split in E5.
  change (String.length "<<") with 2 in E2.
  change (String.length ">>") with 2 in E5.
  rewrite E3 in E2. rewrite E5 in E2.
  rewrite E1, E2. reflexivity.
Qed.

Lemma matchNoweb_noLF (line lead ref trailing : string) :
  matchNoweb line = Some (lead, ref, trailing) -> hasLF line = false ->
  hasLF lead = false /\ hasLF ref = false /\ hasLF trailing = false.
Proof.
  intros H Hl. apply matchNoweb_spec in H as [-> _].
  apply hasLF_append_false in Hl as [H1 Hl].
  apply hasLF_append_false in Hl as [_ Hl].
  apply hasLF_append_false in Hl as [H2 Hl].
  apply hasLF_append_false in Hl as [_ H3].
  auto.
Qed.

(* ===================================================================== *)
(** * The expander: indentation *)
(* ===================================================================== *)

(** An output line that is empty or begins with [indent]. *)
Definition Indented (indent l : string) : Prop :=
  l = "" \/ startsWith l indent = true.

(** A non-empty array of lines whose last line begins with [indent]. *)
Definition EndsIndented (indent : string) (ls : list string) : Prop :=
  exists front x, ls = front ++ [x] /\ startsWith x indent = true.

Definition NoLF (ls : list string) : Prop := Forall (fun l => hasLF l = false) ls.

(** The leading white space of a reference line, [""] for any other line. *)
Definition leadOf (line : string) : string :=
  match matchNoweb line with
  | Some (leadingIndent, _, _) => leadingIndent
  | None => ""
  end.

Lemma Indented_weaken (ti ind l : string) :
  startsWith ti ind = true -> Indented ti l -> Indented ind l.
Proof.
  intros H [->|Hl]; [left; reflexivity|].
  right. eapply startsWith_trans; eassumption.
Qed.

Lemma Forall_Indented_weaken (ti ind : string) (ls : list string) :
  startsWith ti ind = true -> Forall (Indented ti) ls -> Forall (Indented ind) ls.
Proof.
  intros H HF. eapply Forall_impl; [exact HF|].
  intros l. apply Indented_weaken. exact H.
Qed.

Lemma EndsIndented_weaken (ti ind : string) (ls : list string) :
  startsWith ti ind = true -> EndsIndented ti ls -> EndsIndented ind ls.
Proof.
  intros H (front & x & -> & Hx). exists front, x. split; [reflexivity|].
  eapply startsWith_trans; eassumption.
Qed.

Lemma appendToLast_snoc (l : list string) (x t : string) :
  appendToLast (l ++ [x]) t = l ++ [x +:+ t].
Proof.
  induction l as [|a l IH]; simpl; [reflexivity|].
  destruct (l ++ [x]) as [|b r] eqn:E.
  - destruct l; discriminate.
  - rewrite <- IH. reflexivity.
Qed.

Lemma startsWith_indented_append (ind rest : string) (tail : string) :
  startsWith ((ind +:+ rest) +:+ tail) ind = true.
Proof. rewrite append_assoc. apply startsWith_append. Qed.

Lemma Forall_single {A} (P : A -> Prop) (x : A) : P x -> Forall P [x].
Proof. intros H. constructor; [exact H | constructor]. Qed.

Section IndentFacts.

Variable store : Store.
Variable blockIndex : BlockIndex.

Section BodyFacts.

Variable self : string -> gset string -> string -> option (string * gset string).

Hypothesis self_good :
  forall text v ind r v',
    hasLF ind = false -> self text v ind = Some (r, v') ->
    Forall (Indented ind) (split LF r) /\ EndsIndented ind (split LF r).

Lemma expandBlocks_good (ids : list nat) (ti : string) :
  hasLF ti = false ->
  forall res v res' v',
    expandBlocks store self ids ti (res, v) = Some (res', v') ->
    exists new, res' = res ++ new
                /\ Forall (Indented ti) new /\ NoLF new
                /\ (ids <> [] -> EndsIndented ti new).
Proof.
  intros Hti. induction ids as [|id rest IH]; intros res v res' v' H; simpl in H.
  - inversion H; subst. exists []. rewrite app_nil_r.
    repeat split; try constructor. intros F. contradiction.
  - destruct (store !! id) as [block|]; [|discriminate].
    destruct (self (content block) v ti) as [[expanded v1]|] eqn:E; [|discriminate].
    destruct (self_good _ _ _ _ _ Hti E) as [G1 G2].
    pose proof (split_noLF expanded) as G3.
    destruct rest as [|id' rest'].
    + simpl in H. inversion H; subst.
      exists (split LF expanded). split; [reflexivity|].
      split; [exact G1|]. split; [exact G3|]. intros _. exact G2.
    + apply IH in H. destruct H as (new & -> & N1 & N2 & N3).
      exists (split LF expanded ++ [""] ++ new).
      rewrite <- !app_assoc.
      split; [reflexivity|].
      split; [apply Forall_app; split; [exact G1|];
              apply Forall_app; split; [apply Forall_single; left; reflexivity | exact N1]|].
      split; [apply Forall_app; split; [exact G3|];
              apply Forall_app; split; [apply Forall_single; reflexivity | exact N2]|].
      intros _. destruct (N3 ltac:(discriminate)) as (front & x & -> & Hx).
      exists (split LF expanded ++ [""] ++ front), x.
      split; [rewrite <- !app_assoc; reflexivity | exact Hx].
Qed.

Lemma expandLine_good (ind : string) (res : list string) (v : gset string)
    (line : string) (res' : list string) (v' : gset string) :
  hasLF ind = false -> hasLF line = false ->
  expandLine store blockIndex self ind (res, v) line = Some (res', v') ->
  exists new, res' = res ++ new
              /\ Forall (Indented (ind +:+ leadOf line)) new /\ NoLF new
              /\ EndsIndented (ind +:+ leadOf line) new.
Proof.
  intros Hind Hline H. unfold expandLine in H. unfold leadOf.
  destruct (matchNoweb line) as [[[lead ref] trailing]|] eqn:M.
  - destruct (matchNoweb_noLF _ _ _ _ M Hline) as (L1 & L2 & L3).
    assert (Hti : hasLF (ind +:+ lead) = false).
    { apply hasLF_append_false. auto. }
    assert (one : forall mid, hasLF mid = false ->
              exists new, res ++ [(ind +:+ lead) +:+ mid +:+ trailing] = res ++ new
                /\ Forall (Indented (ind +:+ lead)) new /\ NoLF new
                /\ EndsIndented (ind +:+ lead) new).
    { intros mid Hmid. eexists. split; [reflexivity|].
      assert (S1 : startsWith ((ind +:+ lead) +:+ mid +:+ trailing) (ind +:+ lead) = true)
        by apply startsWith_append.
      split; [apply Forall_single; right; exact S1|].
      split; [apply Forall_single; rewrite !hasLF_append, Hind, L1, Hmid, L3; reflexivity|].
      exists [], ((ind +:+ lead) +:+ mid +:+ trailing). split; [reflexivity | exact S1]. }
    destruct (bool_decide (ref ∈ v)).
    + apply (inj Some) in H. apply pair_equal_spec in H as [<- <-]. apply one.
      unfold circularMarker. rewrite !hasLF_append, L2. reflexivity.
    + destruct (blockIndex !! VStr ref) as [[|id ids]|] eqn:Hidx.
      * apply (inj Some) in H. apply pair_equal_spec in H as [<- <-].
        destruct (one ("<<" +:+ ref +:+ ">>")) as (new & E & G).
        { rewrite !hasLF_append, L2. reflexivity. }
        exists new. split; [|exact G]. rewrite <- E.
        rewrite !append_assoc. reflexivity.
      * destruct (expandBlocks store self (id :: ids) (ind +:+ lead)
                               (res, {[ref]} ∪ v)) as [[r1 v1]|] eqn:B; [|discriminate].
        apply (inj Some) in H. apply pair_equal_spec in H as [<- <-].
        apply expandBlocks_good in B; [|exact Hti].
        destruct B as (new & -> & N1 & N2 & N3).
        destruct (N3 ltac:(discriminate)) as (front & x & -> & Hx).
        destruct (isEmpty trailing) eqn:T.
        -- exists (front ++ [x]). repeat split; try assumption.
           exists front, x. split; [reflexivity | exact Hx].
        -- exists (front ++ [x +:+ trailing]).
           rewrite app_assoc, appendToLast_snoc, <- app_assoc.
           split; [reflexivity|].
           apply Forall_app in N1 as [N1 _]. apply Forall_app in N2 as [N2 N2'].
           inversion N2' as [|? ? Hxl _]; subst.
           split; [apply Forall_app; split; [exact N1|];
                   apply Forall_single; right; apply startsWith_append_l; exact Hx|].
           split; [apply Forall_app; split; [exact N2|];
                   apply Forall_single; rewrite hasLF_append, Hxl, L3; reflexivity|].
           exists front, (x +:+ trailing).
           split; [reflexivity | apply startsWith_append_l; exact Hx].
      * apply (inj Some) in H. apply pair_equal_spec in H as [<- <-].
        destruct (one ("<<" +:+ ref +:+ ">>")) as (new & E & G).
        { rewrite !hasLF_append, L2. reflexivity. }
        exists new. split; [|exact G]. rewrite <- E.
        rewrite !append_assoc. reflexivity.
  - apply (inj Some) in H. apply pair_equal_spec in H as [<- <-]. rewrite append_nil_r.
    exists [ind +:+ line]. split; [reflexivity|].
    split; [apply Forall_single; right; apply startsWith_append|].
    split; [apply Forall_single; rewrite hasLF_append, Hind, Hline; reflexivity|].
    exists [], (ind +:+ line). split; [reflexivity | apply startsWith_append].
Qed.

Lemma expandLines_good (ind : string) (lines : list string) :
  hasLF ind = false -> NoLF lines ->
  forall res v res' v',
    expandLines store blockIndex self ind lines (res, v) = Some (res', v') ->
    exists new, res' = res ++ new
                /\ Forall (Indented ind) new /\ NoLF new
                /\ (lines <> [] -> EndsIndented ind new).
Proof.
  intros Hind Hl. induction Hl as [|line lines Hline _ IH];
    intros res v res' v' H.
  - inversion H; subst. exists []. rewrite app_nil_r.
    repeat split; try constructor. intros F. contradiction.
  - change (match expandLine store blockIndex self ind (res, v) line with
            | Some st' => expandLines store blockIndex self ind lines st'
            | None => None
            end = Some (res', v')) in H.
    destruct (expandLine store blockIndex self ind (res, v) line)
      as [[r1 v1]|] eqn:E; [|discriminate].
    apply expandLine_good in E; [|assumption|assumption].
    destruct E as (n1 & -> & A1 & A2 & A3).
    assert (W : startsWith (ind +:+ leadOf line) ind = true)
      by apply startsWith_append.
    destruct lines as [|l2 lines].
    + simpl in H. inversion H; subst. exists n1.
      split; [reflexivity|].
      split; [eapply Forall_Indented_weaken; eassumption|].
      split; [assumption|]. intros _.
      eapply EndsIndented_weaken; eassumption.
    + apply IH in H. destruct H as (n2 & -> & B1 & B2 & B3).
      exists (n1 ++ n2). rewrite app_assoc. split; [reflexivity|].
      split; [apply Forall_app; split;
              [eapply Forall_Indented_weaken; eassumption | exact B1]|].
      split; [apply Forall_app; split; assumption|].
      intros _. destruct (B3 ltac:(discriminate)) as (front & x & -> & Hx).
      exists (n1 ++ front), x. split; [rewrite app_assoc; reflexivity | exact Hx].
Qed.

End BodyFacts.

(** The lines of an expansion are free of line feeds inside, each is
    empty or begins with the indent of the call, and the last one begins
    with it. *)
Lemma expandNoweb_good (fuel : nat) :
  forall text v ind r v',
    hasLF ind = false ->
    expandNoweb store blockIndex fuel text v ind = Some (r, v') ->
    Forall (Indented ind) (split LF r) /\ EndsIndented ind (split LF r).
Proof.
  induction fuel as [|f IH]; intros text v ind r v' Hind H; simpl in H.
  - discriminate.
  - destruct (expandLines store blockIndex (expandNoweb store blockIndex f) ind
                          (split LF text) ([], v)) as [[res v1]|] eqn:E; [|discriminate].
    inversion H; subst.
    apply (expandLines_good _ IH) in E; [|exact Hind|apply split_noLF].
    destruct E as (new & -> & N1 & N2 & N3). simpl.
    specialize (N3 (split_nonempty text)).
    rewrite split_join; [split; assumption| |exact N2].
    destruct N3 as (front & x & -> & _). destruct front; discriminate.
Qed.

End IndentFacts.

(* ===================================================================== *)
(** * The expander: termination and the visited set *)
(* ===================================================================== *)

(** Every position held by the index is a position of the store. *)
Definition IndexInStore (store : Store) (blockIndex : BlockIndex) : Prop :=
  forall k ids id, blockIndex !! k = Some ids -> id ∈ ids -> is_Some (store !! id).

(** The number of index keys that are not on the expansion stack. *)
Definition pendingNames (blockIndex : BlockIndex) (v : gset string) : nat :=
  size (dom blockIndex ∖ set_map (D:=gset Value) VStr v).

Lemma pendingNames_empty (blockIndex : BlockIndex) :
  pendingNames blockIndex ∅ = size blockIndex.
Proof.
  unfold pendingNames. rewrite set_map_empty, difference_empty_L.
  apply size_dom.
Qed.

Lemma pendingNames_push (blockIndex : BlockIndex) (v : gset string) (ref : string) :
  ref ∉ v -> is_Some (blockIndex !! VStr ref) ->
  pendingNames blockIndex ({[ref]} ∪ v) < pendingNames blockIndex v.
Proof.
  intros Hv Hk. unfold pendingNames. apply subset_size.
  assert (H1 : VStr ref ∈ dom blockIndex) by (apply elem_of_dom; exact Hk).
  assert (H2 : VStr ref ∉ set_map (D:=gset Value) VStr v).
  { rewrite elem_of_map. intros [x [E Hx]]. inversion E; subst. contradiction. }
  assert (H3 : VStr ref ∈ set_map (D:=gset Value) VStr ({[ref]} ∪ v)).
  { rewrite elem_of_map. exists ref. split; [reflexivity|].
    apply elem_of_union. left. apply elem_of_singleton. reflexivity. }
  split.
  - intros x Hx. apply elem_of_difference in Hx as [Hx1 Hx2].
    apply elem_of_difference. split; [exact Hx1|].
    intros Hx3. apply Hx2. rewrite elem_of_map in Hx3. rewrite elem_of_map.
    destruct Hx3 as [y [-> Hy]]. exists y. split; [reflexivity|].
    apply elem_of_union. right. exact Hy.
  - intros Hsub. specialize (Hsub (VStr ref)).
    assert (Hin : VStr ref ∈ dom blockIndex ∖ set_map (D:=gset Value) VStr v)
      by (apply elem_of_difference; split; assumption).
    apply Hsub in Hin. apply elem_of_difference in Hin as [_ Hin]. contradiction.
Qed.

Lemma visited_pop (v : gset string) (ref : string) :
  ref ∉ v -> ({[ref]} ∪ v) ∖ {[ref]} = v.
Proof.
  intros H. apply set_eq. intros x.
  rewrite elem_of_difference, elem_of_union, elem_of_singleton.
  split.
  - intros [[->|Hx] Hne]; [contradiction | exact Hx].
  - intros Hx. split; [right; exact Hx|]. intros ->. contradiction.
Qed.

Section TerminationFacts.

Variable store : Store.
Variable blockIndex : BlockIndex.
Hypothesis index_in_store : IndexInStore store blockIndex.

Section BodyFacts.

Variable self : string -> gset string -> string -> option (string * gset string).
Variable f : nat.

Hypothesis self_total :
  forall text v ind,
    pendingNames blockIndex v < f -> exists r, self text v ind = Some (r, v).

Lemma expandBlocks_total (ids : list nat) (ti : string) (v : gset string) :
  (forall id, id ∈ ids -> is_Some (store !! id)) ->
  pendingNames blockIndex v < f ->
  forall res, exists res', expandBlocks store self ids ti (res, v) = Some (res', v).
Proof.
  intros Hids Hv. induction ids as [|id rest IH]; intros res.
  - exists res. reflexivity.
  - destruct (Hids id) as [block Hb]; [apply list_elem_of_here|].
    destruct (self_total (content block) v ti Hv) as [r Hr].
    simpl. rewrite Hb. simpl. rewrite Hr.
    apply IH. intros id' Hin. apply Hids. apply list_elem_of_further. exact Hin.
Qed.

Lemma expandLine_total (ind : string) (res : list string) (v : gset string)
    (line : string) :
  pendingNames blockIndex v < S f ->
  exists res', expandLine store blockIndex self ind (res, v) line = Some (res', v).
Proof.
  intros Hv. unfold expandLine.
  destruct (matchNoweb line) as [[[lead ref] trailing]|]; [|eauto].
  destruct (bool_decide (ref ∈ v)) eqn:Hin; [eauto|].
  apply bool_decide_eq_false in Hin.
  destruct (blockIndex !! VStr ref) as [[|id ids]|] eqn:Hidx; [eauto| |eauto].
  destruct (expandBlocks_total (id :: ids) (ind +:+ lead) ({[ref]} ∪ v)) with (res := res)
    as [res' Hres].
  - intros id' Hid. eapply index_in_store; eauto.
  - pose proof (pendingNames_push blockIndex v ref Hin ltac:(rewrite Hidx; eauto)).
    lia.
  - rewrite Hres. rewrite visited_pop by exact Hin. eauto.
Qed.

Lemma expandLines_total (ind : string) (lines : list string) (v : gset string) :
  pendingNames blockIndex v < S f ->
  forall res, exists res',
    expandLines store blockIndex self ind lines (res, v) = Some (res', v).
Proof.
  intros Hv. induction lines as [|line lines IH]; intros res.
  - exists res. reflexivity.
  - destruct (expandLine_total ind res v line Hv) as [r1 H1].
    destruct (IH r1) as [r2 H2]. exists r2.
    change (match expandLine store blockIndex self ind (res, v) line with
            | Some st' => expandLines store blockIndex self ind lines st'
            | None => None
            end = Some (r2, v)).
    rewrite H1. exact H2.
Qed.

End BodyFacts.

(** With more fuel than index keys off the stack, the expansion returns,
    and it leaves the visited set as it found it. *)
Lemma expandNoweb_total (fuel : nat) :
  forall text v ind,
    pendingNames blockIndex v < fuel ->
    exists r, expandNoweb store blockIndex fuel text v ind = Some (r, v).
Proof.
  induction fuel as [|f IH]; intros text v ind Hv; [lia|].
  destruct (expandLines_total (expandNoweb store blockIndex f) f IH ind
              (split LF text) v Hv []) as [res Hres].
  exists (join nl res). simpl. rewrite Hres. reflexivity.
Qed.

End TerminationFacts.

Section VisitedFacts.

Variable store : Store.
Variable blockIndex : BlockIndex.

Section RestoreBody.

Variable self : string -> gset string -> string -> option (string * gset string).
Hypothesis self_restores :
  forall text v ind r v', self text v ind = Some (r, v') -> v' = v.

Lemma expandBlocks_restores (ids : list nat) (ti : string) :
  forall res v res' v',
    expandBlocks store self ids ti (res, v) = Some (res', v') -> v' = v.
Proof.
  induction ids as [|id rest IH]; intros res v res' v' H; simpl in H.
  - inversion H. reflexivity.
  - destruct (store !! id) as [block|]; [|discriminate].
    destruct (self (content block) v ti) as [[e v1]|] eqn:E; [|discriminate].
    apply self_restores in E. subst v1. eapply IH. exact H.
Qed.

Lemma expandLine_restores (ind : string) (res : list string) (v : gset string)
    (line : string) (res' : list string) (v' : gset string) :
  expandLine store blockIndex self ind (res, v) line = Some (res', v') -> v' = v.
Proof.
  unfold expandLine. intros H.
  destruct (matchNoweb line) as [[[lead ref] trailing]|]; [|inversion H; reflexivity].
  destruct (bool_decide (ref ∈ v)) eqn:Hin; [inversion H; reflexivity|].
  apply bool_decide_eq_false in Hin.
  destruct (blockIndex !! VStr ref) as [[|id ids]|];
    [inversion H; reflexivity| |inversion H; reflexivity].
  destruct (expandBlocks store self (id :: ids) (ind +:+ lead) (res, {[ref]} ∪ v))
    as [[r1 v1]|] eqn:B; [|discriminate].
  apply expandBlocks_restores in B. subst v1.
  inversion H. apply visited_pop. exact Hin.
Qed.

Lemma expandLines_restores (ind : string) (lines : list string) :
  forall res v res' v',
    expandLines store blockIndex self ind lines (res, v) = Some (res', v') -> v' = v.
Proof.
  induction lines as [|l lines IH]; intros res v res' v' H.
  - inversion H. reflexivity.
  - change (match expandLine store blockIndex self ind (res, v) l with
            | Some st' => expandLines store blockIndex self ind lines st'
            | None => None
            end = Some (res', v')) in H.
    destruct (expandLine store blockIndex self ind (res, v) l) as [[r1 v1]|] eqn:E;
      [|discriminate].
    apply expandLine_restores in E. subst v1. eapply IH. exact H.
Qed.

End RestoreBody.

Lemma expandNoweb_unfold (f : nat) (text : string) (v : gset string) (ind : string) :
  expandNoweb store blockIndex (S f) text v ind
  = match expandLines store blockIndex (expandNoweb store blockIndex f) ind
                      (split LF text) ([], v) with
    | Some (result, visited') => Some (join nl result, visited')
    | None => None
    end.
Proof. reflexivity. Qed.

(** A call that returns leaves the visited set as it found it. *)
Lemma expandNoweb_restores (fuel : nat) :
  forall text v ind r v',
    expandNoweb store blockIndex fuel text v ind = Some (r, v') -> v' = v.
Proof.
  induction fuel as [|f IH]; intros text v ind r v' H; simpl in H; [discriminate|].
  destruct (expandLines store blockIndex (expandNoweb store blockIndex f) ind
                        (split LF text) ([], v)) as [[res v1]|] eqn:E; [|discriminate].
  inversion H; subst. eapply expandLines_restores; [exact IH | exact E].
Qed.

End VisitedFacts.

(** The index built from a store only holds positions of that store. *)
Lemma indexPush_ids (key k : Value) (id j : nat) (index : BlockIndex) (ids : list nat) :
  indexPush key id index !! k = Some ids -> j ∈ ids ->
  j = id \/ exists ids0, index !! k = Some ids0 /\ j ∈ ids0.
Proof.
  unfold indexPush. intros H Hj.
  destruct (decide (key = k)) as [->|Hne].
  - rewrite lookup_insert_eq in H. inversion H; subst.
    apply elem_of_app in Hj as [Hj|Hj].
    + destruct (index !! k) as [ids0|]; simpl in Hj; [|inversion Hj].
      right. exists ids0. split; [reflexivity | exact Hj].
    + apply list_elem_of_singleton in Hj. left. exact Hj.
  - rewrite lookup_insert_ne in H by exact Hne.
    right. exists ids. split; assumption.
Qed.

Lemma indexBlock_ids (index : BlockIndex) (id : nat) (b : SourceBlock)
    (k : Value) (ids : list nat) (j : nat) :
  indexBlock index id b !! k = Some ids -> j ∈ ids ->
  j = id \/ exists ids0, index !! k = Some ids0 /\ j ∈ ids0.
Proof.
  unfold indexBlock. intros H Hj.
  set (index1 := match name b with
                 | Some n => if isEmpty n then index else indexPush (VStr n) id index
                 | None => index
                 end) in *.
  assert (H1 : forall ids1, index1 !! k = Some ids1 -> j ∈ ids1 ->
               j = id \/ exists ids0, index !! k = Some ids0 /\ j ∈ ids0).
  { subst index1. intros ids1 G1 G2.
    destruct (name b) as [n|]; [destruct (isEmpty n)|]; eauto using indexPush_ids. }
  destruct (jsOr _ _) as [v|]; [|eauto].
  destruct (truthy (Some v) && differsFromName v (name b)); [|eauto].
  destruct (indexPush_ids _ _ _ _ _ _ H Hj) as [->|[ids1 [G1 G2]]]; eauto.
Qed.

Lemma buildBlockIndexFrom_ids (bs : list SourceBlock) (n : nat) (index : BlockIndex) :
  (forall k ids j, index !! k = Some ids -> j ∈ ids -> j < n) ->
  forall k ids j,
    buildBlockIndexFrom n bs index !! k = Some ids -> j ∈ ids -> j < n + List.length bs.
Proof.
  revert n index. induction bs as [|b bs IH]; intros n index Hidx k ids j H Hj; simpl in *.
  - specialize (Hidx _ _ _ H Hj). lia.
  - specialize (IH (S n) (indexBlock index n b)).
    assert (j < S n + List.length bs); [|lia].
    eapply IH; [|exact H|exact Hj].
    intros k' ids' j' H' Hj'.
    destruct (indexBlock_ids _ _ _ _ _ _ H' Hj') as [->|[ids0 [G1 G2]]]; [lia|].
    specialize (Hidx _ _ _ G1 G2). lia.
Qed.

Lemma buildBlockIndex_in_store (store : Store) :
  IndexInStore store (buildBlockIndex store).
Proof.
  intros k ids id H Hid. apply lookup_lt_is_Some.
  unfold buildBlockIndex in H.
  eapply (buildBlockIndexFrom_ids store 0 ∅); [|exact H|exact Hid].
  intros k' ids' j' H'. rewrite lookup_empty in H'. discriminate.
Qed.

(* ===================================================================== *)
(** * The expander: the claims *)
(* ===================================================================== *)

Definition fanInDoc : string :=
  Sample.document
    ["#+begin_src txt :noweb-ref greet"; "hi"; "#+end_src";
     "#+begin_src txt :noweb-ref greet"; "bye"; "#+end_src";
     "#+name: body"; "#+begin_src py"; "a"; "  <<leaf>>"; "b"; "#+end_src";
     "#+name: leaf"; "#+begin_src py"; "c"; "#+end_src";
     "#+begin_src py :tangle x.py"; "def f():"; "    <<body>>"; "#+end_src"].

(** C2 (as amended).  Every line of the text that [expandNoweb] returns
    for an indent is empty or begins with that indent, and every line
    emitted for a reference line whose leading white space is [lead],
    reached with the outer indent [ind], is empty or begins with
    [ind] followed by [lead]: the nested call receives the concatenation
    as its own indent, so the indents of nested reference sites add up.
    The empty lines are the separators that the expander inserts, without
    indent, between successive blocks that share a name. *)
Theorem expansion_lines_begin_with_indent (store : Store) (blockIndex : BlockIndex) :
  (forall fuel text v ind r v',
      hasLF ind = false ->
      expandNoweb store blockIndex fuel text v ind = Some (r, v') ->
      Forall (fun l => l = "" \/ startsWith l ind = true) (split LF r))
  /\ (forall fuel ind res v line lead ref trailing res' v',
        matchNoweb line = Some (lead, ref, trailing) ->
        hasLF ind = false -> hasLF line = false ->
        expandLine store blockIndex (expandNoweb store blockIndex fuel) ind (res, v) line
        = Some (res', v') ->
        exists new,
          res' = res ++ new
          /\ Forall (fun l => l = "" \/ startsWith l (ind +:+ lead) = true) new)
  /\ (forall fuel ind res v line lead ref id b,
        matchNoweb line = Some (lead, ref, "") ->
        ref ∉ v -> blockIndex !! VStr ref = Some [id] -> store !! id = Some b ->
        expandLine store blockIndex (expandNoweb store blockIndex fuel) ind (res, v) line
        = match expandNoweb store blockIndex fuel (content b) ({[ref]} ∪ v)
                            (ind +:+ lead) with
          | Some (expanded, v1) => Some (res ++ split LF expanded, v1 ∖ {[ref]})
          | None => None
          end).
Proof.
  split; [|split].
  - intros fuel text v ind r v' Hind H.
    apply (expandNoweb_good store blockIndex fuel _ _ _ _ _ Hind H).
  - intros fuel ind res v line lead ref trailing res' v' M Hind Hline H.
    apply (expandLine_good store blockIndex (expandNoweb store blockIndex fuel)
             (expandNoweb_good store blockIndex fuel)) in H; [|exact Hind|exact Hline].
    destruct H as (new & E & G & _). unfold leadOf in G. rewrite M in G.
    exists new. split; assumption.
  - intros fuel ind res v line lead ref id b M Hv Hidx Hb.
    unfold expandLine. rewrite M.
    rewrite bool_decide_eq_false_2 by exact Hv. rewrite Hidx.
    cbn [expandBlocks fst snd]. rewrite Hb.
    destruct (expandNoweb store blockIndex fuel (content b) ({[ref]} ∪ v) (ind +:+ lead))
      as [[e v1]|]; reflexivity.
Qed.

Lemma expansion_lines_begin_with_indent_witness :
  let store := Sample.blocksOf fanInDoc in
  let index := buildBlockIndex store in
  (fst <$> expandNoweb store index (expansionFuel index)
                       (Sample.document ["def f():"; "    <<body>>"]) ∅ "  ")
  = Some (Sample.document ["  def f():"; "      a"; "        c"; "      b"])
  /\ Forall (fun l => l = "" \/ startsWith l "  " = true)
            ["  def f():"; "      a"; "        c"; "      b"].
Proof.
  intros store index.
  destruct (expandNoweb store index (expansionFuel index)
              (Sample.document ["def f():"; "    <<body>>"]) ∅ "  ")
    as [[r v']|] eqn:E; [|vm_compute in E; discriminate].
  pose proof (proj1 (expansion_lines_begin_with_indent store index)
                (expansionFuel index) _ ∅ "  " r v' eq_refl E) as H.
  assert (Hr : r = Sample.document ["  def f():"; "      a"; "        c"; "      b"]).
  { vm_compute in E. inversion E. reflexivity. }
  subst r. split; [reflexivity|]. exact H.
Defined.

(** C2 as stated fails: with two blocks under the name [greet], the
    reference indented by four spaces expands to three lines, and the
    separator between the two blocks does not begin with four spaces. *)
Lemma fan_in_separator_is_not_indented :
  let store := Sample.blocksOf fanInDoc in
  let index := buildBlockIndex store in
  (fst <$> expandNoweb store index (expansionFuel index) "    <<greet>>" ∅ "")
  = Some (Sample.document ["    hi"; ""; "    bye"])
  /\ ~ Forall (fun l => startsWith l "    " = true)
              (split LF (Sample.document ["    hi"; ""; "    bye"])).
Proof.
  split; [vm_compute; reflexivity|].
  intros H. vm_compute in H.
  inversion H as [|? ? _ H1]; subst. inversion H1 as [|? ? H2 _]; subst.
  discriminate.
Qed.

Definition cycleDoc : string :=
  Sample.document
    ["#+name: a"; "#+begin_src txt"; "x"; "  <<b>>"; "#+end_src";
     "#+name: b"; "#+begin_src txt"; "y"; "  <<a>> // again"; "#+end_src";
     "#+begin_src txt :tangle out.txt"; "<<a>>"; "#+end_src"].

(** C3.  Expansion terminates on every index whose positions lie in the
    store, cycles included: with more fuel than index keys off the stack
    the call returns a text and leaves the stack as it found it, and the
    fuel that [generateContent] supplies is enough for the index built
    from any store.  A reference line whose name is on the stack appends
    exactly one line to the result, made of the total indent, the
    circular-reference marker and the trailing text, and the loop goes
    on. *)
Theorem expansion_terminates_and_marks_cycles (store : Store) (blockIndex : BlockIndex) :
  (IndexInStore store blockIndex ->
   forall fuel text v ind,
     pendingNames blockIndex v < fuel ->
     exists r, expandNoweb store blockIndex fuel text v ind = Some (r, v))
  /\ (forall text,
        exists r, expandNoweb store (buildBlockIndex store)
                              (expansionFuel (buildBlockIndex store)) text ∅ ""
                  = Some (r, ∅))
  /\ (forall self ind res v line lead ref trailing,
        matchNoweb line = Some (lead, ref, trailing) ->
        ref ∈ v ->
        expandLine store blockIndex self ind (res, v) line
        = Some (res ++ [(ind +:+ lead) +:+ "/* ERROR: Circular reference to "
                          +:+ ref +:+ " */" +:+ trailing], v)).
Proof.
  split; [|split].
  - intros Hwf fuel text v ind Hv.
    apply (expandNoweb_total store blockIndex Hwf). exact Hv.
  - intros text.
    apply (expandNoweb_total store (buildBlockIndex store)
             (buildBlockIndex_in_store store)).
    rewrite pendingNames_empty. unfold expansionFuel. lia.
  - intros self ind res v line lead ref trailing M Hv.
    unfold expandLine. rewrite M.
    rewrite bool_decide_eq_true_2 by exact Hv.
    unfold circularMarker. rewrite !append_assoc. reflexivity.
Qed.

Lemma expansion_terminates_and_marks_cycles_witness :
  let store := Sample.blocksOf cycleDoc in
  let index := buildBlockIndex store in
  (exists r, expandNoweb store index (expansionFuel index) "<<a>>" ∅ "" = Some (r, ∅))
  /\ (fst <$> expandNoweb store index (expansionFuel index) "<<a>>" ∅ "")
     = Some (Sample.document
               ["x"; "  y"; "    /* ERROR: Circular reference to a */ // again"])
  /\ expandLine store index (fun _ _ _ => None) "  " (["y"], {[ "a" ]}) "  <<a>> // again"
     = Some (["y"; "    /* ERROR: Circular reference to a */ // again"], {[ "a" ]}).
Proof.
  intros store index.
  pose proof (expansion_terminates_and_marks_cycles store index) as [_ [H2 H3]].
  split; [apply H2|].
  split; [vm_compute; reflexivity|].
  rewrite (H3 _ "  " ["y"] {[ "a" ]} "  <<a>> // again" "  " "a" " // again").
  - reflexivity.
  - vm_compute. reflexivity.
  - apply elem_of_singleton. reflexivity.
Defined.

(** The names on the stack are keys of the index with a non-empty list:
    the stack is empty at the call of [generateContent], and a name is
    pushed only after its lookup has returned a non-empty list. *)
Definition Resolvable (blockIndex : BlockIndex) (v : gset string) : Prop :=
  forall n, n ∈ v -> exists id ids, blockIndex !! VStr n = Some (id :: ids).

Lemma appendToLast_app (res new : list string) (t : string) :
  new <> [] -> appendToLast (res ++ new) t = res ++ appendToLast new t.
Proof.
  intros Hne. induction res as [|a res IH]; [reflexivity|].
  cbn [app]. destruct (res ++ new) as [|x xs] eqn:E.
  - apply app_eq_nil in E as [_ E]. contradiction.
  - change (appendToLast (a :: x :: xs) t) with (a :: appendToLast (x :: xs) t).
    rewrite IH. reflexivity.
Qed.

Section FrameFacts.

Variable store : Store.
Variable blockIndex : BlockIndex.
Variable self : string -> gset string -> string -> option (string * gset string).

(** The loops only append to the [result] array they are given. *)
Lemma expandBlocks_frame (ids : list nat) (ti : string) :
  forall res v,
    expandBlocks store self ids ti (res, v)
    = match expandBlocks store self ids ti ([], v) with
      | Some (new, v') => Some (res ++ new, v')
      | None => None
      end.
Proof.
  induction ids as [|id rest IH]; intros res v.
  - cbn [expandBlocks]. rewrite app_nil_r. reflexivity.
  - cbn [expandBlocks fst snd]. destruct (store !! id) as [block|]; [|reflexivity].
    destruct (self (content block) v ti) as [[expanded v1]|]; [|reflexivity].
    cbn [app]. destruct rest as [|id' rest'].
    + cbn [expandBlocks]. reflexivity.
    + rewrite (IH ((res ++ split LF expanded) ++ [""]) v1).
      rewrite (IH (split LF expanded ++ [""]) v1).
      destruct (expandBlocks store self (id' :: rest') ti ([], v1)) as [[new v2]|];
        [|reflexivity].
      rewrite <- !app_assoc. reflexivity.
Qed.

Lemma expandBlocks_new_nonempty (ids : list nat) (ti : string) (v : gset string)
    (new : list string) (v' : gset string) :
  ids <> [] -> expandBlocks store self ids ti ([], v) = Some (new, v') -> new <> [].
Proof.
  destruct ids as [|id rest]; [contradiction|]. intros _ H.
  cbn [expandBlocks fst snd app] in H.
  destruct (store !! id) as [block|]; [|discriminate].
  destruct (self (content block) v ti) as [[expanded v1]|]; [|discriminate].
  rewrite expandBlocks_frame in H.
  destruct (expandBlocks store self rest ti ([], v1)) as [[n v2]|]; [|discriminate].
  inversion H; subst. pose proof (split_nonempty expanded) as Hs.
  destruct (split LF expanded) as [|x xs]; [contradiction|].
  destruct rest; discriminate.
Qed.

Lemma expandLine_frame (ind : string) (res : list string) (v : gset string)
    (line : string) :
  expandLine store blockIndex self ind (res, v) line
  = match expandLine store blockIndex self ind ([], v) line with
    | Some (new, v') => Some (res ++ new, v')
    | None => None
    end.
Proof.
  unfold expandLine.
  destruct (matchNoweb line) as [[[lead ref] trailing]|]; [|reflexivity].
  destruct (bool_decide (ref ∈ v)); [reflexivity|].
  destruct (blockIndex !! VStr ref) as [[|id ids]|]; [reflexivity| |reflexivity].
  rewrite (expandBlocks_frame (id :: ids) (ind +:+ lead) res).
  destruct (expandBlocks store self (id :: ids) (ind +:+ lead) ([], {[ref]} ∪ v))
    as [[new v1]|] eqn:B; [|reflexivity].
  destruct (isEmpty trailing); [reflexivity|].
  rewrite appendToLast_app; [reflexivity|].
  eapply expandBlocks_new_nonempty; [|exact B]. discriminate.
Qed.

Lemma expandLines_cons (ind : string) (line : string) (lines : list string)
    (st : ExpandState) :
  expandLines store blockIndex self ind (line :: lines) st
  = match expandLine store blockIndex self ind st line with
    | Some st' => expandLines store blockIndex self ind lines st'
    | None => None
    end.
Proof. reflexivity. Qed.

Lemma expandLines_frame (ind : string) (lines : list string) :
  forall res v,
    expandLines store blockIndex self ind lines (res, v)
    = match expandLines store blockIndex self ind lines ([], v) with
      | Some (new, v') => Some (res ++ new, v')
      | None => None
      end.
Proof.
  induction lines as [|l lines IH]; intros res v.
  - cbn [expandLines]. rewrite app_nil_r. reflexivity.
  - rewrite !expandLines_cons. rewrite (expandLine_frame ind res v l).
    destruct (expandLine store blockIndex self ind ([], v) l) as [[n1 v1]|];
      [|reflexivity].
    rewrite (IH (res ++ n1) v1), (IH n1 v1).
    destruct (expandLines store blockIndex self ind lines ([], v1)) as [[n2 v2]|];
      [|reflexivity].
    rewrite app_assoc. reflexivity.
Qed.

Lemma expandLines_app (ind : string) (l1 l2 : list string) :
  forall st,
    expandLines store blockIndex self ind (l1 ++ l2) st
    = match expandLines store blockIndex self ind l1 st with
      | Some st' => expandLines store blockIndex self ind l2 st'
      | None => None
      end.
Proof.
  induction l1 as [|l l1 IH]; intros st; [reflexivity|].
  cbn [app]. rewrite !expandLines_cons.
  destruct (expandLine store blockIndex self ind st l) as [st'|]; [apply IH | reflexivity].
Qed.

(** One reference line whose name resolves to nothing, under a stack of
    resolved names: one line is appended, the visited set is untouched. *)
Lemma expandLine_unresolved (ind : string) (res : list string) (v : gset string)
    (line lead ref trailing : string) :
  matchNoweb line = Some (lead, ref, trailing) ->
  Resolvable blockIndex v ->
  blockIndex !! VStr ref = None \/ blockIndex !! VStr ref = Some [] ->
  expandLine store blockIndex self ind (res, v) line
  = Some (res ++ [(ind +:+ lead) +:+ "<<" +:+ ref +:+ ">>" +:+ trailing], v).
Proof.
  intros M Hv Hidx. unfold expandLine. rewrite M.
  rewrite bool_decide_eq_false_2.
  - destruct Hidx as [-> | ->]; reflexivity.
  - intros Hin. destruct (Hv ref Hin) as (id & ids & E).
    destruct Hidx as [H|H]; rewrite H in E; discriminate.
Qed.

Hypothesis self_restores :
  forall text v ind r v', self text v ind = Some (r, v') -> v' = v.

(** The same line between other lines: what stands before and after it
    is expanded as it would be without it. *)
Lemma expandLines_unresolved (ind : string) (before after : list string)
    (v : gset string) (line lead ref trailing : string) :
  matchNoweb line = Some (lead, ref, trailing) ->
  Resolvable blockIndex v ->
  blockIndex !! VStr ref = None \/ blockIndex !! VStr ref = Some [] ->
  expandLines store blockIndex self ind (before ++ line :: after) ([], v)
  = match expandLines store blockIndex self ind before ([], v),
          expandLines store blockIndex self ind after ([], v) with
    | Some (res1, _), Some (res2, _) =>
        Some (res1 ++ [(ind +:+ lead) +:+ "<<" +:+ ref +:+ ">>" +:+ trailing] ++ res2, v)
    | _, _ => None
    end.
Proof.
  intros M Hv Hidx. rewrite expandLines_app.
  destruct (expandLines store blockIndex self ind before ([], v)) as [[res1 v1]|] eqn:E1;
    [|reflexivity].
  pose proof (expandLines_restores store blockIndex self self_restores _ _ _ _ _ _ E1).
  subst v1. rewrite expandLines_cons.
  rewrite (expandLine_unresolved ind res1 v line lead ref trailing M Hv Hidx).
  rewrite expandLines_frame.
  destruct (expandLines store blockIndex self ind after ([], v)) as [[res2 v2]|] eqn:E2;
    [|reflexivity].
  pose proof (expandLines_restores store blockIndex self self_restores _ _ _ _ _ _ E2).
  subst v2. rewrite <- app_assoc. reflexivity.
Qed.

End FrameFacts.

Lemma Resolvable_empty (blockIndex : BlockIndex) : Resolvable blockIndex ∅.
Proof. intros n Hn. apply not_elem_of_empty in Hn. contradiction. Qed.

Lemma Resolvable_push (blockIndex : BlockIndex) (v : gset string) (ref : string)
    (id : nat) (ids : list nat) :
  Resolvable blockIndex v -> blockIndex !! VStr ref = Some (id :: ids) ->
  Resolvable blockIndex ({[ref]} ∪ v).
Proof.
  intros Hv Hidx n Hn. apply elem_of_union in Hn as [Hn|Hn].
  - apply elem_of_singleton in Hn. subst n. eauto.
  - apply Hv. exact Hn.
Qed.

(** The expansion of a text around an unresolved reference line. *)
Lemma expandNoweb_unresolved (store : Store) (blockIndex : BlockIndex)
    (fuel : nat) (text : string) (before : list string) (line : string)
    (after : list string) (v : gset string) (ind lead ref trailing : string) :
  split LF text = before ++ line :: after ->
  matchNoweb line = Some (lead, ref, trailing) ->
  Resolvable blockIndex v ->
  blockIndex !! VStr ref = None \/ blockIndex !! VStr ref = Some [] ->
  expandNoweb store blockIndex (S fuel) text v ind
  = match expandLines store blockIndex (expandNoweb store blockIndex fuel)
                      ind before ([], v),
          expandLines store blockIndex (expandNoweb store blockIndex fuel)
                      ind after ([], v) with
    | Some (res1, _), Some (res2, _) =>
        Some (join nl (res1
                       ++ [(ind +:+ lead) +:+ "<<" +:+ ref +:+ ">>" +:+ trailing]
                       ++ res2), v)
    | _, _ => None
    end.
Proof.
  intros Hs M Hv Hidx. cbn [expandNoweb]. rewrite Hs.
  rewrite (expandLines_unresolved store blockIndex (expandNoweb store blockIndex fuel)
             (expandNoweb_restores store blockIndex fuel)
             ind before after v line lead ref trailing M Hv Hidx).
  destruct (expandLines store blockIndex (expandNoweb store blockIndex fuel)
                        ind before ([], v)) as [[res1 v1]|]; [|reflexivity].
  destruct (expandLines store blockIndex (expandNoweb store blockIndex fuel)
                        ind after ([], v)) as [[res2 v2]|]; reflexivity.
Qed.

(** With a depth bound above the number of index keys off the stack,
    that expansion returns. *)
Lemma expandNoweb_unresolved_returns (store : Store) (blockIndex : BlockIndex)
    (fuel : nat) (text : string) (before : list string) (line : string)
    (after : list string) (v : gset string) (ind lead ref trailing : string) :
  IndexInStore store blockIndex ->
  split LF text = before ++ line :: after ->
  matchNoweb line = Some (lead, ref, trailing) ->
  Resolvable blockIndex v ->
  blockIndex !! VStr ref = None \/ blockIndex !! VStr ref = Some [] ->
  pendingNames blockIndex v < S fuel ->
  exists res1 res2,
    expandLines store blockIndex (expandNoweb store blockIndex fuel)
                ind before ([], v) = Some (res1, v)
    /\ expandLines store blockIndex (expandNoweb store blockIndex fuel)
                   ind after ([], v) = Some (res2, v)
    /\ expandNoweb store blockIndex (S fuel) text v ind
       = Some (join nl (res1
                        ++ [(ind +:+ lead) +:+ "<<" +:+ ref +:+ ">>" +:+ trailing]
                        ++ res2), v).
Proof.
  intros Hwf Hs M Hv Hidx Hfuel.
  destruct (expandLines_total store blockIndex Hwf (expandNoweb store blockIndex fuel)
              fuel (expandNoweb_total store blockIndex Hwf fuel) ind before v Hfuel [])
    as [res1 E1].
  destruct (expandLines_total store blockIndex Hwf (expandNoweb store blockIndex fuel)
              fuel (expandNoweb_total store blockIndex Hwf fuel) ind after v Hfuel [])
    as [res2 E2].
  exists res1, res2. split; [exact E1|]. split; [exact E2|].
  rewrite (expandNoweb_unresolved store blockIndex fuel text before line after v ind
             lead ref trailing Hs M Hv Hidx).
  rewrite E1, E2. reflexivity.
Qed.

(** C9.  A reference line whose name is absent from the index, or mapped
    to an empty list, is emitted as one line, at whatever place of
    whatever text it stands and whatever the indent of the call: the
    indent of the call, the leading white space of the line, the literal
    reference token and the trailing text.  The lines before and after it
    are expanded as they would be without it, so the call goes on and,
    on an index whose positions lie in the store and with the depth
    bound of [generateContent], returns.  The same holds one level down:
    in the content of a block expanded at an indented reference site the
    line comes out behind the indent of that site followed by its own.
    In the call that [generateContent] makes, with the empty indent, the
    line is emitted as it stands.  The premise on the stack holds
    throughout a run: it holds for the empty stack, and pushing a
    resolved name preserves it. *)
Theorem unresolved_reference_stays_literal (store : Store) (blockIndex : BlockIndex) :
  (forall fuel text before line after v ind lead ref trailing,
      split LF text = before ++ line :: after ->
      matchNoweb line = Some (lead, ref, trailing) ->
      Resolvable blockIndex v ->
      blockIndex !! VStr ref = None \/ blockIndex !! VStr ref = Some [] ->
      expandNoweb store blockIndex (S fuel) text v ind
      = match expandLines store blockIndex (expandNoweb store blockIndex fuel)
                          ind before ([], v),
              expandLines store blockIndex (expandNoweb store blockIndex fuel)
                          ind after ([], v) with
        | Some (res1, _), Some (res2, _) =>
            Some (join nl (res1
                           ++ [(ind +:+ lead) +:+ "<<" +:+ ref +:+ ">>" +:+ trailing]
                           ++ res2), v)
        | _, _ => None
        end)
  /\ (IndexInStore store blockIndex ->
      forall fuel text before line after v ind lead ref trailing,
        split LF text = before ++ line :: after ->
        matchNoweb line = Some (lead, ref, trailing) ->
        Resolvable blockIndex v ->
        blockIndex !! VStr ref = None \/ blockIndex !! VStr ref = Some [] ->
        pendingNames blockIndex v < S fuel ->
        exists res1 res2,
          expandLines store blockIndex (expandNoweb store blockIndex fuel)
                      ind before ([], v) = Some (res1, v)
          /\ expandLines store blockIndex (expandNoweb store blockIndex fuel)
                         ind after ([], v) = Some (res2, v)
          /\ expandNoweb store blockIndex (S fuel) text v ind
             = Some (join nl (res1
                              ++ [(ind +:+ lead) +:+ "<<" +:+ ref +:+ ">>" +:+ trailing]
                              ++ res2), v))
  /\ (forall fuel line v ind lead ref trailing,
        hasLF line = false ->
        matchNoweb line = Some (lead, ref, trailing) ->
        Resolvable blockIndex v ->
        blockIndex !! VStr ref = None \/ blockIndex !! VStr ref = Some [] ->
        expandNoweb store blockIndex (S fuel) line v ind
        = Some ((ind +:+ lead) +:+ "<<" +:+ ref +:+ ">>" +:+ trailing, v))
  /\ (forall fuel site siteLead name id b before line after v ind lead ref trailing,
        hasLF site = false ->
        matchNoweb site = Some (siteLead, name, "") ->
        name ∉ v -> blockIndex !! VStr name = Some [id] -> store !! id = Some b ->
        split LF (content b) = before ++ line :: after ->
        matchNoweb line = Some (lead, ref, trailing) ->
        Resolvable blockIndex v ->
        blockIndex !! VStr ref = None \/ blockIndex !! VStr ref = Some [] ->
        expandNoweb store blockIndex (S (S fuel)) site v ind
        = match expandLines store blockIndex (expandNoweb store blockIndex fuel)
                            (ind +:+ siteLead) before ([], {[name]} ∪ v),
                expandLines store blockIndex (expandNoweb store blockIndex fuel)
                            (ind +:+ siteLead) after ([], {[name]} ∪ v) with
          | Some (res1, _), Some (res2, _) =>
              Some (join nl (res1
                             ++ [((ind +:+ siteLead) +:+ lead)
                                   +:+ "<<" +:+ ref +:+ ">>" +:+ trailing]
                             ++ res2), v)
          | _, _ => None
          end)
  /\ (forall text before line after lead ref trailing,
        split LF text = before ++ line :: after ->
        matchNoweb line = Some (lead, ref, trailing) ->
        buildBlockIndex store !! VStr ref = None
        \/ buildBlockIndex store !! VStr ref = Some [] ->
        let index := buildBlockIndex store in
        exists res1 res2,
          expandLines store index (expandNoweb store index (size index))
                      "" before ([], ∅) = Some (res1, ∅)
          /\ expandLines store index (expandNoweb store index (size index))
                         "" after ([], ∅) = Some (res2, ∅)
          /\ expandNoweb store index (expansionFuel index) text ∅ ""
             = Some (join nl (res1 ++ [line] ++ res2), ∅))
  /\ Resolvable blockIndex ∅
  /\ (forall v ref id ids,
        Resolvable blockIndex v -> blockIndex !! VStr ref = Some (id :: ids) ->
        Resolvable blockIndex ({[ref]} ∪ v)).
Proof.
  assert (P1 : forall fuel text before line after v ind lead ref trailing,
      split LF text = before ++ line :: after ->
      matchNoweb line = Some (lead, ref, trailing) ->
      Resolvable blockIndex v ->
      blockIndex !! VStr ref = None \/ blockIndex !! VStr ref = Some [] ->
      expandNoweb store blockIndex (S fuel) text v ind
      = match expandLines store blockIndex (expandNoweb store blockIndex fuel)
                          ind before ([], v),
              expandLines store blockIndex (expandNoweb store blockIndex fuel)
                          ind after ([], v) with
        | Some (res1, _), Some (res2, _) =>
            Some (join nl (res1
                           ++ [(ind +:+ lead) +:+ "<<" +:+ ref +:+ ">>" +:+ trailing]
                           ++ res2), v)
        | _, _ => None
        end).
  { intros fuel text before line after v ind lead ref trailing Hs M Hv Hidx.
    apply (expandNoweb_unresolved store blockIndex fuel text before line after
             v ind lead ref trailing Hs M Hv Hidx). }
  pose proof (Resolvable_empty blockIndex) as P5.
  pose proof (Resolvable_push blockIndex) as P6.
  split; [exact P1|].
  split; [|split; [|split; [|split; [|split; [exact P5 | exact P6]]]]].
  - intros Hwf fuel text before line after v ind lead ref trailing Hs M Hv Hidx Hfuel.
    apply (expandNoweb_unresolved_returns store blockIndex fuel text before line after
             v ind lead ref trailing Hwf Hs M Hv Hidx Hfuel).
  - intros fuel line v ind lead ref trailing Hline M Hv Hidx.
    rewrite (P1 fuel line [] line [] v ind lead ref trailing
               (split_single line Hline) M Hv Hidx).
    reflexivity.
  - intros fuel site siteLead name id b before line after v ind lead ref trailing
           Hsite Ms Hname Hidx0 Hb Hs M Hv Hidx.
    assert (Hv' : Resolvable blockIndex ({[name]} ∪ v)) by (eapply P6; eassumption).
    pose proof (P1 fuel (content b) before line after ({[name]} ∪ v)
                  (ind +:+ siteLead) lead ref trailing Hs M Hv' Hidx) as Inner.
    rewrite (expandNoweb_unfold store blockIndex (S fuel) site v ind).
    rewrite (split_single site Hsite). rewrite expandLines_cons.
    unfold expandLine. rewrite Ms.
    rewrite bool_decide_eq_false_2 by exact Hname. rewrite Hidx0.
    cbn [expandBlocks fst snd app]. rewrite Hb. rewrite Inner.
    destruct (expandLines store blockIndex (expandNoweb store blockIndex fuel)
                          (ind +:+ siteLead) before ([], {[name]} ∪ v))
      as [[res1 v1]|]; [|reflexivity].
    destruct (expandLines store blockIndex (expandNoweb store blockIndex fuel)
                          (ind +:+ siteLead) after ([], {[name]} ∪ v))
      as [[res2 v2]|]; [|reflexivity].
    cbn [isEmpty expandLines]. rewrite join_split, visited_pop by exact Hname.
    reflexivity.
  - intros text before line after lead ref trailing Hs M Hidx.
    destruct (expandNoweb_unresolved_returns store (buildBlockIndex store)
                (size (buildBlockIndex store)) text before line after ∅ ""
                lead ref trailing (buildBlockIndex_in_store store) Hs M
                (Resolvable_empty _) Hidx) as (res1 & res2 & E1 & E2 & E).
    { rewrite pendingNames_empty. lia. }
    exists res1, res2. split; [exact E1|]. split; [exact E2|].
    unfold expansionFuel. rewrite E.
    apply matchNoweb_spec in M as [-> _]. reflexivity.
Qed.

Definition unresolvedDoc : string :=
  Sample.document
    ["#+name: body"; "#+begin_src txt";
     "a"; "  <<missing>> // later"; "b";
     "#+end_src";
     "#+begin_src txt :tangle out.txt"; "    <<body>>"; "#+end_src"].

Lemma unresolved_reference_stays_literal_witness :
  let store := Sample.blocksOf unresolvedDoc in
  let index := buildBlockIndex store in
  expandNoweb store index (expansionFuel index) "    <<body>>" ∅ ""
  = Some (Sample.document ["    a"; "      <<missing>> // later"; "    b"], ∅)
  /\ expandNoweb store index 1 "  <<missing>>;" {[ "body" ]} "    "
     = Some ("      <<missing>>;", {[ "body" ]}).
Proof.
  intros store index.
  pose proof (unresolved_reference_stays_literal store index)
    as (_ & _ & H3 & H4 & _).
  split.
  - destruct (store !! 0) as [b|] eqn:Hb; [|vm_compute in Hb; discriminate].
    change (expansionFuel index) with 2.
    rewrite (H4 0 "    <<body>>" "    " "body" 0 b ["a"] "  <<missing>> // later" ["b"]
               ∅ "" "  " "missing" " // later").
    + vm_compute. reflexivity.
    + reflexivity.
    + vm_compute. reflexivity.
    + apply not_elem_of_empty.
    + vm_compute. reflexivity.
    + exact Hb.
    + vm_compute in Hb. inversion Hb. vm_compute. reflexivity.
    + vm_compute. reflexivity.
    + intros n Hn. apply not_elem_of_empty in Hn. contradiction.
    + left. vm_compute. reflexivity.
  - apply (H3 0 "  <<missing>>;" {[ "body" ]} "    " "  " "missing" ";").
    + reflexivity.
    + vm_compute. reflexivity.
    + intros n Hn. apply elem_of_singleton in Hn. subst n.
      exists 0, []. vm_compute. reflexivity.
    + left. vm_compute. reflexivity.
Defined.

(* ===================================================================== *)
(** * Target assembly: the shebang and the store *)
(* ===================================================================== *)

(** A block that stops the shebang loop neither by its header argument
    nor by its content. *)
Definition passesShebangLoop (store : Store) (j : nat) : Prop :=
  exists bj, store !! j = Some bj
             /\ truthy (headerArgs bj !! "shebang") = false
             /\ startsWithShebang bj = false.

(** Two blocks that agree on every field other than [content]. *)
Definition sameButContent (b b' : SourceBlock) : Prop :=
  name b = name b' /\ language b = language b' /\ headerArgs b = headerArgs b'
  /\ startLine b = startLine b' /\ contentStartLine b = contentStartLine b'
  /\ endLine b = endLine b' /\ sourcePath b = sourcePath b'.

Lemma sameButContent_refl (b : SourceBlock) : sameButContent b b.
Proof. repeat split. Qed.

Lemma sameButContent_setContent (b : SourceBlock) (c : string) :
  sameButContent b (setContent b c).
Proof. repeat split. Qed.

(** A string is its first line, alone or followed by a line feed and by
    what [substring] keeps. *)
Lemma firstLine_decompose (s : string) :
  let fl := List.hd "" (split LF s) in
  s = fl \/ s = fl +:+ nl +:+ drop (String.length fl + 1) s.
Proof.
  induction s as [|c s IH]; simpl.
  - left. reflexivity.
  - destruct (Ascii.eqb_spec c LF) as [->|Hc].
    + right. reflexivity.
    + pose proof (split_nonempty s) as Hne.
      destruct (split LF s) as [|x xs]; [contradiction|].
      simpl in *. destruct IH as [IH|IH].
      * left. congruence.
      * right. f_equal. exact IH.
Qed.

Lemma findShebang_skip (store : Store) (pre rest : list nat) :
  (forall j, j ∈ pre -> passesShebangLoop store j) ->
  findShebang store (pre ++ rest) = findShebang store rest.
Proof.
  induction pre as [|j pre IH]; intros H; simpl; [reflexivity|].
  destruct (H j) as (bj & E1 & E2 & E3); [apply list_elem_of_here|].
  rewrite E1, E2, E3. apply IH.
  intros k Hk. apply H. apply list_elem_of_further. exact Hk.
Qed.

(** The shebang loop writes at most one block, and only its content. *)
Lemma findShebang_frame (store : Store) (ids : list nat)
    (sh : option string) (store' : Store) :
  findShebang store ids = Some (sh, store') ->
  store' = store
  \/ exists id b, id ∈ ids /\ store !! id = Some b
                  /\ truthy (headerArgs b !! "shebang") = false
                  /\ startsWithShebang b = true
                  /\ sh = Some (firstLine b)
                  /\ store' = <[id := setContent b (withoutFirstLine b)]> store.
Proof.
  induction ids as [|id ids IH]; simpl; intros H.
  - inversion H. left. reflexivity.
  - destruct (store !! id) as [b|] eqn:Hb; [|discriminate].
    destruct (truthy (headerArgs b !! "shebang")) eqn:Ht.
    + inversion H. left. reflexivity.
    + destruct (startsWithShebang b) eqn:Hs.
      * inversion H; subst. right. exists id, b.
        split; [apply list_elem_of_here|]. repeat split; assumption.
      * destruct (IH H) as [->|(id' & b' & G1 & G)].
        -- left. reflexivity.
        -- right. exists id', b'. split; [apply list_elem_of_further; exact G1 | exact G].
Qed.

Lemma insert_sameButContent (store : Store) (id : nat) (b : SourceBlock) (c : string) :
  store !! id = Some b ->
  Forall2 sameButContent store (<[id := setContent b c]> store).
Proof.
  intros Hb. apply Forall2_same_length_lookup. split.
  - rewrite length_insert. reflexivity.
  - intros i x y Hx Hy. rewrite list_lookup_insert in Hy.
    destruct (decide (id = i /\ id < List.length store)) as [[-> _]|_].
    + inversion Hy; subst. rewrite Hb in Hx. inversion Hx; subst.
      apply sameButContent_setContent.
    + rewrite Hx in Hy. inversion Hy; subst. apply sameButContent_refl.
Qed.

Lemma Forall2_sameButContent_refl (store : Store) : Forall2 sameButContent store store.
Proof. induction store; constructor; [apply sameButContent_refl | assumption]. Qed.

(** The index and the targets are computed from fields other than
    [content]. *)
Lemma indexBlock_sameButContent (index : BlockIndex) (id : nat) (b b' : SourceBlock) :
  sameButContent b b' -> indexBlock index id b = indexBlock index id b'.
Proof.
  intros (H1 & _ & H3 & _). unfold indexBlock. rewrite H1, H3. reflexivity.
Qed.

Lemma buildBlockIndexFrom_sameButContent (s s' : Store) :
  Forall2 sameButContent s s' ->
  forall n index, buildBlockIndexFrom n s index = buildBlockIndexFrom n s' index.
Proof.
  induction 1 as [|b b' s s' Hb _ IH]; intros n index; simpl; [reflexivity|].
  rewrite (indexBlock_sameButContent index n b b' Hb). apply IH.
Qed.

Section AssemblyFacts.

Variable dirname : string -> string.
Variable resolve : string -> string -> string.
Variable relative : string -> string -> string.
Variable cwd : string.

Lemma targetPathOf_sameButContent (b b' : SourceBlock) :
  sameButContent b b' -> targetPathOf dirname resolve b = targetPathOf dirname resolve b'.
Proof.
  intros (_ & H2 & H3 & _ & _ & _ & H7). unfold targetPathOf.
  rewrite H2, H3, H7. reflexivity.
Qed.

Lemma groupByTargetFrom_sameButContent (s s' : Store) :
  Forall2 sameButContent s s' ->
  forall n targets,
    groupByTargetFrom dirname resolve n s targets
    = groupByTargetFrom dirname resolve n s' targets.
Proof.
  induction 1 as [|b b' s s' Hb _ IH]; intros n targets; simpl; [reflexivity|].
  rewrite (targetPathOf_sameButContent b b' Hb). apply IH.
Qed.

Lemma generateContent_unfold (store : Store) (ids : list nat)
    (blockIndex : BlockIndex) (targetPath text : string) (store' : Store) :
  generateContent relative cwd store ids blockIndex targetPath = Some (text, store') ->
  exists sh body,
    findShebang store ids = Some (sh, store')
    /\ bodyParts relative cwd blockIndex store'
                 (framingEnabled targetPath (omap (fun id => store !! id) ids))
                 (endsWith targetPath ".org")
                 (getCommentPrefix targetPath) (getCommentSuffix targetPath) ids
       = Some body
    /\ text = join nl (shebangParts sh
                       ++ bannerParts relative cwd targetPath
                            (omap (fun id => store !! id) ids)
                       ++ body).
Proof.
  unfold generateContent. intros H.
  destruct (findShebang store ids) as [[sh st1]|]; [|discriminate].
  destruct (bodyParts _ _ _ _ _ _ _ _ _) as [body|] eqn:B; [|discriminate].
  inversion H; subst. exists sh, body. repeat split. exact B.
Qed.

(** C4 (as amended).  The shebang loop walks the blocks of the target
    in order and stops at the first block that bears a truthy [shebang]
    header argument, which then supplies the shebang literally and
    leaves the store alone, or that bears none and whose content begins
    with [#!], in which case the first line of that content is the
    shebang and is removed from the content of that block in the store.
    The text of the target starts with that shebang, followed by the
    header comment and by the parts of the blocks as the store holds
    them after the loop, so a lifted line is not repeated in the body.
    The blocks passed over before the loop stops bear no truthy
    [shebang] argument and do not begin with [#!]. *)
Theorem shebang_comes_from_first_qualifying_block
    (store : Store) (pre : list nat) (id : nat) (post : list nat)
    (b : SourceBlock) :
  (forall j, j ∈ pre -> passesShebangLoop store j) ->
  store !! id = Some b ->
  (truthy (headerArgs b !! "shebang") = true ->
   findShebang store (pre ++ id :: post)
   = Some (valueToString <$> headerArgs b !! "shebang", store))
  /\ (truthy (headerArgs b !! "shebang") = false ->
      startsWithShebang b = true ->
      findShebang store (pre ++ id :: post)
      = Some (Some (firstLine b), <[id := setContent b (withoutFirstLine b)]> store)
      /\ (content b = firstLine b
          \/ content b = firstLine b +:+ nl +:+ withoutFirstLine b))
  /\ (forall blockIndex targetPath text store' sh,
        findShebang store (pre ++ id :: post) = Some (Some sh, store') ->
        generateContent relative cwd store (pre ++ id :: post) blockIndex targetPath
        = Some (text, store') ->
        exists body,
          bodyParts relative cwd blockIndex store'
            (framingEnabled targetPath
               (omap (fun i => store !! i) (pre ++ id :: post)))
            (endsWith targetPath ".org")
            (getCommentPrefix targetPath) (getCommentSuffix targetPath)
            (pre ++ id :: post)
          = Some body
          /\ text = join nl (sh :: bannerParts relative cwd targetPath
                                     (omap (fun i => store !! i) (pre ++ id :: post))
                                ++ body)).
Proof.
  intros Hpre Hb. split; [|split].
  - intros Ht. rewrite findShebang_skip by exact Hpre.
    simpl. rewrite Hb, Ht. reflexivity.
  - intros Ht Hs. split.
    + rewrite findShebang_skip by exact Hpre.
      simpl. rewrite Hb, Ht, Hs. reflexivity.
    + apply (firstLine_decompose (content b)).
  - intros blockIndex targetPath text store' sh Hf Hg.
    apply generateContent_unfold in Hg as (sh' & body & G1 & G2 & G3).
    rewrite Hf in G1. inversion G1; subst sh'.
    exists body. split; [exact G2 | exact G3].
Qed.

(** C6 (as amended).  [generateContent] leaves the store as it found
    it, or replaces the content of one block of the target: a block
    without a truthy [shebang] argument whose content begins with [#!]
    loses its first line.  The store keeps its length, every block
    keeps every field other than [content], and the index and the
    targets computed from the store are the same before and after.
    ([buildBlockIndex] and [expandNoweb] take the store as a value and
    return none: they write no block.) *)
Theorem target_assembly_rewrites_only_lifted_content
    (store : Store) (ids : list nat) (blockIndex : BlockIndex)
    (targetPath text : string) (store' : Store) :
  generateContent relative cwd store ids blockIndex targetPath = Some (text, store') ->
  (store' = store
   \/ exists id b, id ∈ ids /\ store !! id = Some b
                   /\ truthy (headerArgs b !! "shebang") = false
                   /\ startsWithShebang b = true
                   /\ store' = <[id := setContent b (withoutFirstLine b)]> store)
  /\ List.length store' = List.length store
  /\ Forall2 sameButContent store store'
  /\ buildBlockIndex store' = buildBlockIndex store
  /\ groupByTarget dirname resolve store' = groupByTarget dirname resolve store.
Proof.
  intros H. apply generateContent_unfold in H as (sh & body & F & _ & _).
  apply findShebang_frame in F.
  assert (HF : Forall2 sameButContent store store').
  { destruct F as [->|(id & b & _ & Hb & _ & _ & _ & ->)].
    - apply Forall2_sameButContent_refl.
    - apply insert_sameButContent. exact Hb. }
  split; [|split; [|split; [|split]]].
  - destruct F as [->|(id & b & G1 & G2 & G3 & G4 & _ & G6)].
    + left. reflexivity.
    + right. exists id, b. repeat split; assumption.
  - symmetry. eapply Forall2_length. exact HF.
  - exact HF.
  - unfold buildBlockIndex. symmetry.
    apply buildBlockIndexFrom_sameButContent. exact HF.
  - unfold groupByTarget. symmetry.
    apply groupByTargetFrom_sameButContent. exact HF.
Qed.

End AssemblyFacts.

Definition shebangDoc : string :=
  Sample.document
    ["#+name: hdr";
     "#+begin_src sh :tangle run";
     "#!/usr/bin/env sh";
     "echo ok";
     "#+end_src";
     "#+begin_src sh :tangle other.sh";
     "<<hdr>>";
     "#+end_src"].

Definition twoShebangsDoc : string :=
  Sample.document
    ["#+begin_src sh :tangle run :comments no";
     "#!/bin/sh";
     "echo one";
     "#+end_src";
     "#+begin_src sh :tangle run :shebang #!/bin/bash";
     "echo two";
     "#+end_src"].

Definition scriptBlock : SourceBlock :=
  Sample.block (Some "hdr") ("#!/usr/bin/env sh" +:+ nl +:+ "echo ok")
               {[ "tangle" := VStr "run" ]}.

Definition plainBlock : SourceBlock :=
  Sample.block None "echo first" {[ "tangle" := VStr "run" ]}.

Lemma shebang_comes_from_first_qualifying_block_witness :
  passesShebangLoop [plainBlock; scriptBlock] 0
  /\ findShebang [plainBlock; scriptBlock] ([0] ++ 1 :: [])
     = Some (Some (firstLine scriptBlock),
             <[1 := setContent scriptBlock (withoutFirstLine scriptBlock)]>
               [plainBlock; scriptBlock])
  /\ (content scriptBlock = firstLine scriptBlock
      \/ content scriptBlock
         = firstLine scriptBlock +:+ nl +:+ withoutFirstLine scriptBlock).
Proof.
  assert (H0 : passesShebangLoop [plainBlock; scriptBlock] 0).
  { exists plainBlock. repeat split. }
  split; [exact H0|].
  apply (proj1 (proj2 (shebang_comes_from_first_qualifying_block
                         Sample.relative Sample.cwd
                         [plainBlock; scriptBlock] [0] 1 [] scriptBlock
                         (fun j Hj =>
                            eq_ind_r (passesShebangLoop [plainBlock; scriptBlock]) H0
                                     (proj1 (list_elem_of_singleton j 0) Hj))
                         eq_refl))).
  - vm_compute. reflexivity.
  - vm_compute. reflexivity.
Defined.

(** The scenario of a script whose first content line is the shebang: the
    line opens the target and the body keeps the rest once. *)
Example shebang_lifted_from_content :
  let store := Sample.blocksOf shebangDoc in
  (fst <$> generateContent Sample.relative Sample.cwd store [0]
                           (buildBlockIndex store) "/d/run")
  = Some (Sample.document
            ["#!/usr/bin/env sh";
             "// This file is auto-generated by organjsm tangle. Do not edit directly.";
             "// Source: d/a.org";
             "";
             "// [[file:d/a.org::2]]";
             "echo ok";
             "// hdr ends here";
             ""]).
Proof. vm_compute. reflexivity. Qed.

(** C4 as stated fails: the second block of the target bears a [shebang]
    argument, yet the shebang of the target is the first line of the first
    block, lifted out of its content. *)
Lemma content_shebang_precedes_later_argument :
  let store := Sample.blocksOf twoShebangsDoc in
  let index := buildBlockIndex store in
  groupByTarget Sample.dirname Sample.resolve store = [("/d/run", [0; 1])]
  /\ ((headerArgs <$> store !! 1) ≫= (fun a => a !! "shebang"))
     = Some (VStr "#!/bin/bash")
  /\ (fst <$> findShebang store [0; 1]) = Some (Some "#!/bin/sh")
  /\ (fst <$> generateContent Sample.relative Sample.cwd store [0; 1] index "/d/run")
     = Some (Sample.document ["#!/bin/sh"; "echo one"; "echo two"]).
Proof. vm_compute. repeat split; reflexivity. Qed.

Lemma target_assembly_rewrites_only_lifted_content_witness :
  let store := Sample.blocksOf shebangDoc in
  let index := buildBlockIndex store in
  exists text store',
    generateContent Sample.relative Sample.cwd store [0] index "/d/run"
    = Some (text, store')
    /\ List.length store' = List.length store
    /\ Forall2 sameButContent store store'
    /\ buildBlockIndex store' = index.
Proof.
  intros store index.
  destruct (generateContent Sample.relative Sample.cwd store [0] index "/d/run")
    as [[text store']|] eqn:E; [|vm_compute in E; discriminate].
  exists text, store'. split; [reflexivity|].
  destruct (target_assembly_rewrites_only_lifted_content
              Sample.dirname Sample.resolve Sample.relative Sample.cwd
              store [0] index "/d/run" text store' E) as (_ & H2 & H3 & H4 & _).
  split; [exact H2|]. split; [exact H3 | exact H4].
Defined.

(** C6 as stated fails: after the assembly of the target [run], the block
    named [hdr] has lost the first line of its content, and the expansion
    of a reference to [hdr] through the index has changed with it. *)
Lemma assembly_rewrites_block_content :
  let store := Sample.blocksOf shebangDoc in
  let index := buildBlockIndex store in
  match generateContent Sample.relative Sample.cwd store [0] index "/d/run" with
  | Some (_, store') =>
      (content <$> store !! 0) = Some ("#!/usr/bin/env sh" +:+ nl +:+ "echo ok")
      /\ (content <$> store' !! 0) = Some "echo ok"
      /\ (fst <$> expandNoweb store index (expansionFuel index) "<<hdr>>" ∅ "")
         = Some ("#!/usr/bin/env sh" +:+ nl +:+ "echo ok")
      /\ (fst <$> expandNoweb store' index (expansionFuel index) "<<hdr>>" ∅ "")
         = Some "echo ok"
  | None => False
  end.
Proof. vm_compute. repeat split; reflexivity. Qed.

(* ===================================================================== *)
(** * The write loop: a failed write *)
(* ===================================================================== *)

Section MainFacts.

Variable dirname : string -> string.
Variable resolve : string -> string -> string.
Variable relative : string -> string -> string.
Variable cwd : string.
Variable World : Type.
Variable existsSync : string -> World -> bool.
Variable mkdirSync : string -> World -> string + World.
Variable writeFileSync : string -> string -> World -> string + World.
Variable verbose : bool.

Let Run := RunState World.
Let step := writeTarget dirname relative cwd World existsSync mkdirSync
                        writeFileSync false verbose.
Let loop := writeTargets dirname relative cwd World existsSync mkdirSync
                         writeFileSync false verbose.

Lemma writeTargets_app (blockIndex : BlockIndex) (pre post : Targets)
    (st st1 : Run) :
  loop blockIndex st pre = Some (Normal World st1) ->
  loop blockIndex st (pre ++ post) = loop blockIndex st1 post.
Proof.
  subst loop. revert st. induction pre as [|t pre IH]; intros st H; simpl in *.
  - inversion H. reflexivity.
  - destruct (writeTarget _ _ _ _ _ _ _ _ _ blockIndex st t) as [[st'|err st']|];
      try discriminate.
    apply IH. exact H.
Qed.

(** C5 (as amended).  When the creation of the output directory or the
    write of the file of a target throws, the error leaves the loop of
    [main]: the loop ends with that error in the state reached by the
    failing target, whatever targets follow, so the failing target and
    the later ones are not written while the earlier ones stay written;
    the handler around [main] prints the error and the process exits
    with status 1. *)
Theorem write_failure_aborts_the_run
    (blockIndex : BlockIndex) (pre : Targets) (targetPath : string)
    (ids : list nat) (post : Targets) (st st1 : Run)
    (text : string) (store' : Store) (err : string) :
  loop blockIndex st pre = Some (Normal World st1) ->
  generateContent relative cwd (blockStore World st1) ids blockIndex targetPath
  = Some (text, store') ->
  (existsSync (dirname targetPath) (world World st1) = false
   /\ mkdirSync (dirname targetPath) (world World st1) = inl err)
  \/ (exists w1,
        (if existsSync (dirname targetPath) (world World st1)
         then inr (world World st1)
         else mkdirSync (dirname targetPath) (world World st1)) = inr w1
        /\ writeFileSync targetPath text w1 = inl err) ->
  exists w,
    (w = world World st1
     \/ (existsSync (dirname targetPath) (world World st1) = false
         /\ mkdirSync (dirname targetPath) (world World st1) = inr w))
    /\ loop blockIndex st (pre ++ (targetPath, ids) :: post)
       = Some (Throw World err
                 (mkRun World store' w (console World st1) (written World st1)))
    /\ forall store0 w0 out0 e stT,
         loop (buildBlockIndex store0)
              (mkRun World store0 w0
                 (out0 ++ [Log ("Tangle targets: "
                                +:+ ofNat (List.length
                                             (groupByTarget dirname resolve store0)))])
                 0)
              (groupByTarget dirname resolve store0)
         = Some (Throw World e stT) ->
         mainFromTargets dirname resolve relative cwd World existsSync mkdirSync
                         writeFileSync false verbose store0 w0 out0
         = Some (ExitCode 1,
                 mkRun World (blockStore World stT) (world World stT)
                       (console World stT ++ [Error e]) (written World stT)).
Proof.
  intros Hpre Hgen Hfail.
  assert (Hstep : exists w,
             (w = world World st1
              \/ (existsSync (dirname targetPath) (world World st1) = false
                  /\ mkdirSync (dirname targetPath) (world World st1) = inr w))
             /\ step blockIndex st1 (targetPath, ids)
                = Some (Throw World err
                          (mkRun World store' w (console World st1)
                                 (written World st1)))).
  { subst step. unfold writeTarget. rewrite Hgen.
    destruct Hfail as [[He Hm]|(w1 & Hd & Hw)].
    - rewrite He, Hm. exists (world World st1). split; [left; reflexivity | reflexivity].
    - destruct (existsSync (dirname targetPath) (world World st1)) eqn:He.
      + inversion Hd; subst w1. rewrite Hw.
        exists (world World st1). split; [left; reflexivity | reflexivity].
      + exists w1. split; [right; split; [reflexivity | exact Hd]|].
        rewrite Hd, Hw. reflexivity. }
  destruct Hstep as (w & Hw & Hstep). exists w. split; [exact Hw|]. split.
  - rewrite (writeTargets_app blockIndex pre _ st st1 Hpre).
    subst loop step. cbn [writeTargets]. rewrite Hstep. reflexivity.
  - intros store0 w0 out0 e stT Hrun. subst loop.
    unfold mainFromTargets. rewrite Hrun. reflexivity.
Qed.

End MainFacts.

Definition readOnlyDoc : string :=
  Sample.document
    ["#+begin_src txt :tangle a.txt"; "first"; "#+end_src";
     "#+begin_src txt :tangle ro/b.txt"; "second"; "#+end_src";
     "#+begin_src txt :tangle c.txt"; "third"; "#+end_src"].

(** The run of [main] on a store with the sample runtime. *)
Definition sampleRun (store : Store) : option (Exit * RunState Sample.Fs) :=
  mainFromTargets Sample.dirname Sample.resolve Sample.relative Sample.cwd
                  Sample.Fs Sample.existsSync Sample.mkdirSync Sample.writeFileSync
                  false true store [] [].

Lemma write_failure_aborts_the_run_witness :
  let store := Sample.blocksOf readOnlyDoc in
  let index := buildBlockIndex store in
  let st := mkRun Sample.Fs store [] [] 0 in
  let st1 := mkRun Sample.Fs store [("/d/a.txt", "first")] [Log "Wrote: d/a.txt"] 1 in
  exists w,
    (w = [("/d/a.txt", "first")]
     \/ (Sample.existsSync "/d" [("/d/a.txt", "first")] = false
         /\ Sample.mkdirSync "/d" [("/d/a.txt", "first")] = inr w))
    /\ writeTargets Sample.dirname Sample.relative Sample.cwd Sample.Fs
                    Sample.existsSync Sample.mkdirSync Sample.writeFileSync false true
                    index st
                    ([("/d/a.txt", [0])] ++ ("/d/ro/b.txt", [1]) :: [("/d/c.txt", [2])])
       = Some (Throw Sample.Fs "EACCES: permission denied, open /d/ro/b.txt"
                 (mkRun Sample.Fs store w [Log "Wrote: d/a.txt"] 1)).
Proof.
  intros store index st st1.
  destruct (write_failure_aborts_the_run
              Sample.dirname Sample.resolve Sample.relative Sample.cwd Sample.Fs
              Sample.existsSync Sample.mkdirSync Sample.writeFileSync true
              index [("/d/a.txt", [0])] "/d/ro/b.txt" [1] [("/d/c.txt", [2])]
              st st1 "second" store "EACCES: permission denied, open /d/ro/b.txt")
    as (w & H1 & H2 & _).
  - vm_compute. reflexivity.
  - vm_compute. reflexivity.
  - right. exists [("/d/a.txt", "first")]. split; vm_compute; reflexivity.
  - exists w. split; [exact H1 | exact H2].
Defined.

(** C5 as stated fails: the write of the second target throws, the third
    target could be written and is not, and the run ends with status 1
    after the error has been printed. *)
Lemma failed_write_stops_later_targets :
  groupByTarget Sample.dirname Sample.resolve (Sample.blocksOf readOnlyDoc)
  = [("/d/a.txt", [0]); ("/d/ro/b.txt", [1]); ("/d/c.txt", [2])]
  /\ Sample.writeFileSync "/d/c.txt" "third" [("/d/a.txt", "first")]
     = inr [("/d/a.txt", "first"); ("/d/c.txt", "third")]
  /\ ((fun r => (fst r, world Sample.Fs (snd r), console Sample.Fs (snd r)))
        <$> sampleRun (Sample.blocksOf readOnlyDoc))
     = Some (ExitCode 1,
             [("/d/a.txt", "first")],
             [Log "Tangle targets: 3"; Log "Wrote: d/a.txt";
              Error "EACCES: permission denied, open /d/ro/b.txt"]).
Proof. vm_compute. repeat split; reflexivity. Qed.


(* ===================================================================== *)
(** * Further properties: the header parser *)
(* ===================================================================== *)

(** Every character of the string satisfies [p]. *)
Fixpoint allChars (p : ascii -> bool) (s : string) : bool :=
  match s with
  | "" => true
  | String c r => p c && allChars p r
  end.

(** The character class of an unquoted value: neither white space nor a colon. *)
Definition isValueChar (c : ascii) : bool :=
  negb (isSpace c) && negb (Ascii.eqb c ":"%char).

(** The string is empty or its first character fails [p]. *)
Definition stopsAt (p : ascii -> bool) (r : string) : bool :=
  match r with
  | "" => true
  | String c _ => negb (p c)
  end.

Lemma span_fst_all (p : ascii -> bool) (s : string) :
  allChars p (fst (span p s)) = true.
Proof.
  induction s as [|c s IH]; simpl; [reflexivity|].
  destruct (p c) eqn:E; [|reflexivity].
  destruct (span p s) as [a b]. simpl in *. rewrite E, IH. reflexivity.
Qed.

Lemma span_all (p : ascii -> bool) (s a r : string) :
  span p s = (a, r) -> allChars p a = true.
Proof. intros H. pose proof (span_fst_all p s) as G. rewrite H in G. exact G. Qed.

Lemma span_stop (p : ascii -> bool) (a r : string) :
  allChars p a = true -> stopsAt p r = true -> span p (a +:+ r) = (a, r).
Proof.
  intros Ha Hr. induction a as [|c a IH]; simpl in *.
  - destruct r as [|d r]; [reflexivity|]. simpl in Hr.
    apply negb_true_iff in Hr. simpl. rewrite Hr. reflexivity.
  - apply andb_prop in Ha as [Hc Ha]. rewrite Hc, (IH Ha). reflexivity.
Qed.

Lemma allChars_impl (p q : ascii -> bool) (s : string) :
  (forall c, p c = true -> q c = true) -> allChars p s = true -> allChars q s = true.
Proof.
  intros H. induction s as [|c s IH]; simpl; [reflexivity|].
  intros G. apply andb_prop in G as [G1 G2]. rewrite (H c G1), (IH G2). reflexivity.
Qed.

Lemma allChars_drop (p : ascii -> bool) (n : nat) (s : string) :
  allChars p s = true -> allChars p (drop n s) = true.
Proof.
  revert s. induction n as [|n IH]; intros s H; [exact H|].
  destruct s as [|c s]; simpl; [reflexivity|].
  simpl in H. apply andb_prop in H as [_ H]. apply IH. exact H.
Qed.

Lemma allChars_dropLast (p : ascii -> bool) (s : string) :
  allChars p s = true -> allChars p (dropLast s) = true.
Proof.
  induction s as [|c s IH]; intros H; [reflexivity|].
  destruct s as [|d s]; [reflexivity|].
  change (dropLast (String c (String d s))) with (String c (dropLast (String d s))).
  change (p c && allChars p (String d s) = true) in H.
  apply andb_prop in H as [H1 H2].
  change (p c && allChars p (dropLast (String d s)) = true).
  rewrite H1, (IH H2). reflexivity.
Qed.

(** A match of the key prefix yields a non-empty key made of key characters. *)
Lemma matchKeyAt_key (s key r : string) (n : nat) :
  matchKeyAt s = Some (key, n, r) ->
  key <> "" /\ allChars isKeyChar key = true /\ startsWith s ":" = true.
Proof.
  unfold matchKeyAt. intros H.
  destruct s as [|c s]; [discriminate|].
  destruct (Ascii.eqb_spec c ":"%char) as [->|Hc].
  - destruct (span isKeyChar s) as [k r1] eqn:E1.
    destruct (isEmpty k) eqn:E2; [discriminate|].
    destruct (span isSpace r1) as [ws r2].
    destruct (isEmpty ws); [discriminate|].
    inversion H; subst. split; [apply isEmpty_false; exact E2|].
    split; [eapply span_all; exact E1 | simpl; apply startsWith_nil].
  - exfalso. destruct c as [[] [] [] [] [] [] [] []]; try discriminate.
    apply Hc. reflexivity.
Qed.

Lemma matchArgAt_spec (s key v : string) (n : nat) :
  matchArgAt s = Some (key, v, n) ->
  key <> "" /\ allChars isKeyChar key = true
  /\ v <> "" /\ allChars isValueChar v = true /\ startsWith s ":" = true.
Proof.
  unfold matchArgAt. intros H.
  destruct (matchKeyAt s) as [[[k m] r]|] eqn:E; [|discriminate].
  destruct (span _ r) as [w r'] eqn:E1.
  destruct (isEmpty w) eqn:E2; [discriminate|].
  inversion H; subst.
  destruct (matchKeyAt_key _ _ _ _ E) as (K1 & K2 & K3).
  repeat split; try assumption.
  - apply isEmpty_false. exact E2.
  - eapply span_all. exact E1.
Qed.

Lemma matchFlagAt_spec (s key tok : string) (n : nat) :
  matchFlagAt s = Some (key, tok, n) ->
  key <> "" /\ allChars isKeyChar key = true /\ startsWith s ":" = true.
Proof.
  unfold matchFlagAt. intros H.
  destruct (matchKeyAt s) as [[[k m] r]|] eqn:E; [|discriminate].
  destruct (matchFlagToken r); [|discriminate].
  inversion H; subst. eapply matchKeyAt_key. exact E.
Qed.

(** Every result of a global scan is a match of the pattern at some
    position. *)
Lemma execAllFrom_elem {A} (matchAt : string -> option (A * nat)) (s : string) :
  forall skip m, m ∈ execAllFrom matchAt skip s ->
                 exists s' len, matchAt s' = Some (m, len).
Proof.
  induction s as [|c s IH]; intros skip m H; simpl in H.
  - inversion H.
  - destruct skip as [|k]; [|eapply IH; exact H].
    destruct (matchAt (String c s)) as [[m' len]|] eqn:E.
    + apply elem_of_cons in H as [->|H]; [eauto | eapply IH; exact H].
    + eapply IH. exact H.
Qed.

(** A pattern that starts with a colon finds nothing in a text without
    colons. *)
Lemma execAllFrom_no_colon {A} (matchAt : string -> option (A * nat)) (s : string) :
  (forall s' x, matchAt s' = Some x -> startsWith s' ":" = true) ->
  allChars (fun c => negb (Ascii.eqb c ":"%char)) s = true ->
  forall skip, execAllFrom matchAt skip s = [].
Proof.
  intros Hm. induction s as [|c s IH]; intros Hs skip; simpl; [reflexivity|].
  simpl in Hs. apply andb_prop in Hs as [Hc Hs].
  destruct skip as [|k]; [|apply IH; exact Hs].
  destruct (matchAt (String c s)) as [[m len]|] eqn:E; [|apply IH; exact Hs].
  apply Hm in E. change (Ascii.eqb ":"%char c && startsWith s "" = true) in E.
  apply andb_prop in E as [E _].
  apply Ascii.eqb_eq in E. subst c. discriminate.
Qed.

(** A well-formed argument object: keys are non-empty runs of key
    characters other than [__proto__], and string values hold neither
    white space nor a colon. *)
Definition wellFormedArgs (args : Args) : Prop :=
  forall key val, args !! key = Some val ->
    key <> "" /\ allChars isKeyChar key = true /\ key <> "__proto__"
    /\ match val with
       | VStr s => allChars isValueChar s = true
       | VBool _ => True
       end.

Lemma setArg_wellFormed (key : string) (v : Value) (args : Args) :
  wellFormedArgs args ->
  key <> "" -> allChars isKeyChar key = true ->
  match v with VStr s => allChars isValueChar s = true | VBool _ => True end ->
  wellFormedArgs (setArg key v args).
Proof.
  intros Hargs K1 K2 Hv k val H. unfold setArg in H.
  destruct (String.eqb_spec key "__proto__") as [E|E]; [apply Hargs; exact H|].
  destruct (decide (k = key)) as [->|Hne].
  - rewrite lookup_insert_eq in H. inversion H; subst. auto.
  - rewrite lookup_insert_ne in H by congruence. apply Hargs. exact H.
Qed.

Lemma fold_left_invariant {A B} (P : A -> Prop) (Q : B -> Prop)
    (f : A -> B -> A) (l : list B) (a : A) :
  (forall a b, P a -> Q b -> P (f a b)) ->
  P a -> (forall b, b ∈ l -> Q b) -> P (fold_left f l a).
Proof.
  intros Hf. revert a. induction l as [|b l IH]; intros a Ha Hl; simpl; [exact Ha|].
  apply IH.
  - apply Hf; [exact Ha | apply Hl; apply list_elem_of_here].
  - intros b' Hb'. apply Hl. apply list_elem_of_further. exact Hb'.
Qed.

Lemma headerArgsOf_wellFormed (argsStr : string) :
  wellFormedArgs (headerArgsOf argsStr).
Proof.
  unfold headerArgsOf.
  apply (fold_left_invariant wellFormedArgs
           (fun m => fst m <> "" /\ allChars isKeyChar (fst m) = true)).
  - intros a [k t] Ha [K1 K2]. unfold applyFlag.
    apply setArg_wellFormed; auto.
  - apply (fold_left_invariant wellFormedArgs
             (fun m => fst m <> "" /\ allChars isKeyChar (fst m) = true
                       /\ allChars isValueChar (snd m) = true)).
    + intros a [k v] Ha (K1 & K2 & K3). unfold applyArg.
      apply setArg_wellFormed; auto.
      destruct (startsWith v dquote && endsWith v dquote); [|exact K3].
      unfold slice1. apply allChars_dropLast. apply allChars_drop. exact K3.
    + intros key val H. rewrite lookup_empty in H. discriminate.
    + intros [k v] H. unfold argMatches in H.
      apply execAllFrom_elem in H as (s' & len & H).
      destruct (matchArgAt s') as [[[k' v'] n]|] eqn:E; [|discriminate].
      simpl in H. inversion H; subst.
      destruct (matchArgAt_spec _ _ _ _ E) as (K1 & K2 & _ & K4 & _). auto.
  - intros [k t] H. unfold flagMatches in H.
    apply execAllFrom_elem in H as (s' & len & H).
    destruct (matchFlagAt s') as [[[k' t'] n]|] eqn:E; [|discriminate].
    simpl in H. inversion H; subst.
    destruct (matchFlagAt_spec _ _ _ _ E) as (K1 & K2 & _). auto.
Qed.


(** X1.  Whatever the argument text, the object that [parseHeaderArgs]
    builds from it binds only non-empty keys made of letters, digits,
    underscores and hyphens, never the key [__proto__], and a key bound to
    a string is bound to one that holds neither white space nor a colon:
    a value is cut at the first of them. *)
Theorem headerArgs_are_well_formed (argsStr : string) :
  wellFormedArgs (headerArgsOf argsStr).
Proof. exact (headerArgsOf_wellFormed argsStr). Qed.

Lemma headerArgs_are_well_formed_witness :
  headerArgsOf ":tangle src/a:b.ts" !! "tangle" = Some (VStr "src/a")
  /\ allChars isValueChar "src/a" = true.
Proof.
  split; [vm_compute; reflexivity|].
  assert (H : headerArgsOf ":tangle src/a:b.ts" !! "tangle" = Some (VStr "src/a"))
    by (vm_compute; reflexivity).
  exact (proj2 (proj2 (proj2 (headerArgs_are_well_formed _ _ _ H)))).
Defined.

Lemma allChars_value_no_colon (v : string) :
  allChars isValueChar v = true ->
  allChars (fun c => negb (Ascii.eqb c ":"%char)) v = true.
Proof.
  apply allChars_impl. intros c H. unfold isValueChar in H.
  apply andb_prop in H as [_ H]. exact H.
Qed.

Lemma isKeyChar_not_colon (c : ascii) :
  isKeyChar c = true -> negb (Ascii.eqb c ":"%char) = true.
Proof.
  intros H. destruct (Ascii.eqb_spec c ":"%char) as [->|]; [|reflexivity].
  vm_compute in H. discriminate.
Qed.

Lemma allChars_append (p : ascii -> bool) (a b : string) :
  allChars p (a +:+ b) = allChars p a && allChars p b.
Proof.
  induction a as [|c a IH]; simpl; [reflexivity|].
  rewrite IH. apply andb_assoc.
Qed.

Lemma length_append (a b : string) :
  String.length (a +:+ b) = String.length a + String.length b.
Proof. induction a as [|c a IH]; simpl; [reflexivity | rewrite IH; reflexivity]. Qed.

Section SingleArgument.

Variable key v : string.
Hypothesis key_nonempty : key <> "".
Hypothesis key_chars : allChars isKeyChar key = true.
Hypothesis value_nonempty : v <> "".
Hypothesis value_chars : allChars isValueChar v = true.

Local Abbreviation text := (":" +:+ key +:+ " " +:+ v).

Lemma single_matchKeyAt :
  matchKeyAt text = Some (key, 1 + String.length key + 1, v).
Proof.
  unfold matchKeyAt.
  change (":" +:+ key +:+ " " +:+ v) with (String ":"%char (key +:+ " " +:+ v)).
  cbv iota beta.
  rewrite (span_stop isKeyChar key (" " +:+ v) key_chars eq_refl).
  rewrite (proj2 (isEmpty_false key) key_nonempty).
  assert (Hv : stopsAt isSpace v = true).
  { destruct v as [|c r]; [reflexivity|]. simpl in *.
    apply andb_prop in value_chars as [H _]. unfold isValueChar in H.
    apply andb_prop in H as [H _]. exact H. }
  rewrite (span_stop isSpace " " v eq_refl Hv). reflexivity.
Qed.

Lemma single_rest_no_colon :
  allChars (fun c => negb (Ascii.eqb c ":"%char)) (key +:+ " " +:+ v) = true.
Proof.
  rewrite !allChars_append.
  rewrite (allChars_impl isKeyChar _ key isKeyChar_not_colon key_chars).
  rewrite (allChars_value_no_colon v value_chars). reflexivity.
Qed.

Lemma single_argMatches : argMatches text = [(key, v)].
Proof.
  unfold argMatches.
  change (":" +:+ key +:+ " " +:+ v) with (String ":"%char (key +:+ " " +:+ v)).
  cbn [execAllFrom].
  change (String ":"%char (key +:+ " " +:+ v)) with (":" +:+ key +:+ " " +:+ v).
  unfold matchArgAt. rewrite single_matchKeyAt.
  pose proof (span_stop (fun c => negb (isSpace c) && negb (Ascii.eqb c ":"%char))
                        v "" value_chars eq_refl) as Hs.
  rewrite append_nil_r in Hs. rewrite Hs.
  rewrite (proj2 (isEmpty_false v) value_nonempty). cbn [fmap option_fmap option_map].
  f_equal. apply execAllFrom_no_colon; [|exact single_rest_no_colon].
  intros s' x Hx.
  destruct (match matchKeyAt s' with Some _ => _ | None => _ end)
    as [[[k' v'] n']|] eqn:E; [|discriminate].
  apply (matchArgAt_spec s' k' v' n'). exact E.
Qed.

Lemma single_flagMatches :
  flagMatches text = match matchFlagToken v with
                     | Some tok => [(key, tok)]
                     | None => []
                     end.
Proof.
  unfold flagMatches.
  change (":" +:+ key +:+ " " +:+ v) with (String ":"%char (key +:+ " " +:+ v)).
  cbn [execAllFrom].
  change (String ":"%char (key +:+ " " +:+ v)) with (":" +:+ key +:+ " " +:+ v).
  unfold matchFlagAt. rewrite single_matchKeyAt.
  assert (Hrest : forall k,
             execAllFrom (fun s => (fun '(k0, v0, n) => (k0, v0, n)) <$>
                            match matchKeyAt s with
                            | Some (key0, n, r) =>
                                match matchFlagToken r with
                                | Some tok => Some (key0, tok, n + String.length tok)
                                | None => None
                                end
                            | None => None
                            end) k (key +:+ " " +:+ v) = []).
  { intros k. apply execAllFrom_no_colon; [|exact single_rest_no_colon].
    intros s' x Hx.
    destruct (match matchKeyAt s' with Some _ => _ | None => _ end)
      as [[[k' t'] n']|] eqn:E; [|discriminate].
    apply (matchFlagAt_spec s' k' t' n'). exact E. }
  destruct (matchFlagToken v) as [tok|]; cbn [fmap option_fmap option_map].
  - f_equal. apply Hrest.
  - apply Hrest.
Qed.

(** X2.  One argument, written as a colon, a key, a space and an
    unquoted value, parses back to that key alone.  The key is bound to
    the value as a string (without its double quotes when it both starts
    and ends with one), unless the value begins with [yes], [no], [t] or
    [nil], in any letter case, followed by a character that is not a
    letter, a digit or an underscore (or by nothing): then the key is
    bound to the boolean of that word and the rest of the value is lost,
    as for the path [t.ts] or the name [no-op]. *)
Theorem single_argument_parse :
  key <> "__proto__" ->
  headerArgsOf (":" +:+ key +:+ " " +:+ v)
  = match matchFlagToken v with
    | Some tok => {[ key := VBool (flagValue tok) ]}
    | None =>
        {[ key := VStr (if startsWith v dquote && endsWith v dquote
                        then slice1 v else v) ]}
    end.
Proof.
  intros Hk. unfold headerArgsOf.
  rewrite single_argMatches, single_flagMatches.
  cbn [fold_left]. unfold applyArg, setArg.
  rewrite (proj2 (String.eqb_neq key "__proto__") Hk).
  destruct (matchFlagToken v) as [tok|]; cbn [fold_left].
  - unfold applyFlag, setArg. fold (flagValue tok).
    rewrite (proj2 (String.eqb_neq key "__proto__") Hk).
    rewrite insert_insert_eq. reflexivity.
  - reflexivity.
Qed.

End SingleArgument.

Lemma single_argument_parse_witness :
  headerArgsOf (":" +:+ "tangle" +:+ " " +:+ "t.ts") = {[ "tangle" := VBool true ]}
  /\ headerArgsOf (":" +:+ "noweb-ref" +:+ " " +:+ "no-op") = {[ "noweb-ref" := VBool false ]}
  /\ headerArgsOf (":" +:+ "tangle" +:+ " " +:+ "out.ts") = {[ "tangle" := VStr "out.ts" ]}.
Proof.
  split; [|split].
  - apply (single_argument_parse "tangle" "t.ts"); (discriminate || reflexivity).
  - apply (single_argument_parse "noweb-ref" "no-op"); (discriminate || reflexivity).
  - apply (single_argument_parse "tangle" "out.ts"); (discriminate || reflexivity).
Defined.

Lemma startsWithCI_append_l (a b p : string) :
  startsWithCI a p = true -> startsWithCI (a +:+ b) p = true.
Proof.
  revert a. induction p as [|c p IH]; intros a H; [destruct (a +:+ b); reflexivity|].
  destruct a as [|d a]; [discriminate|].
  simpl in *. apply andb_prop in H as [H1 H2]. rewrite H1, (IH a H2). reflexivity.
Qed.

Lemma drop_length_append (a b : string) : drop (String.length a) (a +:+ b) = b.
Proof. induction a as [|c a IH]; [reflexivity | exact IH]. Qed.

(** X3.  On an opening fence, in any letter case, followed by white
    space, a language token and a rest that is empty or begins with
    white space, [parseHeaderArgs] returns the token as written and the
    arguments read from the trimmed rest.  The empty language and no
    argument are returned where a line terminator stands in the rest,
    where no white space follows the opener (as in [#+begin_src_python]),
    where nothing but white space follows it, and where the line does
    not begin with the opener. *)
Theorem parseHeaderArgs_language (fence : string) :
  String.length fence = 11 -> startsWithCI fence "#+begin_src" = true ->
  (forall ws lang rest,
      ws <> "" -> allChars isSpace ws = true ->
      lang <> "" -> allChars (fun c => negb (isSpace c)) lang = true ->
      stopsAt (fun c => negb (isSpace c)) rest = true ->
      parseHeaderArgs (fence +:+ ws +:+ lang +:+ rest)
      = if existsb isLineTerminator rest then ("", ∅)
        else (lang, headerArgsOf (trim rest)))
  /\ (forall rest, stopsAt isSpace rest = true ->
                   parseHeaderArgs (fence +:+ rest) = ("", ∅))
  /\ (forall ws, allChars isSpace ws = true ->
                 parseHeaderArgs (fence +:+ ws) = ("", ∅))
  /\ (forall line, startsWithCI line "#+begin_src" = false ->
                   parseHeaderArgs line = ("", ∅)).
Proof.
  intros Hlen Hfence.
  assert (Hd : forall x, drop 11 (fence +:+ x) = x).
  { intros x. rewrite <- Hlen. apply drop_length_append. }
  assert (Hs : forall x, startsWithCI (fence +:+ x) "#+begin_src" = true).
  { intros x. apply startsWithCI_append_l. exact Hfence. }
  split; [|split; [|split]].
  - intros ws lang rest W1 W2 L1 L2 R1.
    unfold parseHeaderArgs, matchBeginSrc. rewrite Hs, Hd.
    assert (St : stopsAt isSpace (lang +:+ rest) = true).
    { destruct lang as [|c lang]; [contradiction|]. simpl in *.
      apply andb_prop in L2 as [L2 _]. exact L2. }
    rewrite (span_stop isSpace ws (lang +:+ rest) W2 St).
    rewrite (proj2 (isEmpty_false ws) W1).
    rewrite (span_stop (fun c => negb (isSpace c)) lang rest L2 R1).
    rewrite (proj2 (isEmpty_false lang) L1).
    destruct (existsb isLineTerminator rest); reflexivity.
  - intros rest R. unfold parseHeaderArgs, matchBeginSrc. rewrite Hs, Hd.
    pose proof (span_stop isSpace "" rest eq_refl R) as E. cbn [String.append] in E.
    rewrite E. reflexivity.
  - intros ws W. unfold parseHeaderArgs, matchBeginSrc. rewrite Hs, Hd.
    pose proof (span_stop isSpace ws "" W eq_refl) as E. rewrite append_nil_r in E.
    rewrite E. destruct (isEmpty ws); reflexivity.
  - intros line H. unfold parseHeaderArgs, matchBeginSrc. rewrite H. reflexivity.
Qed.

Lemma parseHeaderArgs_language_witness :
  parseHeaderArgs ("#+BEGIN_SRC" +:+ "  " +:+ "TypeScript" +:+ " :tangle out.ts")
  = ("TypeScript", {[ "tangle" := VStr "out.ts" ]})
  /\ parseHeaderArgs ("#+begin_src" +:+ "_python") = ("", ∅)
  /\ parseHeaderArgs ("#+begin_src" +:+ "  ") = ("", ∅)
  /\ parseHeaderArgs "begin_src ts :tangle out.ts" = ("", ∅).
Proof.
  destruct (parseHeaderArgs_language "#+BEGIN_SRC" eq_refl eq_refl) as (H1 & _ & _ & _).
  destruct (parseHeaderArgs_language "#+begin_src" eq_refl eq_refl) as (_ & H2 & H3 & H4).
  split; [|split; [|split]].
  - rewrite (H1 "  " "TypeScript" " :tangle out.ts");
      try reflexivity; try discriminate.
  - apply H2. reflexivity.
  - apply H3. reflexivity.
  - apply H4. reflexivity.
Defined.

(* ===================================================================== *)
(** * Further properties: the document scanner *)
(* ===================================================================== *)

(** The string contains a carriage return. *)
Definition hasCR (s : string) : bool := existsb (fun c => Ascii.eqb c CR) s.

Lemma hasCR_append (a b : string) : hasCR (a +:+ b) = hasCR a || hasCR b.
Proof.
  unfold hasCR. induction a as [|c a IH]; simpl; [reflexivity|].
  rewrite IH. apply orb_assoc.
Qed.

Lemma replace_cr_no_cr (s : string) : hasCR (replaceAll cr nl s) = false.
Proof.
  unfold replaceAll, hasCR. induction s as [|c s IH]; [reflexivity|].
  cbn [replaceAllFrom]. destruct (startsWith (String c s) cr) eqn:E.
  - change (String.length cr - 1) with 0.
    change (nl +:+ replaceAllFrom cr nl 0 s) with (String LF (replaceAllFrom cr nl 0 s)).
    cbn [existsb]. rewrite IH. reflexivity.
  - cbn [existsb]. rewrite IH.
    change (Ascii.eqb CR c && startsWith s "" = false) in E.
    rewrite startsWith_nil, andb_true_r in E.
    rewrite Ascii.eqb_sym, E. reflexivity.
Qed.

Lemma split_no_cr (s : string) :
  hasCR s = false -> Forall (fun l => hasCR l = false) (split LF s).
Proof.
  unfold hasCR. induction s as [|c s IH]; simpl; intros H.
  - apply Forall_single. reflexivity.
  - apply orb_false_iff in H as [H1 H2]. specialize (IH H2).
    destruct (Ascii.eqb c LF).
    + constructor; [reflexivity | exact IH].
    + destruct (split LF s) as [|x xs].
      * apply Forall_single. simpl. rewrite H1. reflexivity.
      * inversion IH; subst. constructor; [|assumption].
        simpl. rewrite H1. assumption.
Qed.

(** X4.  After the normalisation of line endings that opens both
    scanners, no line handed to the loop contains a carriage return or a
    line feed: CRLF, lone CR and LF all end a line and are dropped. *)
Theorem scanned_lines_have_no_line_ending (text : string) :
  Forall (fun l => hasCR l = false /\ hasLF l = false)
         (split LF (normalizeNewlines text)).
Proof.
  apply Forall_forall. intros l Hl. split.
  - pose proof (split_no_cr _ (replace_cr_no_cr (replaceAll (cr +:+ nl) nl text))) as H.
    rewrite Forall_forall in H. apply H. exact Hl.
  - pose proof (split_noLF (normalizeNewlines text)) as H.
    rewrite Forall_forall in H. apply H. exact Hl.
Qed.

(** A line that the scanner reads as the closing fence of a block when it
    is inside one. *)
Definition isEndSrc (line : string) : bool :=
  startsWith line "#+" && startsWith (toLowerCase (trim line)) "#+end_src".

(** [content += contentLine + '\n'] over the lines of a body. *)
Fixpoint bodyText (body : list string) : string :=
  match body with
  | [] => ""
  | l :: rest => unescapeLine l +:+ nl +:+ bodyText rest
  end.

Lemma stripFinalNewline_append (a b : string) :
  b <> "" -> stripFinalNewline (a +:+ b) = a +:+ stripFinalNewline b.
Proof.
  intros Hb. induction a as [|c a IH]; [reflexivity|].
  change (String c a +:+ b) with (String c (a +:+ b)).
  destruct (a +:+ b) as [|d r] eqn:E.
  - destruct a; [simpl in E; contradiction | discriminate].
  - change (stripFinalNewline (String c (String d r)))
      with (String c (stripFinalNewline (String d r))).
    rewrite IH. reflexivity.
Qed.

Lemma stripFinalNewline_bodyText (body : list string) :
  stripFinalNewline (bodyText body) = join nl (List.map unescapeLine body).
Proof.
  induction body as [|l body IH]; [reflexivity|].
  cbn [bodyText List.map].
  destruct body as [|l2 body].
  - cbn [bodyText List.map join]. rewrite stripFinalNewline_append by discriminate.
    rewrite append_nil_r. reflexivity.
  - rewrite stripFinalNewline_append
      by (cbn [bodyText]; destruct (unescapeLine l2); discriminate).
    change (nl +:+ bodyText (l2 :: body)) with (String LF (bodyText (l2 :: body))).
    assert (Hne : bodyText (l2 :: body) <> "")
      by (cbn [bodyText]; destruct (unescapeLine l2); discriminate).
    destruct (bodyText (l2 :: body)) as [|d r] eqn:E; [contradiction|].
    change (stripFinalNewline (String LF (String d r)))
      with (String LF (stripFinalNewline (String d r))).
    rewrite IH. reflexivity.
Qed.

Section ScannerMore.

Variable path : string.
Variable fileProperties : FileProperties.

(** Inside a block, every line that is not a closing fence is content. *)
Lemma scanLine_content (st : ScanState) (i : nat) (line : string) (b : SourceBlock) :
  inBlock st = true -> inExampleBlock st = false -> currentBlock st = Some b ->
  isEndSrc line = false ->
  scanLine path fileProperties st i line
  = mkScan (blocks st) (currentName st) true
           (Some (setContent b (content b +:+ unescapeLine line +:+ nl))) false.
Proof.
  unfold isEndSrc, scanLine. intros Hb He Hc H.
  rewrite Hb, He, Hc, H. cbn [negb andb]. rewrite !andb_false_r. reflexivity.
Qed.

Lemma scanLines_content (body : list string) :
  Forall (fun l => isEndSrc l = false) body ->
  forall st i b,
    inBlock st = true -> inExampleBlock st = false -> currentBlock st = Some b ->
    scanLines path fileProperties st i body
    = mkScan (blocks st) (currentName st) true
             (Some (setContent b (content b +:+ bodyText body))) false.
Proof.
  induction 1 as [|l body Hl _ IH]; intros st i b Hb He Hc.
  - simpl. rewrite append_nil_r. destruct st, b; simpl in *. subst. reflexivity.
  - cbn [scanLines]. rewrite (scanLine_content st i l b Hb He Hc Hl).
    rewrite (IH _ (S i) (setContent b (content b +:+ unescapeLine l +:+ nl)))
      by reflexivity.
    cbn [blocks currentName content setContent bodyText].
    rewrite !append_assoc. reflexivity.
Qed.

Lemma scanLine_endSrc (st : ScanState) (i : nat) (line : string) (b : SourceBlock) :
  inBlock st = true -> inExampleBlock st = false -> currentBlock st = Some b ->
  isEndSrc line = true ->
  scanLine path fileProperties st i line
  = mkScan (blocks st ++ [setContent (setEndLine b (Z.of_nat i))
                                     (stripFinalNewline (content b))])
           (currentName st) false None false.
Proof.
  unfold isEndSrc, scanLine. intros Hb He Hc H.
  rewrite Hb, He, Hc, H. cbn [negb andb]. rewrite !andb_false_r. reflexivity.
Qed.

(** X5.  Outside a block and outside an example, an opening fence, any
    lines none of which is a closing fence at column zero, and a closing
    fence add exactly one block to the result.  Its content is the body
    lines, each with one leading comma removed (and the narrower comma
    substitutions applied), joined by line feeds; its name is the pending
    name, its lines are numbered from the fence, and the scanner is back
    outside with no pending name. *)
Theorem fenced_body_becomes_one_block
    (st : ScanState) (i : nat) (fence : string) (body : list string) (closing : string) :
  inBlock st = false -> inExampleBlock st = false ->
  isBeginSrc fence = true ->
  Forall (fun l => isEndSrc l = false) body ->
  isEndSrc closing = true ->
  scanLines path fileProperties st i (fence :: body ++ [closing])
  = mkScan (blocks st
              ++ [setContent
                    (setEndLine (openBlock path fileProperties (currentName st) i fence)
                                (Z.of_nat (i + 1 + List.length body)))
                    (join nl (List.map unescapeLine body))])
           None false None false.
Proof.
  intros Hb He Hf Hbody Hc.
  cbn [scanLines]. rewrite (scanLine_beginSrc path fileProperties st i fence Hb He Hf).
  rewrite scanLines_app.
  rewrite (scanLines_content body Hbody _ (S i)
             (openBlock path fileProperties (currentName st) i fence))
    by reflexivity.
  cbn [scanLines blocks currentName].
  rewrite (scanLine_endSrc _ _ closing
             (setContent (openBlock path fileProperties (currentName st) i fence)
                (content (openBlock path fileProperties (currentName st) i fence)
                 +:+ bodyText body)))
    by (reflexivity || exact Hc).
  cbn [blocks currentName content setContent setEndLine name language headerArgs
       startLine contentStartLine endLine sourcePath].
  assert (E0 : content (openBlock path fileProperties (currentName st) i fence) = "").
  { unfold openBlock. destruct (parseHeaderArgs (trim fence)). reflexivity. }
  rewrite E0. change ("" +:+ bodyText body) with (bodyText body).
  rewrite stripFinalNewline_bodyText.
  replace (S i + List.length body) with (i + 1 + List.length body) by lia.
  reflexivity.
Qed.

(** Only a closing fence read inside a block adds a block to the result. *)
Lemma scanLine_blocks (st : ScanState) (i : nat) (line : string) :
  isEndSrc line = false ->
  blocks (scanLine path fileProperties st i line) = blocks st.
Proof.
  unfold isEndSrc, scanLine. intros H. rewrite H. cbn [andb].
  repeat match goal with
         | |- context [if ?c then _ else _] => destruct c
         | |- context [match currentBlock st with _ => _ end] =>
             destruct (currentBlock st)
         end; reflexivity.
Qed.

Lemma scanLines_blocks (lines : list string) :
  Forall (fun l => isEndSrc l = false) lines ->
  forall st i, blocks (scanLines path fileProperties st i lines) = blocks st.
Proof.
  induction 1 as [|l lines Hl _ IH]; intros st i; [reflexivity|].
  cbn [scanLines]. rewrite IH. apply scanLine_blocks. exact Hl.
Qed.

End ScannerMore.

(** X6.  A block is recorded only at its closing fence: a document none
    of whose lines is a column-zero [#+end_src] yields no block, so a
    block left open at the end of the document is dropped with its
    content. *)
Theorem unterminated_block_is_dropped (text path : string) (fp : FileProperties) :
  Forall (fun l => isEndSrc l = false) (split LF (normalizeNewlines text)) ->
  extractBlocks text path fp = [].
Proof.
  intros H. unfold extractBlocks. rewrite scanLines_blocks by exact H. reflexivity.
Qed.

Lemma fenced_body_becomes_one_block_witness :
  blocks (scanLines "/d/a.org" emptyProps initialScan 0
            ("#+begin_src sh :tangle run.sh"
               :: [",#+end_src"; "  #+end_src"; ",,x"] ++ ["#+END_SRC"]))
  = [mkBlock None "sh" (Sample.document ["#+end_src"; "  #+end_src"; ",x"])
             {[ "tangle" := VStr "run.sh" ]} 0 1 4 "/d/a.org"].
Proof.
  rewrite (fenced_body_becomes_one_block "/d/a.org" emptyProps initialScan 0
             "#+begin_src sh :tangle run.sh"
             [",#+end_src"; "  #+end_src"; ",,x"] "#+END_SRC").
  - vm_compute. reflexivity.
  - reflexivity.
  - reflexivity.
  - vm_compute. reflexivity.
  - repeat constructor.
  - vm_compute. reflexivity.
Defined.

Lemma unterminated_block_is_dropped_witness :
  extractBlocks (Sample.document ["#+begin_src sh :tangle run.sh"; "echo ok"; " #+end_src"])
                "/d/a.org" emptyProps = [].
Proof.
  apply unterminated_block_is_dropped. vm_compute. repeat constructor.
Defined.

Lemma replaceAllFrom_absent (c0 : ascii) (p rep s : string) :
  existsb (fun c => Ascii.eqb c c0) s = false ->
  replaceAllFrom (String c0 p) rep 0 s = s.
Proof.
  induction s as [|c s IH]; [reflexivity|].
  cbn [existsb]. intros H. apply orb_false_iff in H as [H1 H2].
  cbn [replaceAllFrom].
  change (startsWith (String c s) (String c0 p))
    with (Ascii.eqb c0 c && startsWith s p).
  rewrite Ascii.eqb_sym, H1. cbn [andb]. rewrite (IH H2). reflexivity.
Qed.

(** X7.  On a content line without a backtick, the unescaping removes
    exactly one leading comma and nothing else: a line that starts with a
    comma loses it, so [,#+end_src] becomes [#+end_src] and two commas
    become one, and any other line is kept as it is. *)
Theorem leading_comma_is_removed_once (s : string) :
  hasLF s = false ->
  existsb (fun c => Ascii.eqb c "096"%char) s = false ->
  unescapeLine ("," +:+ s) = s
  /\ (startsWith s "," = false -> unescapeLine s = s).
Proof.
  intros HL HB.
  assert (R : replaceAll (backtick +:+ ",#+") (backtick +:+ "#+")
                (replaceAll (nl +:+ ",#+") (nl +:+ "#+") s) = s).
  { unfold replaceAll.
    change (nl +:+ ",#+") with (String LF ",#+").
    rewrite (replaceAllFrom_absent LF ",#+" _ s HL).
    change (backtick +:+ ",#+") with (String "096"%char ",#+").
    apply replaceAllFrom_absent. exact HB. }
  split.
  - unfold unescapeLine.
    change (startsWith ("," +:+ s) ",") with (true && startsWith s "").
    rewrite startsWith_nil. cbn [andb].
    change (drop 1 ("," +:+ s)) with s. exact R.
  - intros H. unfold unescapeLine. rewrite H. exact R.
Qed.

Lemma leading_comma_is_removed_once_witness :
  unescapeLine ("," +:+ ",#+begin_src sh") = ",#+begin_src sh"
  /\ unescapeLine ("," +:+ "#+end_src") = "#+end_src".
Proof.
  split.
  - apply (leading_comma_is_removed_once ",#+begin_src sh"); reflexivity.
  - apply (leading_comma_is_removed_once "#+end_src"); reflexivity.
Defined.

(** The span recorded in a block: the content starts on the line after
    the fence, the closing fence comes later and before line [limit], and
    the block names its document. *)
Definition spanOK (path : string) (limit : nat) (b : SourceBlock) : Prop :=
  contentStartLine b = startLine b + 1
  /\ (Z.of_nat (startLine b) < endLine b)%Z
  /\ (endLine b < Z.of_nat limit)%Z
  /\ sourcePath b = path.

(** Each block ends before the next one starts. *)
Definition inDocumentOrder (bs : list SourceBlock) : Prop :=
  forall j k bj bk, j < k -> bs !! j = Some bj -> bs !! k = Some bk ->
                    (endLine bj < Z.of_nat (startLine bk))%Z.

Section SpanFacts.

Variable path : string.
Variable fileProperties : FileProperties.

(** What one iteration does to the result and to the open block. *)
Lemma scanLine_shape (st : ScanState) (i : nat) (line : string) :
  let st' := scanLine path fileProperties st i line in
  (blocks st' = blocks st /\ currentBlock st' = currentBlock st)
  \/ (blocks st' = blocks st
      /\ currentBlock st' = Some (openBlock path fileProperties (currentName st) i line))
  \/ (exists b, currentBlock st = Some b
                /\ blocks st' = blocks st ++ [setContent (setEndLine b (Z.of_nat i))
                                                (stripFinalNewline (content b))]
                /\ currentBlock st' = None)
  \/ (exists b c, currentBlock st = Some b
                  /\ blocks st' = blocks st
                  /\ currentBlock st' = Some (setContent b c)).
Proof.
  unfold scanLine. cbv zeta.
  destruct (currentBlock st) as [b|] eqn:E;
    repeat match goal with
           | |- context [if ?c then _ else _] => destruct c
           end;
    cbn [blocks currentBlock];
    try (left; split; [reflexivity | first [reflexivity | exact E]]);
    try (right; left; split; reflexivity);
    try (right; right; left; exists b; repeat split; reflexivity);
    try (right; right; right; eexists b, _; repeat split; reflexivity).
Qed.

Definition ScanInv (i : nat) (st : ScanState) : Prop :=
  Forall (spanOK path i) (blocks st)
  /\ inDocumentOrder (blocks st)
  /\ (forall cb, currentBlock st = Some cb ->
        contentStartLine cb = startLine cb + 1 /\ startLine cb < i
        /\ sourcePath cb = path
        /\ Forall (fun b => (endLine b < Z.of_nat (startLine cb))%Z) (blocks st)).

Lemma spanOK_weaken (i : nat) (b : SourceBlock) : spanOK path i b -> spanOK path (S i) b.
Proof. intros (H1 & H2 & H3 & H4). repeat split; try assumption. lia. Qed.

Lemma inDocumentOrder_snoc (bs : list SourceBlock) (b : SourceBlock) :
  inDocumentOrder bs ->
  Forall (fun x => (endLine x < Z.of_nat (startLine b))%Z) bs ->
  inDocumentOrder (bs ++ [b]).
Proof.
  intros Hord Hall j k bj bk Hjk Hj Hk.
  destruct (decide (k < List.length bs)) as [Hlt|Hge].
  - rewrite lookup_app_l in Hk by exact Hlt.
    rewrite lookup_app_l in Hj by lia. exact (Hord j k bj bk Hjk Hj Hk).
  - assert (k = List.length bs) as ->.
    { apply lookup_lt_Some in Hk. rewrite length_app in Hk. simpl in Hk. lia. }
    rewrite lookup_app_l in Hj by lia.
    rewrite list_lookup_middle in Hk by reflexivity. inversion Hk; subst.
    rewrite Forall_forall in Hall. apply Hall.
    apply list_elem_of_lookup. eauto.
Qed.

Lemma scanLine_inv (st : ScanState) (i : nat) (line : string) :
  ScanInv i st -> ScanInv (S i) (scanLine path fileProperties st i line).
Proof.
  intros (H1 & H2 & H3).
  assert (W : Forall (spanOK path (S i)) (blocks st)).
  { eapply Forall_impl; [exact H1|]. intros b. apply spanOK_weaken. }
  destruct (scanLine_shape st i line)
    as [[E1 E2]|[[E1 E2]|[(b & Hb & E1 & E2)|(b & c & Hb & E1 & E2)]]].
  - unfold ScanInv. rewrite E1, E2. split; [exact W|]. split; [exact H2|].
    intros cb Hcb. destruct (H3 cb Hcb) as (G1 & G2 & G3 & G4).
    repeat split; try assumption. lia.
  - unfold ScanInv. rewrite E1, E2. split; [exact W|]. split; [exact H2|].
    intros cb Hcb. inversion Hcb; subst cb.
    unfold openBlock. destruct (parseHeaderArgs (trim line)) as [lang args].
    cbn [contentStartLine startLine sourcePath].
    repeat split; try lia.
    eapply Forall_impl; [exact H1|]. intros x (_ & _ & Hx & _). exact Hx.
  - destruct (H3 b Hb) as (G1 & G2 & G3 & G4).
    unfold ScanInv. rewrite E1, E2. split; [|split].
    + apply Forall_app. split; [exact W|]. apply Forall_single.
      unfold spanOK. cbn [contentStartLine startLine endLine sourcePath
                           setContent setEndLine].
      repeat split; try assumption; lia.
    + apply inDocumentOrder_snoc; [exact H2 | exact G4].
    + intros cb Hcb. discriminate.
  - destruct (H3 b Hb) as (G1 & G2 & G3 & G4).
    unfold ScanInv. rewrite E1, E2. split; [exact W|]. split; [exact H2|].
    intros cb Hcb. inversion Hcb; subst cb.
    cbn [contentStartLine startLine sourcePath setContent].
    repeat split; try assumption. lia.
Qed.

Lemma scanLines_inv (lines : list string) :
  forall st i, ScanInv i st ->
               ScanInv (i + List.length lines) (scanLines path fileProperties st i lines).
Proof.
  induction lines as [|l lines IH]; intros st i H; simpl.
  - rewrite Nat.add_0_r. exact H.
  - replace (i + S (List.length lines)) with (S i + List.length lines) by lia.
    apply IH. apply scanLine_inv. exact H.
Qed.

End SpanFacts.

Lemma blocks_have_ordered_spans_aux (text path : string) (fp : FileProperties) :
  Forall (spanOK path (List.length (split LF (normalizeNewlines text))))
         (extractBlocks text path fp)
  /\ inDocumentOrder (extractBlocks text path fp).
Proof.
  unfold extractBlocks.
  destruct (scanLines_inv path fp (split LF (normalizeNewlines text)) initialScan 0)
    as (H1 & H2 & _).
  - split; [constructor|]. split.
    + intros j k bj bk _ Hj. inversion Hj.
    + intros cb Hcb. discriminate.
  - split; assumption.
Qed.


(** X8.  Every block that [extractBlocks] returns names the document it
    was read from, has its content start on the line after its opening
    fence, and has its closing fence on a later line of the document; the
    blocks come in document order and do not overlap: each one ends before
    the next one starts. *)
Theorem blocks_have_ordered_spans (text path : string) (fp : FileProperties) :
  Forall (spanOK path (List.length (split LF (normalizeNewlines text))))
         (extractBlocks text path fp)
  /\ inDocumentOrder (extractBlocks text path fp).
Proof. exact (blocks_have_ordered_spans_aux text path fp). Qed.

Lemma blocks_have_ordered_spans_witness :
  List.map (fun b => (startLine b, endLine b)) (Sample.blocksOf namedBlockDoc)
  = [(4, 6%Z); (7, 9%Z)]
  /\ inDocumentOrder (Sample.blocksOf namedBlockDoc).
Proof.
  split; [vm_compute; reflexivity|].
  exact (proj2 (blocks_have_ordered_spans namedBlockDoc "/d/a.org"
                  (extractFileProperties namedBlockDoc))).
Defined.

(* ===================================================================== *)
(** * Further properties: the block index *)
(* ===================================================================== *)

(** The block is filed under the key: its non-empty name, or the truthy
    value of its [noweb-ref] argument ([nowebRef] when that one is
    falsy). *)
Definition keyedBy (b : SourceBlock) (k : Value) : Prop :=
  (exists n, name b = Some n /\ n <> "" /\ k = VStr n)
  \/ (jsOr (headerArgs b !! "noweb-ref") (headerArgs b !! "nowebRef") = Some k
      /\ truthy (Some k) = true).

Definition keyedByb (b : SourceBlock) (k : Value) : bool :=
  match name b with
  | Some n => negb (isEmpty n) && bool_decide (k = VStr n)
  | None => false
  end
  || (truthy (jsOr (headerArgs b !! "noweb-ref") (headerArgs b !! "nowebRef"))
      && bool_decide (jsOr (headerArgs b !! "noweb-ref") (headerArgs b !! "nowebRef")
                      = Some k)).

Lemma keyedByb_spec (b : SourceBlock) (k : Value) :
  keyedByb b k = true <-> keyedBy b k.
Proof.
  unfold keyedByb, keyedBy. rewrite orb_true_iff. split.
  - intros [H|H].
    + left. destruct (name b) as [n|]; [|discriminate].
      apply andb_prop in H as [H1 H2]. apply negb_true_iff, isEmpty_false in H1.
      apply bool_decide_eq_true in H2. eauto.
    + right. apply andb_prop in H as [H1 H2].
      apply bool_decide_eq_true in H2. rewrite H2 in H1. split; assumption.
  - intros [(n & H1 & H2 & H3)|[H1 H2]].
    + left. rewrite H1. apply andb_true_intro. split.
      * apply negb_true_iff, isEmpty_false. exact H2.
      * apply bool_decide_eq_true. exact H3.
    + right. rewrite H1, H2. apply bool_decide_eq_true. reflexivity.
Qed.

Lemma indexPush_lookup (key k : Value) (id : nat) (index : BlockIndex) :
  indexPush key id index !! k
  = if decide (key = k) then Some (default [] (index !! k) ++ [id]) else index !! k.
Proof.
  unfold indexPush. destruct (decide (key = k)) as [->|Hne].
  - apply lookup_insert_eq.
  - apply lookup_insert_ne. exact Hne.
Qed.

(** A block is pushed once under each of its keys, and under no other. *)
Lemma indexBlock_lookup (index : BlockIndex) (id : nat) (b : SourceBlock) (k : Value) :
  indexBlock index id b !! k
  = if keyedByb b k then Some (default [] (index !! k) ++ [id]) else index !! k.
Proof.
  unfold indexBlock, keyedByb.
  destruct (name b) as [n|]; [destruct (isEmpty n) eqn:En|];
    destruct (jsOr (headerArgs b !! "noweb-ref") (headerArgs b !! "nowebRef"))
      as [v|] eqn:Ej;
    cbn [negb andb orb];
    try destruct (truthy (Some v)) eqn:Et;
    cbn [negb andb orb differsFromName];
    rewrite ?indexPush_lookup;
    try (destruct v as [s|bv]; cbn [differsFromName];
         try destruct (String.eqb_spec s n) as [->|Hsn]; cbn [negb]);
    rewrite ?indexPush_lookup;
    repeat case_bool_decide; repeat case_decide;
    simplify_eq; try reflexivity; try congruence;
    try (cbn [truthy] in Et; rewrite En in Et; discriminate).
Qed.

Lemma buildBlockIndexFrom_elem (bs : list SourceBlock) :
  forall n index k i,
    i ∈ default [] (buildBlockIndexFrom n bs index !! k)
    <-> i ∈ default [] (index !! k)
        \/ exists j b, i = n + j /\ bs !! j = Some b /\ keyedBy b k.
Proof.
  induction bs as [|b bs IH]; intros n index k i; simpl.
  - split; [auto|]. intros [H|(j & b & _ & H & _)]; [exact H | inversion H].
  - rewrite IH. rewrite indexBlock_lookup.
    destruct (keyedByb b k) eqn:K.
    + apply keyedByb_spec in K. cbn [from_option id]. rewrite elem_of_app, list_elem_of_singleton.
      split.
      * intros [[H | ->]|(j & b' & -> & H1 & H2)].
        -- left. exact H.
        -- right. exists 0, b. split; [lia|]. split; [reflexivity | exact K].
        -- right. exists (S j), b'. split; [lia|]. split; assumption.
      * intros [H|(j & b' & -> & H1 & H2)].
        -- left. left. exact H.
        -- destruct j as [|j].
           ++ left. right. lia.
           ++ right. exists j, b'. split; [lia|]. split; assumption.
    + assert (K' : ~ keyedBy b k) by (rewrite <- keyedByb_spec, K; discriminate).
      split.
      * intros [H|(j & b' & -> & H1 & H2)].
        -- left. exact H.
        -- right. exists (S j), b'. split; [lia|]. split; assumption.
      * intros [H|(j & b' & -> & H1 & H2)].
        -- left. exact H.
        -- destruct j as [|j].
           ++ simpl in H1. inversion H1; subst. contradiction.
           ++ right. exists j, b'. split; [lia|]. split; assumption.
Qed.

(** X9.  A block is listed in the index under a key exactly when the key
    is its non-empty name or the truthy value of its [noweb-ref]
    argument: named blocks and reference blocks can all be looked up, and
    nothing else is listed. *)
Theorem index_lists_blocks_by_name_and_ref (store : Store) (k : Value) (i : nat) :
  (exists ids, buildBlockIndex store !! k = Some ids /\ i ∈ ids)
  <-> (exists b, store !! i = Some b /\ keyedBy b k).
Proof.
  pose proof (buildBlockIndexFrom_elem store 0 ∅ k i) as H.
  rewrite lookup_empty in H. cbn [from_option id] in H. fold (buildBlockIndex store) in H.
  split.
  - intros (ids & E & Hi). rewrite E in H. cbn [from_option id] in H.
    apply H in Hi as [Hi|(j & b & -> & H1 & H2)]; [inversion Hi|]. eauto.
  - intros (b & H1 & H2).
    assert (G : i ∈ default [] (buildBlockIndex store !! k)).
    { apply H. right. exists i, b. split; [lia|]. split; assumption. }
    destruct (buildBlockIndex store !! k) as [ids|]; [|inversion G]. eauto.
Qed.

(** The positions of a list grow strictly. *)
Definition increasing (ids : list nat) : Prop :=
  forall a b x y, a < b -> ids !! a = Some x -> ids !! b = Some y -> x < y.

Lemma increasing_snoc (ids : list nat) (n : nat) :
  increasing ids -> Forall (fun x => x < n) ids -> increasing (ids ++ [n]).
Proof.
  intros Hinc Hall a b x y Hab Ha Hb.
  destruct (decide (b < List.length ids)) as [Hlt|Hge].
  - rewrite lookup_app_l in Hb by exact Hlt.
    rewrite lookup_app_l in Ha by lia. exact (Hinc a b x y Hab Ha Hb).
  - assert (b = List.length ids) as ->.
    { apply lookup_lt_Some in Hb. rewrite length_app in Hb. simpl in Hb. lia. }
    rewrite lookup_app_l in Ha by lia.
    rewrite list_lookup_middle in Hb by reflexivity. inversion Hb; subst.
    rewrite Forall_forall in Hall. apply Hall. apply list_elem_of_lookup. eauto.
Qed.

Definition IndexInv (n : nat) (index : BlockIndex) : Prop :=
  forall k ids, index !! k = Some ids ->
                ids <> [] /\ increasing ids /\ Forall (fun x => x < n) ids.

Lemma indexBlock_inv (n : nat) (index : BlockIndex) (b : SourceBlock) :
  IndexInv n index -> IndexInv (S n) (indexBlock index n b).
Proof.
  intros Hinv k ids H. rewrite indexBlock_lookup in H.
  assert (W : forall l, Forall (fun x => x < n) l -> Forall (fun x => x < S n) l).
  { intros l Hl. eapply Forall_impl; [exact Hl|]. intros x Hx. simpl in Hx. lia. }
  destruct (keyedByb b k).
  - inversion H; subst ids.
    assert (G : increasing (default [] (index !! k))
                /\ Forall (fun x => x < n) (default [] (index !! k))).
    { destruct (index !! k) as [l|] eqn:E; cbn [from_option id].
      - destruct (Hinv k l E) as (_ & G1 & G2). split; assumption.
      - split; [|constructor]. intros a c x y _ Hx. inversion Hx. }
    destruct G as [G1 G2]. split; [|split].
    + destruct (default [] (index !! k)); discriminate.
    + apply increasing_snoc; assumption.
    + apply Forall_app. split; [apply W; exact G2|]. apply Forall_single. lia.
  - destruct (Hinv k ids H) as (G0 & G1 & G2). split; [exact G0|].
    split; [exact G1 | apply W; exact G2].
Qed.

Lemma buildBlockIndexFrom_inv (bs : list SourceBlock) :
  forall n index, IndexInv n index ->
                  IndexInv (n + List.length bs) (buildBlockIndexFrom n bs index).
Proof.
  induction bs as [|b bs IH]; intros n index H; simpl.
  - rewrite Nat.add_0_r. exact H.
  - replace (n + S (List.length bs)) with (S n + List.length bs) by lia.
    apply IH. apply indexBlock_inv. exact H.
Qed.

(** X10.  Every list of the index built from a store is non-empty, holds
    positions of the store, and is strictly increasing: the blocks under a
    name come in discovery order, and a block whose name equals its
    [noweb-ref] appears once. *)
Theorem index_lists_are_in_discovery_order (store : Store) (k : Value) (ids : list nat) :
  buildBlockIndex store !! k = Some ids ->
  ids <> [] /\ increasing ids /\ Forall (fun x => x < List.length store) ids.
Proof.
  intros H.
  apply (buildBlockIndexFrom_inv store 0 ∅) with (k := k); [|exact H].
  intros k' ids' H'. rewrite lookup_empty in H'. discriminate.
Qed.

Definition sameNameAndRefStore : Store :=
  [Sample.block (Some "util") "a" {[ "noweb-ref" := VStr "util" ]};
   Sample.block None "b" {[ "nowebRef" := VStr "util" ]};
   Sample.block (Some "") "c" {[ "noweb-ref" := VBool false ]}].

Lemma index_lists_blocks_by_name_and_ref_witness :
  buildBlockIndex sameNameAndRefStore = {[ VStr "util" := [0; 1] ]}
  /\ exists b, sameNameAndRefStore !! 1 = Some b /\ keyedBy b (VStr "util").
Proof.
  split; [vm_compute; reflexivity|].
  apply (proj1 (index_lists_blocks_by_name_and_ref sameNameAndRefStore (VStr "util") 1)).
  exists [0; 1]. split; [vm_compute; reflexivity|].
  apply list_elem_of_further, list_elem_of_here.
Defined.

Lemma index_lists_are_in_discovery_order_witness :
  [0; 1] <> [] /\ increasing [0; 1]
  /\ Forall (fun x => x < List.length sameNameAndRefStore) [0; 1].
Proof.
  apply (index_lists_are_in_discovery_order sameNameAndRefStore (VStr "util")).
  vm_compute. reflexivity.
Defined.

(* ===================================================================== *)
(** * Further properties: the expander *)
(* ===================================================================== *)

Section ExpanderMore.

Variable store : Store.
Variable blockIndex : BlockIndex.

Lemma expandLines_plain
    (self : string -> gset string -> string -> option (string * gset string))
    (ind : string) (lines : list string) :
  Forall (fun l => matchNoweb l = None) lines ->
  forall res v,
    expandLines store blockIndex self ind lines (res, v)
    = Some (res ++ List.map (String.append ind) lines, v).
Proof.
  induction 1 as [|l lines Hl _ IH]; intros res v.
  - simpl. rewrite app_nil_r. reflexivity.
  - change (expandLines store blockIndex self ind (l :: lines) (res, v))
      with (match expandLine store blockIndex self ind (res, v) l with
            | Some st' => expandLines store blockIndex self ind lines st'
            | None => None
            end).
    unfold expandLine. rewrite Hl. rewrite IH.
    rewrite <- app_assoc. reflexivity.
Qed.

(** X11.  A text none of whose lines is a reference line is expanded at
    any depth bound above zero without a look at the index: each line
    gets the indent in front, and with the empty indent of the top-level
    call the text is returned unchanged. *)
Theorem text_without_references_is_kept
    (fuel : nat) (text : string) (v : gset string) (ind : string) :
  Forall (fun l => matchNoweb l = None) (split LF text) ->
  expandNoweb store blockIndex (S fuel) text v ind
  = Some (join nl (List.map (String.append ind) (split LF text)), v)
  /\ expandNoweb store blockIndex (S fuel) text v "" = Some (text, v).
Proof.
  intros H. cbn [expandNoweb]. rewrite !(expandLines_plain _ _ _ H). cbn [app].
  split; [reflexivity|].
  assert (E : List.map (String.append "") (split LF text) = split LF text).
  { clear. induction (split LF text) as [|x xs IH]; [reflexivity|].
    cbn [List.map]. rewrite IH. reflexivity. }
  rewrite E, join_split. reflexivity.
Qed.

(** X12.  Every call of [expandNoweb] that returns leaves the visited
    set exactly as it found it: a name is on the stack only while its own
    blocks are being expanded, so a name referenced twice side by side is
    expanded twice and only a reference below its own expansion is
    reported as circular. *)
Theorem expansion_restores_the_visited_set (fuel : nat) :
  forall text v ind r v',
    expandNoweb store blockIndex fuel text v ind = Some (r, v') -> v' = v.
Proof.
  induction fuel as [|f IH]; intros text v ind r v' H; simpl in H; [discriminate|].
  destruct (expandLines store blockIndex (expandNoweb store blockIndex f) ind
                        (split LF text) ([], v)) as [[res v1]|] eqn:E; [|discriminate].
  inversion H; subst. eapply expandLines_restores; [exact IH | exact E].
Qed.

Section MonotoneBody.

Variable self1 self2 : string -> gset string -> string -> option (string * gset string).
Hypothesis self_le :
  forall text v ind x, self1 text v ind = Some x -> self2 text v ind = Some x.

Lemma expandBlocks_mono (ids : list nat) (ti : string) :
  forall st x,
    expandBlocks store self1 ids ti st = Some x ->
    expandBlocks store self2 ids ti st = Some x.
Proof.
  induction ids as [|id rest IH]; intros st x H; simpl in *; [exact H|].
  destruct (store !! id) as [block|]; [|discriminate].
  destruct (self1 (content block) (snd st) ti) as [[e v1]|] eqn:E; [|discriminate].
  rewrite (self_le _ _ _ _ E). apply IH. exact H.
Qed.

Lemma expandLine_mono (ind : string) (st : ExpandState) (line : string) (x : ExpandState) :
  expandLine store blockIndex self1 ind st line = Some x ->
  expandLine store blockIndex self2 ind st line = Some x.
Proof.
  unfold expandLine. destruct st as [res v]. intros H.
  destruct (matchNoweb line) as [[[lead ref] trailing]|]; [|exact H].
  destruct (bool_decide (ref ∈ v)); [exact H|].
  destruct (blockIndex !! VStr ref) as [[|id ids]|]; [exact H| |exact H].
  destruct (expandBlocks store self1 (id :: ids) (ind +:+ lead) (res, {[ref]} ∪ v))
    as [[r1 v1]|] eqn:B; [|discriminate].
  rewrite (expandBlocks_mono _ _ _ _ B). exact H.
Qed.

Lemma expandLines_mono (ind : string) (lines : list string) :
  forall st x,
    expandLines store blockIndex self1 ind lines st = Some x ->
    expandLines store blockIndex self2 ind lines st = Some x.
Proof.
  induction lines as [|l lines IH]; intros st x H; [exact H|].
  change (match expandLine store blockIndex self1 ind st l with
          | Some st' => expandLines store blockIndex self1 ind lines st'
          | None => None
          end = Some x) in H.
  change (match expandLine store blockIndex self2 ind st l with
          | Some st' => expandLines store blockIndex self2 ind lines st'
          | None => None
          end = Some x).
  destruct (expandLine store blockIndex self1 ind st l) as [st'|] eqn:E; [|discriminate].
  rewrite (expandLine_mono _ _ _ _ E). apply IH. exact H.
Qed.

End MonotoneBody.

Lemma expandNoweb_step (fuel : nat) :
  forall text v ind x,
    expandNoweb store blockIndex fuel text v ind = Some x ->
    expandNoweb store blockIndex (S fuel) text v ind = Some x.
Proof.
  induction fuel as [|f IH]; intros text v ind x H; [discriminate|].
  rewrite expandNoweb_unfold in H. rewrite (expandNoweb_unfold store blockIndex (S f)).
  destruct (expandLines store blockIndex (expandNoweb store blockIndex f) ind
                        (split LF text) ([], v)) as [st'|] eqn:E; [|discriminate].
  rewrite (expandLines_mono (expandNoweb store blockIndex f)
             (expandNoweb store blockIndex (S f)) IH _ _ _ _ E).
  exact H.
Qed.

(** The depth bound only decides whether the expansion is cut short:
    once a bound lets a call return, every larger bound returns the same
    text. *)
Theorem expansion_does_not_depend_on_the_bound
    (fuel fuel' : nat) (text : string) (v : gset string) (ind : string)
    (x : string * gset string) :
  fuel <= fuel' ->
  expandNoweb store blockIndex fuel text v ind = Some x ->
  expandNoweb store blockIndex fuel' text v ind = Some x.
Proof.
  intros Hle H. induction Hle as [|m Hle IH]; [exact H|].
  apply expandNoweb_step. exact IH.
Qed.

End ExpanderMore.

Definition diamondDoc : string :=
  Sample.document
    ["#+name: leaf"; "#+begin_src txt"; "x"; "#+end_src";
     "#+name: top"; "#+begin_src txt"; "<<leaf>>"; "<<leaf>>"; "#+end_src"].

Lemma text_without_references_is_kept_witness :
  expandNoweb [] ∅ 1 (Sample.document ["a <<b>> c"; "<<>>"; "  x"]) ∅ "  "
  = Some (Sample.document ["  a <<b>> c"; "  <<>>"; "    x"], ∅).
Proof.
  apply (proj1 (text_without_references_is_kept [] ∅ 0
                  (Sample.document ["a <<b>> c"; "<<>>"; "  x"]) ∅ "  "
                  ltac:(vm_compute; repeat constructor))).
Defined.

Lemma expansion_restores_the_visited_set_witness :
  let store := Sample.blocksOf diamondDoc in
  let index := buildBlockIndex store in
  expandNoweb store index 3 "<<top>>" {[ "other" ]} ""
  = Some (Sample.document ["x"; "x"], {[ "other" ]}).
Proof.
  intros store index.
  destruct (expandNoweb store index 3 "<<top>>" {[ "other" ]} "")
    as [[r v']|] eqn:E; [|vm_compute in E; discriminate].
  rewrite (expansion_restores_the_visited_set store index 3 _ _ _ _ _ E).
  f_equal. f_equal. vm_compute in E. inversion E. reflexivity.
Defined.

Lemma expansion_does_not_depend_on_the_bound_witness :
  let store := Sample.blocksOf diamondDoc in
  let index := buildBlockIndex store in
  expandNoweb store index 40 "<<top>>" ∅ "" = Some (Sample.document ["x"; "x"], ∅).
Proof.
  intros store index.
  apply (expansion_does_not_depend_on_the_bound store index 3 40).
  - lia.
  - vm_compute. reflexivity.
Defined.

(* ===================================================================== *)
(** * Further properties: targets and their content *)
(* ===================================================================== *)

(** The block at position [i] is listed in the target of path [p]. *)
Definition inTarget (targets : Targets) (p : string) (i : nat) : Prop :=
  exists ids, (p, ids) ∈ targets /\ i ∈ ids.

Lemma targetPush_keys (path : string) (id : nat) (targets : Targets) :
  NoDup (List.map fst targets) -> NoDup (List.map fst (targetPush path id targets))
  /\ forall p, p ∈ List.map fst (targetPush path id targets)
               <-> p ∈ List.map fst targets \/ p = path.
Proof.
  induction targets as [|[q qs] rest IH]; intros Hnd; simpl.
  - split; [repeat constructor; intros H; inversion H|].
    intros p. rewrite list_elem_of_singleton. split; [auto|].
    intros [H|H]; [inversion H | exact H].
  - inversion Hnd as [|? ? Hq Hrest]; subst.
    destruct (String.eqb_spec q path) as [->|Hne]; simpl.
    + split; [exact Hnd|]. intros p. rewrite elem_of_cons. split; [auto|].
      intros [H|H]; [exact H | left; exact H].
    + destruct (IH Hrest) as [G1 G2]. split.
      * constructor; [|exact G1]. rewrite G2. intros [H|H]; [contradiction | congruence].
      * intros p. rewrite !elem_of_cons, G2. tauto.
Qed.

Lemma targetPush_inTarget (path : string) (id : nat) (targets : Targets)
    (p : string) (i : nat) :
  inTarget (targetPush path id targets) p i
  <-> inTarget targets p i \/ (p = path /\ i = id).
Proof.
  unfold inTarget. split.
  - intros (ids & H1 & H2). eapply targetPush_elem; eassumption.
  - induction targets as [|[q qs] rest IH]; simpl.
    + intros [(ids & H & _)|[-> ->]]; [inversion H|].
      exists [id]. split; apply list_elem_of_here.
    + destruct (String.eqb_spec q path) as [->|Hne].
      * intros [(ids & H1 & H2)|[-> ->]].
        -- apply elem_of_cons in H1 as [H1|H1].
           ++ inversion H1; subst. exists (qs ++ [id]).
              split; [apply list_elem_of_here|]. apply elem_of_app. left. exact H2.
           ++ exists ids. split; [apply list_elem_of_further; exact H1 | exact H2].
        -- exists (qs ++ [id]). split; [apply list_elem_of_here|].
           apply elem_of_app. right. apply list_elem_of_here.
      * intros H.
        assert (G : (exists ids, (p, ids) ∈ rest /\ i ∈ ids) \/ (p = path /\ i = id)
                    \/ (p = q /\ i ∈ qs)).
        { destruct H as [(ids & H1 & H2)|H]; [|auto].
          apply elem_of_cons in H1 as [H1|H1]; [inversion H1; subst; auto|].
          left. eauto. }
        destruct G as [G|[G|[-> G]]].
        -- destruct (IH (or_introl G)) as (ids & H1 & H2).
           exists ids. split; [apply list_elem_of_further; exact H1 | exact H2].
        -- destruct (IH (or_intror G)) as (ids & H1 & H2).
           exists ids. split; [apply list_elem_of_further; exact H1 | exact H2].
        -- exists qs. split; [apply list_elem_of_here | exact G].
Qed.

Section TargetMore.

Variable dirname : string -> string.
Variable resolve : string -> string -> string.
Variable relative : string -> string -> string.
Variable cwd : string.

Lemma groupByTargetFrom_inTarget (bs : list SourceBlock) :
  forall n targets p i,
    inTarget (groupByTargetFrom dirname resolve n bs targets) p i
    <-> inTarget targets p i
        \/ exists k b, i = n + k /\ bs !! k = Some b
                       /\ targetPathOf dirname resolve b = Some p.
Proof.
  induction bs as [|b bs IH]; intros n targets p i; simpl.
  - split; [auto|]. intros [H|(k & b & _ & H & _)]; [exact H | inversion H].
  - rewrite IH. destruct (targetPathOf dirname resolve b) as [tp|] eqn:E.
    + rewrite targetPush_inTarget. split.
      * intros [[H|[-> ->]]|(k & b' & -> & H1 & H2)].
        -- left. exact H.
        -- right. exists 0, b. split; [lia|]. split; [reflexivity | exact E].
        -- right. exists (S k), b'. split; [lia|]. split; assumption.
      * intros [H|(k & b' & -> & H1 & H2)].
        -- left. left. exact H.
        -- destruct k as [|k].
           ++ simpl in H1. inversion H1; subst b'. rewrite E in H2. inversion H2; subst.
              left. right. split; [reflexivity | lia].
           ++ right. exists k, b'. split; [lia|]. split; assumption.
    + split.
      * intros [H|(k & b' & -> & H1 & H2)].
        -- left. exact H.
        -- right. exists (S k), b'. split; [lia|]. split; assumption.
      * intros [H|(k & b' & -> & H1 & H2)].
        -- left. exact H.
        -- destruct k as [|k].
           ++ simpl in H1. inversion H1; subst b'. rewrite E in H2. discriminate.
           ++ right. exists k, b'. split; [lia|]. split; assumption.
Qed.

Lemma groupByTargetFrom_keys (bs : list SourceBlock) :
  forall n targets,
    NoDup (List.map fst targets) ->
    NoDup (List.map fst (groupByTargetFrom dirname resolve n bs targets)).
Proof.
  induction bs as [|b bs IH]; intros n targets H; simpl; [exact H|].
  apply IH. destruct (targetPathOf dirname resolve b); [|exact H].
  apply targetPush_keys. exact H.
Qed.

(** X13.  The targets partition the tangled blocks by path: a block is
    listed under a path exactly when that path is the one its [tangle]
    argument resolves to, so a block whose [tangle] is absent, empty, [no]
    or [false] is listed nowhere and no block is listed under two paths;
    and no path occurs twice among the targets. *)
Theorem targets_partition_blocks_by_path (store : Store) :
  (forall p i,
      inTarget (groupByTarget dirname resolve store) p i
      <-> exists b, store !! i = Some b /\ targetPathOf dirname resolve b = Some p)
  /\ NoDup (List.map fst (groupByTarget dirname resolve store))
  /\ (forall p q i,
        inTarget (groupByTarget dirname resolve store) p i ->
        inTarget (groupByTarget dirname resolve store) q i -> p = q)
  /\ (forall i b,
        store !! i = Some b ->
        headerArgs b !! "tangle" = None \/ headerArgs b !! "tangle" = Some (VStr "")
        \/ headerArgs b !! "tangle" = Some (VStr "no")
        \/ headerArgs b !! "tangle" = Some (VBool false) ->
        forall p, ~ inTarget (groupByTarget dirname resolve store) p i).
Proof.
  assert (C : forall p i,
      inTarget (groupByTarget dirname resolve store) p i
      <-> exists b, store !! i = Some b /\ targetPathOf dirname resolve b = Some p).
  { intros p i. unfold groupByTarget. rewrite groupByTargetFrom_inTarget. split.
    - intros [(ids & H & _)|(k & b & -> & H1 & H2)]; [inversion H|]. eauto.
    - intros (b & H1 & H2). right. exists i, b. split; [lia|]. split; assumption. }
  split; [exact C|]. split; [|split].
  - apply groupByTargetFrom_keys. constructor.
  - intros p q i Hp Hq. apply C in Hp as (b & H1 & H2). apply C in Hq as (b' & H3 & H4).
    congruence.
  - intros i b Hb Ht p Hp. apply C in Hp as (b' & H1 & H2).
    rewrite Hb in H1. inversion H1; subst b'. unfold targetPathOf in H2.
    destruct (truthy _ && negb _); [discriminate|].
    destruct Ht as [Ht|[Ht|[Ht|Ht]]]; rewrite Ht in H2; discriminate.
Qed.

Lemma bodyParts_org (idx1 idx2 : BlockIndex) (store : Store) (framing : bool)
    (pre suf : string) (ids : list nat) :
  bodyParts relative cwd idx1 store framing true pre suf ids
  = bodyParts relative cwd idx2 store framing true pre suf ids.
Proof.
  induction ids as [|id rest IH]; [reflexivity|].
  cbn [bodyParts]. rewrite IH. reflexivity.
Qed.

(** X14.  A target whose path ends in [.org] is written without
    expansion: its text is the same whatever the index holds, so every
    reference token of its blocks is emitted as it stands, and the call
    returns for every store that holds the blocks of the target. *)
Theorem org_target_is_not_expanded
    (store : Store) (ids : list nat) (idx1 idx2 : BlockIndex) (targetPath : string) :
  endsWith targetPath ".org" = true ->
  generateContent relative cwd store ids idx1 targetPath
  = generateContent relative cwd store ids idx2 targetPath.
Proof.
  intros H. unfold generateContent.
  destruct (findShebang store ids) as [[sh st']|]; [|reflexivity].
  rewrite H. rewrite (bodyParts_org idx1 idx2). reflexivity.
Qed.

Lemma findShebang_total (store : Store) (ids : list nat) :
  Forall (fun id => id < List.length store) ids ->
  exists sh store', findShebang store ids = Some (sh, store').
Proof.
  induction 1 as [|id rest Hid _ IH]; simpl; [eauto|].
  apply lookup_lt_is_Some in Hid as [b Hb]. rewrite Hb.
  destruct (truthy (headerArgs b !! "shebang")); [eauto|].
  destruct (startsWithShebang b); [eauto | exact IH].
Qed.

Lemma bodyParts_total (blockIndex : BlockIndex) (store : Store) (framing isOrg : bool)
    (pre suf : string) (ids : list nat) :
  IndexInStore store blockIndex ->
  Forall (fun id => id < List.length store) ids ->
  exists body, bodyParts relative cwd blockIndex store framing isOrg pre suf ids
               = Some body.
Proof.
  intros Hwf. induction 1 as [|id rest Hid _ IH]; [exists []; reflexivity|].
  cbn [bodyParts]. apply lookup_lt_is_Some in Hid as [b Hb]. rewrite Hb.
  destruct IH as [qs Hqs]. rewrite Hqs.
  unfold blockParts. destruct isOrg; [eauto|].
  destruct (expandNoweb_total store blockIndex Hwf (expansionFuel blockIndex)
              (content b) ∅ "") as [r Hr].
  { rewrite pendingNames_empty. unfold expansionFuel. lia. }
  rewrite Hr. cbn [fmap option_fmap option_map fst]. eauto.
Qed.

(** X15.  [generateContent] returns for every target whose blocks are
    in the store, with any index whose positions are in the store: the
    depth bound it hands to the expander is never reached, cycles
    included. *)
Theorem generateContent_returns
    (store : Store) (ids : list nat) (blockIndex : BlockIndex) (targetPath : string) :
  IndexInStore store blockIndex ->
  Forall (fun id => id < List.length store) ids ->
  exists text store',
    generateContent relative cwd store ids blockIndex targetPath = Some (text, store').
Proof.
  intros Hwf Hids. unfold generateContent.
  destruct (findShebang_total store ids Hids) as (sh & store' & F). rewrite F.
  assert (L : List.length store' = List.length store).
  { apply findShebang_frame in F as [->|(id & b & _ & _ & _ & _ & _ & ->)];
      [reflexivity | apply length_insert]. }
  destruct (bodyParts_total blockIndex store'
              (framingEnabled targetPath (omap (fun id => store !! id) ids))
              (endsWith targetPath ".org")
              (getCommentPrefix targetPath) (getCommentSuffix targetPath) ids)
    as [body B].
  - intros k l id Hk Hid. apply lookup_lt_is_Some. rewrite L.
    apply lookup_lt_is_Some. eapply Hwf; eassumption.
  - rewrite L. exact Hids.
  - rewrite B. eauto.
Qed.

End TargetMore.

Lemma targets_partition_blocks_by_path_witness :
  let store := Sample.blocksOf readOnlyDoc in
  inTarget (groupByTarget Sample.dirname Sample.resolve store) "/d/ro/b.txt" 1
  /\ forall p, ~ inTarget (groupByTarget Sample.dirname Sample.resolve
                                        (Sample.blocksOf caseVariantDoc)) p 0.
Proof.
  intros store. split.
  - apply (proj1 (targets_partition_blocks_by_path Sample.dirname Sample.resolve store)).
    destruct (store !! 1) as [b|] eqn:E; [|vm_compute in E; discriminate].
    exists b. split; [reflexivity|].
    vm_compute in E. inversion E. vm_compute. reflexivity.
  - destruct (Sample.blocksOf caseVariantDoc !! 0) as [b|] eqn:E;
      [|vm_compute in E; discriminate].
    apply (proj2 (proj2 (proj2 (targets_partition_blocks_by_path
                                  Sample.dirname Sample.resolve
                                  (Sample.blocksOf caseVariantDoc)))) 0 b E).
    left. vm_compute in E. inversion E. vm_compute. reflexivity.
Defined.

Lemma org_target_is_not_expanded_witness :
  let store := Sample.blocksOf cycleDoc in
  generateContent Sample.relative Sample.cwd store [2] (buildBlockIndex store) "/d/t.org"
  = Some ("<<a>>", store).
Proof.
  intros store.
  rewrite (org_target_is_not_expanded Sample.relative Sample.cwd store [2]
             (buildBlockIndex store) ∅ "/d/t.org" eq_refl).
  vm_compute. reflexivity.
Defined.

Lemma generateContent_returns_witness :
  let store := Sample.blocksOf cycleDoc in
  exists text store',
    generateContent Sample.relative Sample.cwd store [2] (buildBlockIndex store)
                    "/d/out.txt"
    = Some (text, store').
Proof.
  intros store.
  apply (generateContent_returns Sample.relative Sample.cwd store [2]
           (buildBlockIndex store) "/d/out.txt" (buildBlockIndex_in_store store)).
  vm_compute. repeat constructor.
Defined.

Lemma oneOf_spec (x : string) (l : list string) : oneOf x l = true <-> x ∈ l.
Proof.
  unfold oneOf. rewrite existsb_exists. split.
  - intros (y & H1 & H2). apply String.eqb_eq in H2. subst y.
    apply list_elem_of_In. exact H1.
  - intros H. exists x. split; [apply list_elem_of_In; exact H | apply String.eqb_refl].
Qed.

Lemma uniqueFrom_spec (l : list string) :
  forall seen,
    NoDup (uniqueFrom seen l)
    /\ forall x, x ∈ uniqueFrom seen l <-> x ∈ l /\ x ∉ seen.
Proof.
  induction l as [|y l IH]; intros seen; simpl.
  - split; [constructor|]. intros x. split; [intros H; inversion H|].
    intros [H _]. inversion H.
  - destruct (oneOf y seen) eqn:E.
    + apply oneOf_spec in E. destruct (IH seen) as [G1 G2]. split; [exact G1|].
      intros x. rewrite G2, elem_of_cons. split; [tauto|].
      intros [[->|H] Hn]; [contradiction | tauto].
    + assert (E' : y ∉ seen) by (rewrite <- oneOf_spec, E; discriminate).
      destruct (IH (y :: seen)) as [G1 G2]. split.
      * constructor; [|exact G1]. rewrite G2. intros [_ H]. apply H.
        apply list_elem_of_here.
      * intros x. rewrite !elem_of_cons, G2, elem_of_cons.
        destruct (decide (x = y)) as [->|Hne]; [tauto|]. tauto.
Qed.

(** X16.  The de-duplication behind the [Source:] line of the header
    comment keeps each document path once, at its first position: the
    result has no duplicate and holds exactly the paths of the input. *)
Theorem unique_sources_are_a_set (l : list string) :
  NoDup (uniqueFrom [] l)
  /\ (forall x, x ∈ uniqueFrom [] l <-> x ∈ l)
  /\ (forall x rest, l = x :: rest -> List.hd "" (uniqueFrom [] l) = x).
Proof.
  destruct (uniqueFrom_spec l []) as [H1 H2]. split; [exact H1|]. split.
  - intros x. rewrite H2. split; [tauto|]. intros H. split; [exact H|].
    intros F. inversion F.
  - intros x rest ->. reflexivity.
Qed.

Lemma toLowerChar_idempotent (c : ascii) : toLowerChar (toLowerChar c) = toLowerChar c.
Proof. destruct c as [[] [] [] [] [] [] [] []]; reflexivity. Qed.

Lemma toLowerCase_idempotent (s : string) : toLowerCase (toLowerCase s) = toLowerCase s.
Proof.
  induction s as [|c s IH]; [reflexivity|].
  simpl. rewrite toLowerChar_idempotent, IH. reflexivity.
Qed.

(** X17.  The file extension derived from a language ignores the letter
    case of the language.  For every language but [constructor] and
    [__proto__] it is a string that starts with a dot, [.txt] outside the
    table.  For these two names, in any letter case, the table lookup
    finds a member inherited from [Object.prototype], no default is
    taken, and what is appended to the target path is the text of that
    member, which does not start with a dot. *)
Theorem extension_ignores_letter_case (lang : string) :
  getExtensionForLanguage (toLowerCase lang) = getExtensionForLanguage lang
  /\ (toLowerCase lang <> "constructor" -> toLowerCase lang <> "__proto__" ->
      exists ext, getExtensionForLanguage lang = ExtString ext
                  /\ startsWith ext "." = true)
  /\ (~ toLowerCase lang ∈ ["typescript"; "javascript"; "python"; "rust"; "go"; "java";
                             "c"; "cpp"; "sh"; "bash"; "ruby"; "json"; "yaml"; "yml";
                             "markdown"; "org"; "constructor"; "__proto__"] ->
      getExtensionForLanguage lang = ExtString ".txt")
  /\ (toLowerCase lang = "constructor" ->
      getExtensionForLanguage lang = ExtObjectFunction)
  /\ (toLowerCase lang = "__proto__" ->
      getExtensionForLanguage lang = ExtObjectPrototype)
  /\ (startsWith (extensionToString (getExtensionForLanguage lang)) "." = false
      <-> toLowerCase lang = "constructor" \/ toLowerCase lang = "__proto__").
Proof.
  assert (P4 : toLowerCase lang = "constructor" ->
               getExtensionForLanguage lang = ExtObjectFunction).
  { intros E. unfold getExtensionForLanguage. rewrite E. reflexivity. }
  assert (P5 : toLowerCase lang = "__proto__" ->
               getExtensionForLanguage lang = ExtObjectPrototype).
  { intros E. unfold getExtensionForLanguage. rewrite E. reflexivity. }
  assert (P2 : toLowerCase lang <> "constructor" -> toLowerCase lang <> "__proto__" ->
               exists ext, getExtensionForLanguage lang = ExtString ext
                           /\ startsWith ext "." = true).
  { intros H1 H2. unfold getExtensionForLanguage.
    rewrite (proj2 (String.eqb_neq _ _) H1), (proj2 (String.eqb_neq _ _) H2).
    repeat match goal with
           | |- context [if ?c then _ else _] => destruct c
           end; eexists; split; reflexivity. }
  split; [|split; [exact P2|split; [|split; [exact P4|split; [exact P5|]]]]].
  - unfold getExtensionForLanguage. rewrite toLowerCase_idempotent. reflexivity.
  - intros H. unfold getExtensionForLanguage.
    repeat match goal with
           | |- context [if String.eqb ?a ?b then _ else _] =>
               destruct (String.eqb_spec a b);
               [exfalso; apply H;
                match goal with E : toLowerCase lang = _ |- _ => rewrite E end;
                repeat constructor|]
           end.
    reflexivity.
  - split.
    + intros H.
      destruct (String.eqb_spec (toLowerCase lang) "constructor") as [E1|E1];
        [left; exact E1|].
      destruct (String.eqb_spec (toLowerCase lang) "__proto__") as [E2|E2];
        [right; exact E2|].
      destruct (P2 E1 E2) as (ext & E & Hd). rewrite E in H. cbn in H.
      rewrite Hd in H. discriminate.
    + intros [E|E]; [rewrite (P4 E) | rewrite (P5 E)]; reflexivity.
Qed.

Lemma extension_ignores_letter_case_witness :
  getExtensionForLanguage "TypeScript" = ExtString ".ts"
  /\ getExtensionForLanguage "fortran" = ExtString ".txt"
  /\ getExtensionForLanguage "Constructor" = ExtObjectFunction
  /\ extensionToString (getExtensionForLanguage "__PROTO__") = "[object Object]".
Proof.
  split; [vm_compute; reflexivity|].
  split.
  - apply (proj1 (proj2 (proj2 (extension_ignores_letter_case "fortran")))).
    vm_compute. intros H.
    repeat (apply elem_of_cons in H as [H|H]; [discriminate|]).
    inversion H.
  - split.
    + apply (proj1 (proj2 (proj2 (proj2 (extension_ignores_letter_case "Constructor"))))).
      reflexivity.
    + rewrite (proj1 (proj2 (proj2 (proj2 (proj2
                 (extension_ignores_letter_case "__PROTO__")))))); reflexivity.
Defined.

Lemma unique_sources_are_a_set_witness :
  uniqueFrom [] ["b.org"; "a.org"; "b.org"] = ["b.org"; "a.org"]
  /\ NoDup (uniqueFrom [] ["b.org"; "a.org"; "b.org"]).
Proof.
  split; [reflexivity|].
  exact (proj1 (unique_sources_are_a_set ["b.org"; "a.org"; "b.org"])).
Defined.

(** X18.  The comment suffix closes the comment prefix of the same
    path: it is [ */] exactly where the prefix is [/*], [ -->] exactly
    where the prefix is [<!--], and empty for every other extension. *)
Theorem comment_suffix_closes_prefix (targetPath : string) :
  getCommentSuffix targetPath
  = if String.eqb (getCommentPrefix targetPath) "/*" then " */"
    else if String.eqb (getCommentPrefix targetPath) "<!--" then " -->"
    else "".
Proof.
  unfold getCommentPrefix, getCommentSuffix.
  generalize (extensionOf targetPath). intros ext.
  destruct (oneOf ext ["py"; "sh"; "bash"; "zsh"; "fish"; "toml"; "rb"; "pl"; "r"]) eqn:E1.
  { apply oneOf_spec in E1.
    repeat (apply elem_of_cons in E1 as [->|E1]; [reflexivity|]). inversion E1. }
  destruct (oneOf ext ["lisp"; "el"; "clj"; "scm"]) eqn:E2.
  { apply oneOf_spec in E2.
    repeat (apply elem_of_cons in E2 as [->|E2]; [reflexivity|]). inversion E2. }
  destruct (oneOf ext ["lua"; "sql"; "hs"]) eqn:E3.
  { apply oneOf_spec in E3.
    repeat (apply elem_of_cons in E3 as [->|E3]; [reflexivity|]). inversion E3. }
  destruct (oneOf ext ["css"]); [reflexivity|].
  destruct (oneOf ext ["html"; "xml"]); [reflexivity|].
  destruct (oneOf ext ["json"; "yaml"; "yml"; "md"; "org"; "wasm"; "txt"]); reflexivity.
Qed.

(* ===================================================================== *)
(** * Further properties: the command line and the write loop *)
(* ===================================================================== *)

(** The options that [main] reads from [process.argv.slice(2)]. *)
Record Options : Type := mkOptions {
  outDir : string;
  dryRun : bool;
  verbose : bool;
  cleanCache : bool;
  files : list string;
}.

Definition defaultOptions : Options := mkOptions "dist" false false true [].

(** The loop of lines 598 to 611.  [args[i + 1]] is falsy when [i] is
    the last index or when the next argument is the empty string. *)
Fixpoint parseArgsFrom (args : list string) (o : Options) : Options :=
  match args with
  | [] => o
  | a :: rest =>
      let other (_ : unit) :=
        if String.eqb a "--dry-run" then
          parseArgsFrom rest (mkOptions (outDir o) true (verbose o)
                                        (cleanCache o) (files o))
        else if String.eqb a "--verbose" then
          parseArgsFrom rest (mkOptions (outDir o) (dryRun o) true
                                        (cleanCache o) (files o))
        else if String.eqb a "--no-clean" then
          parseArgsFrom rest (mkOptions (outDir o) (dryRun o) (verbose o)
                                        false (files o))
        else if negb (startsWith a "-") then
          parseArgsFrom rest (mkOptions (outDir o) (dryRun o) (verbose o)
                                        (cleanCache o) (files o ++ [a]))
        else parseArgsFrom rest o in
      if String.eqb a "--out-dir" then
        match rest with
        | next :: rest' =>
            if isEmpty next then other tt
            else parseArgsFrom rest' (mkOptions next (dryRun o) (verbose o)
                                                (cleanCache o) (files o))
        | [] => other tt
        end
      else other tt
  end.

Definition parseArgs (args : list string) : Options :=
  parseArgsFrom args defaultOptions.

Lemma parseArgsFrom_plain (args : list string) :
  "--out-dir" ∉ args ->
  forall o,
    parseArgsFrom args o
    = mkOptions (outDir o)
                (dryRun o || bool_decide ("--dry-run" ∈ args))
                (verbose o || bool_decide ("--verbose" ∈ args))
                (cleanCache o && negb (bool_decide ("--no-clean" ∈ args)))
                (files o ++ List.filter (fun a => negb (startsWith a "-")) args).
Proof.
  induction args as [|a rest IH]; intros Hno o.
  - destruct o. simpl. rewrite !orb_false_r, andb_true_r, app_nil_r. reflexivity.
  - assert (Ha : a <> "--out-dir") by (intros ->; apply Hno; apply list_elem_of_here).
    assert (Hrest : "--out-dir" ∉ rest)
      by (intros H; apply Hno; apply list_elem_of_further; exact H).
    cbn [parseArgsFrom]. rewrite (proj2 (String.eqb_neq a "--out-dir") Ha).
    assert (D : forall x : string,
               bool_decide (x ∈ a :: rest) = String.eqb x a || bool_decide (x ∈ rest)).
    { intros x. destruct (String.eqb_spec x a) as [->|Hx].
      - rewrite bool_decide_eq_true_2; [reflexivity | apply list_elem_of_here].
      - simpl. apply bool_decide_ext. rewrite elem_of_cons. tauto. }
    rewrite !D. cbn [List.filter].
    destruct (String.eqb_spec a "--dry-run") as [->|H1].
    { rewrite IH by exact Hrest. cbn. rewrite !orb_true_r. reflexivity. }
    destruct (String.eqb_spec a "--verbose") as [->|H2].
    { rewrite IH by exact Hrest. cbn. rewrite !orb_true_r. reflexivity. }
    destruct (String.eqb_spec a "--no-clean") as [->|H3].
    { rewrite IH by exact Hrest. cbn. rewrite !andb_false_r. reflexivity. }
    rewrite (proj2 (String.eqb_neq "--dry-run" a)) by congruence.
    rewrite (proj2 (String.eqb_neq "--verbose" a)) by congruence.
    rewrite (proj2 (String.eqb_neq "--no-clean" a)) by congruence.
    cbn [orb negb].
    destruct (startsWith a "-"); cbn [negb]; rewrite IH by exact Hrest; cbn.
    + reflexivity.
    + rewrite <- app_assoc. reflexivity.
Qed.

(** X19.  Without [--out-dir] on the command line the options are read
    off the arguments one by one: the output directory stays [dist],
    each of [--dry-run], [--verbose] and [--no-clean] takes effect when it
    occurs anywhere, the documents are the arguments that do not start
    with a hyphen, in their order, and any other argument that starts
    with a hyphen is ignored without an error. *)
Theorem options_without_out_dir (args : list string) :
  "--out-dir" ∉ args ->
  parseArgs args
  = mkOptions "dist"
              (bool_decide ("--dry-run" ∈ args))
              (bool_decide ("--verbose" ∈ args))
              (negb (bool_decide ("--no-clean" ∈ args)))
              (List.filter (fun a => negb (startsWith a "-")) args).
Proof.
  intros H. unfold parseArgs. rewrite (parseArgsFrom_plain args H). reflexivity.
Qed.

Lemma parseArgsFrom_files (args : list string) :
  forall o,
    Forall (fun f => startsWith f "-" = false) (files o) ->
    Forall (fun f => startsWith f "-" = false) (files (parseArgsFrom args o)).
Proof.
  remember (List.length args) as n eqn:Hn.
  assert (Hle : List.length args <= n) by lia. clear Hn.
  revert args Hle. induction n as [|n IH]; intros args Hle o Ho.
  { destruct args; [exact Ho | simpl in Hle; lia]. }
  destruct args as [|a rest]; [exact Ho|]. simpl in Hle.
  assert (Hrest : forall o', Forall (fun f => startsWith f "-" = false) (files o') ->
            Forall (fun f => startsWith f "-" = false) (files (parseArgsFrom rest o'))).
  { intros o'. apply IH. lia. }
  assert (Hother : Forall (fun f => startsWith f "-" = false)
            (files (if String.eqb a "--dry-run" then
                      parseArgsFrom rest (mkOptions (outDir o) true (verbose o)
                                                    (cleanCache o) (files o))
                    else if String.eqb a "--verbose" then
                      parseArgsFrom rest (mkOptions (outDir o) (dryRun o) true
                                                    (cleanCache o) (files o))
                    else if String.eqb a "--no-clean" then
                      parseArgsFrom rest (mkOptions (outDir o) (dryRun o)
                                                    (verbose o) false (files o))
                    else if negb (startsWith a "-") then
                      parseArgsFrom rest (mkOptions (outDir o) (dryRun o)
                                                    (verbose o) (cleanCache o)
                                                    (files o ++ [a]))
                    else parseArgsFrom rest o))).
  { destruct (String.eqb a "--dry-run"); [apply Hrest; exact Ho|].
    destruct (String.eqb a "--verbose"); [apply Hrest; exact Ho|].
    destruct (String.eqb a "--no-clean"); [apply Hrest; exact Ho|].
    destruct (startsWith a "-") eqn:E; cbn [negb]; apply Hrest; [exact Ho|].
    cbn [files]. apply Forall_app. split; [exact Ho | apply Forall_single; exact E]. }
  cbn [parseArgsFrom].
  destruct (String.eqb a "--out-dir"); [|exact Hother].
  destruct rest as [|next rest']; [exact Hother|].
  destruct (isEmpty next); [exact Hother|].
  apply IH; [simpl in Hle; lia | exact Ho].
Qed.

(** Before the first [--out-dir] every argument is read on its own. *)
Lemma parseArgsFrom_app (before rest : list string) :
  "--out-dir" ∉ before ->
  forall o, parseArgsFrom (before ++ rest) o
            = parseArgsFrom rest (parseArgsFrom before o).
Proof.
  induction before as [|a before IH]; intros Hno o; [reflexivity|].
  assert (Ha : a <> "--out-dir") by (intros ->; apply Hno; apply list_elem_of_here).
  assert (Hrest : "--out-dir" ∉ before)
    by (intros H; apply Hno; apply list_elem_of_further; exact H).
  cbn [app parseArgsFrom]. rewrite (proj2 (String.eqb_neq a "--out-dir") Ha).
  destruct (String.eqb a "--dry-run"); [apply IH; exact Hrest|].
  destruct (String.eqb a "--verbose"); [apply IH; exact Hrest|].
  destruct (String.eqb a "--no-clean"); [apply IH; exact Hrest|].
  destruct (negb (startsWith a "-")); apply IH; exact Hrest.
Qed.

(** X20.  On every command line, no document path read from it starts
    with a hyphen.  The first [--out-dir] takes the argument that follows
    it whatever it looks like, an option included, which then has no
    effect of its own, and the reading goes on behind that argument; where
    the argument that follows is missing or empty, [--out-dir] is ignored
    and an empty argument is read as a document path. *)
Theorem out_dir_consumes_next_argument :
  (forall args o,
      Forall (fun f => startsWith f "-" = false) (files o) ->
      Forall (fun f => startsWith f "-" = false) (files (parseArgsFrom args o)))
  /\ (forall args, Forall (fun f => startsWith f "-" = false) (files (parseArgs args)))
  /\ (forall before next rest o,
        "--out-dir" ∉ before -> next <> "" ->
        parseArgsFrom (before ++ "--out-dir" :: next :: rest) o
        = let o' := parseArgsFrom before o in
          parseArgsFrom rest (mkOptions next (dryRun o') (verbose o')
                                        (cleanCache o') (files o')))
  /\ (forall before rest o,
        "--out-dir" ∉ before ->
        parseArgsFrom (before ++ "--out-dir" :: "" :: rest) o
        = let o' := parseArgsFrom before o in
          parseArgsFrom rest (mkOptions (outDir o') (dryRun o') (verbose o')
                                        (cleanCache o') (files o' ++ [""])))
  /\ (forall before o,
        "--out-dir" ∉ before ->
        parseArgsFrom (before ++ ["--out-dir"]) o = parseArgsFrom before o).
Proof.
  split; [intros args o; apply parseArgsFrom_files|].
  split; [intros args; apply parseArgsFrom_files; constructor|].
  split; [|split].
  - intros before next rest o Hno Hnext. rewrite parseArgsFrom_app by exact Hno.
    cbn [parseArgsFrom].
    change (String.eqb "--out-dir" "--out-dir") with true. cbv iota.
    rewrite (proj2 (isEmpty_false next) Hnext). reflexivity.
  - intros before rest o Hno. rewrite parseArgsFrom_app by exact Hno. reflexivity.
  - intros before o Hno. rewrite parseArgsFrom_app by exact Hno. reflexivity.
Qed.

Lemma comment_suffix_closes_prefix_witness :
  getCommentPrefix "/d/site.css" = "/*" /\ getCommentSuffix "/d/site.css" = " */".
Proof.
  split; [reflexivity|].
  rewrite (comment_suffix_closes_prefix "/d/site.css"). reflexivity.
Defined.

Lemma options_without_out_dir_witness :
  parseArgs ["a.org"; "--verbose"; "-x"; "b.org"]
  = mkOptions "dist" false true true ["a.org"; "b.org"].
Proof.
  rewrite (options_without_out_dir ["a.org"; "--verbose"; "-x"; "b.org"]).
  - vm_compute. reflexivity.
  - intros H. repeat (apply elem_of_cons in H as [H|H]; [discriminate|]). inversion H.
Defined.

Lemma out_dir_consumes_next_argument_witness :
  parseArgs ["a.org"; "--verbose"; "--out-dir"; "--dry-run"; "b.org"; "--out-dir"]
  = mkOptions "--dry-run" false true true ["a.org"; "b.org"]
  /\ parseArgs ["--out-dir"; ""; "--out-dir"; "out"]
     = mkOptions "out" false false true [""].
Proof.
  destruct out_dir_consumes_next_argument as (_ & _ & H3 & H4 & _).
  split.
  - apply (H3 ["a.org"; "--verbose"] "--dry-run" ["b.org"; "--out-dir"] defaultOptions).
    + intros H. repeat (apply elem_of_cons in H as [H|H]; [discriminate|]). inversion H.
    + discriminate.
  - apply (H4 [] ["--out-dir"; "out"] defaultOptions).
    intros H. inversion H.
Defined.

Lemma Forall2_sameButContent_trans (s1 s2 s3 : Store) :
  Forall2 sameButContent s1 s2 -> Forall2 sameButContent s2 s3 ->
  Forall2 sameButContent s1 s3.
Proof.
  intros H12. revert s3. induction H12 as [|a b l k Hab _ IH]; intros s3 H23.
  - inversion H23. constructor.
  - inversion H23 as [|? c ? m Hbc Hkm]; subst. constructor; [|apply IH; exact Hkm].
    destruct Hab as (A1 & A2 & A3 & A4 & A5 & A6 & A7).
    destruct Hbc as (B1 & B2 & B3 & B4 & B5 & B6 & B7).
    repeat split; congruence.
Qed.

Section MainMore.

Variable pathDirname : string -> string.
Variable pathRelative : string -> string -> string.
Variable workingDir : string.
Variable World : Type.
Variable fsExists : string -> World -> bool.
Variable fsMkdir : string -> World -> string + World.
Variable fsWrite : string -> string -> World -> string + World.

Let runTarget (dry verb : bool) :=
  writeTarget pathDirname pathRelative workingDir World fsExists fsMkdir fsWrite dry verb.
Let runTargets (dry verb : bool) :=
  writeTargets pathDirname pathRelative workingDir World fsExists fsMkdir fsWrite dry verb.

(** The state in which a statement sequence ends. *)
Definition finalState (c : Completion World) : RunState World :=
  match c with
  | Normal _ st => st
  | Throw _ _ st => st
  end.

Lemma writeTarget_store (dry verb : bool) (blockIndex : BlockIndex)
    (st : RunState World) (target : string * list nat) (c : Completion World) :
  runTarget dry verb blockIndex st target = Some c ->
  Forall2 sameButContent (blockStore World st) (blockStore World (finalState c)).
Proof.
  subst runTarget. unfold writeTarget. destruct target as [targetPath ids]. intros H.
  destruct (generateContent pathRelative workingDir (blockStore World st) ids
                            blockIndex targetPath) as [[text store']|] eqn:G;
    [|discriminate].
  assert (F : Forall2 sameButContent (blockStore World st) store').
  { apply generateContent_unfold in G as (sh & body & F & _ & _).
    apply findShebang_frame in F as [->|(id & b & _ & Hb & _ & _ & _ & ->)].
    - apply Forall2_sameButContent_refl.
    - apply insert_sameButContent. exact Hb. }
  destruct dry; [inversion H; exact F|].
  destruct (if fsExists (pathDirname targetPath) (world World st)
            then inr (world World st)
            else fsMkdir (pathDirname targetPath) (world World st)) as [e|w1];
    [inversion H; exact F|].
  destruct (fsWrite targetPath text w1); inversion H; exact F.
Qed.

(** X21.  Through the whole write loop, however it ends, the store keeps
    its blocks and every block keeps its name, language, header
    arguments, line numbers and source path: the loop only ever shortens
    contents by lifted shebang lines. *)
Theorem write_loop_keeps_block_fields (dry verb : bool) (blockIndex : BlockIndex)
    (targets : Targets) (st : RunState World) (c : Completion World) :
  runTargets dry verb blockIndex st targets = Some c ->
  Forall2 sameButContent (blockStore World st) (blockStore World (finalState c)).
Proof.
  subst runTargets. revert st. induction targets as [|t rest IH]; intros st H.
  - inversion H. apply Forall2_sameButContent_refl.
  - cbn [writeTargets] in H.
    destruct (writeTarget pathDirname pathRelative workingDir World fsExists fsMkdir
                          fsWrite dry verb blockIndex st t) as [c1|] eqn:E;
      [|discriminate].
    pose proof (writeTarget_store dry verb blockIndex st t c1 E) as F.
    destruct c1 as [st1|e st1].
    + eapply Forall2_sameButContent_trans; [exact F|]. apply IH. exact H.
    + inversion H; subst. exact F.
Qed.

(** X22.  In a dry run the loop never touches the file system, never
    throws and counts no file as written: it ends normally with the
    world and the counter it started with, and prints one line per
    target. *)
Theorem dry_run_writes_nothing (verb : bool) (blockIndex : BlockIndex)
    (targets : Targets) (st : RunState World) (c : Completion World) :
  runTargets true verb blockIndex st targets = Some c ->
  exists st', c = Normal World st'
              /\ world World st' = world World st
              /\ written World st' = written World st
              /\ List.length (console World st')
                 = List.length (console World st) + List.length targets.
Proof.
  subst runTargets. revert st. induction targets as [|[p ids] rest IH]; intros st H.
  - inversion H. exists st. repeat split. simpl. lia.
  - cbn [writeTargets] in H. unfold writeTarget in H.
    destruct (generateContent pathRelative workingDir (blockStore World st) ids
                              blockIndex p) as [[text store']|]; [|discriminate].
    apply IH in H as (st' & -> & H1 & H2 & H3).
    exists st'. split; [reflexivity|].
    cbn [world written console] in *. rewrite length_app in H3. simpl in *.
    repeat split; try assumption. lia.
Qed.

(** X23.  When the loop of a real run ends normally it has written one
    file per target: the counter printed at the end has grown by the
    number of targets; when it ends with an error the counter has grown
    by less. *)
Theorem written_counts_the_targets (verb : bool) (blockIndex : BlockIndex)
    (targets : Targets) (st : RunState World) (c : Completion World) :
  runTargets false verb blockIndex st targets = Some c ->
  match c with
  | Normal _ st' => written World st' = written World st + List.length targets
  | Throw _ _ st' =>
      written World st <= written World st'
      /\ written World st' < written World st + List.length targets
  end.
Proof.
  subst runTargets. revert st. induction targets as [|[p ids] rest IH]; intros st H.
  - inversion H. simpl. lia.
  - cbn [writeTargets] in H. unfold writeTarget in H.
    destruct (generateContent pathRelative workingDir (blockStore World st) ids
                              blockIndex p) as [[text store']|]; [|discriminate].
    destruct (if fsExists (pathDirname p) (world World st)
              then inr (world World st)
              else fsMkdir (pathDirname p) (world World st)) as [e|w1].
    { inversion H; subst. simpl. lia. }
    destruct (fsWrite p text w1) as [e|w2].
    { inversion H; subst. simpl. lia. }
    apply IH in H. cbn [written] in H. destruct c; simpl; lia.
Qed.

End MainMore.

Lemma write_loop_keeps_block_fields_witness :
  let store := Sample.blocksOf shebangDoc in
  let index := buildBlockIndex store in
  exists c,
    writeTargets Sample.dirname Sample.relative Sample.cwd Sample.Fs
                 Sample.existsSync Sample.mkdirSync Sample.writeFileSync false false
                 index (mkRun Sample.Fs store [] [] 0)
                 (groupByTarget Sample.dirname Sample.resolve store)
    = Some c
    /\ Forall2 sameButContent store (blockStore Sample.Fs (finalState Sample.Fs c)).
Proof.
  intros store index.
  destruct (writeTargets Sample.dirname Sample.relative Sample.cwd Sample.Fs
              Sample.existsSync Sample.mkdirSync Sample.writeFileSync false false
              index (mkRun Sample.Fs store [] [] 0)
              (groupByTarget Sample.dirname Sample.resolve store)) as [c|] eqn:E;
    [|vm_compute in E; discriminate].
  exists c. split; [reflexivity|].
  exact (write_loop_keeps_block_fields Sample.dirname Sample.relative Sample.cwd
           Sample.Fs Sample.existsSync Sample.mkdirSync Sample.writeFileSync
           false false index _ (mkRun Sample.Fs store [] [] 0) c E).
Defined.

Lemma dry_run_writes_nothing_witness :
  let store := Sample.blocksOf readOnlyDoc in
  exists st',
    writeTargets Sample.dirname Sample.relative Sample.cwd Sample.Fs
                 Sample.existsSync Sample.mkdirSync Sample.writeFileSync true true
                 (buildBlockIndex store) (mkRun Sample.Fs store [] [] 0)
                 (groupByTarget Sample.dirname Sample.resolve store)
    = Some (Normal Sample.Fs st')
    /\ world Sample.Fs st' = [] /\ written Sample.Fs st' = 0.
Proof.
  intros store.
  destruct (writeTargets Sample.dirname Sample.relative Sample.cwd Sample.Fs
              Sample.existsSync Sample.mkdirSync Sample.writeFileSync true true
              (buildBlockIndex store) (mkRun Sample.Fs store [] [] 0)
              (groupByTarget Sample.dirname Sample.resolve store)) as [c|] eqn:E;
    [|vm_compute in E; discriminate].
  destruct (dry_run_writes_nothing Sample.dirname Sample.relative Sample.cwd
              Sample.Fs Sample.existsSync Sample.mkdirSync Sample.writeFileSync
              true (buildBlockIndex store) _ (mkRun Sample.Fs store [] [] 0) c E)
    as (st' & -> & H1 & H2 & _).
  exists st'. split; [reflexivity|]. split; assumption.
Defined.

Lemma written_counts_the_targets_witness :
  let store := Sample.blocksOf shebangDoc in
  exists st',
    writeTargets Sample.dirname Sample.relative Sample.cwd Sample.Fs
                 Sample.existsSync Sample.mkdirSync Sample.writeFileSync false false
                 (buildBlockIndex store) (mkRun Sample.Fs store [] [] 0)
                 (groupByTarget Sample.dirname Sample.resolve store)
    = Some (Normal Sample.Fs st')
    /\ written Sample.Fs st' = 2.
Proof.
  intros store.
  destruct (writeTargets Sample.dirname Sample.relative Sample.cwd Sample.Fs
              Sample.existsSync Sample.mkdirSync Sample.writeFileSync false false
              (buildBlockIndex store) (mkRun Sample.Fs store [] [] 0)
              (groupByTarget Sample.dirname Sample.resolve store)) as [c|] eqn:E;
    [|vm_compute in E; discriminate].
  pose proof (written_counts_the_targets Sample.dirname Sample.relative Sample.cwd
                Sample.Fs Sample.existsSync Sample.mkdirSync Sample.writeFileSync
                false (buildBlockIndex store) _ (mkRun Sample.Fs store [] [] 0) c E) as H.
  destruct c as [st'|e st']; [|vm_compute in E; discriminate].
  exists st'. split; [reflexivity|]. rewrite H. vm_compute. reflexivity.
Defined.

(* ===================================================================== *)
(** * Further properties: document properties and fan-in *)
(* ===================================================================== *)

(** A line that [extractFileProperties] reads as a property directive. *)
Definition isPropertyLine (line : string) : bool :=
  match matchProperty (trim line) with
  | Some _ => true
  | None => false
  end.

Lemma matchProperty_tag (t : string) (tag : option string) (argsStr : string) :
  matchProperty t = Some (tag, argsStr) ->
  forall w, tag = Some w -> w <> "" /\ allChars isWordChar w = true.
Proof.
  unfold matchProperty. intros H w ->.
  destruct (startsWithCI t "#+property:"); [|discriminate].
  destruct (span isSpace (drop 11 t)) as [ws r1].
  destruct (isEmpty ws); [discriminate|].
  destruct (startsWithCI r1 "header-args"); [|discriminate].
  destruct (drop 11 r1) as [|c r2'] eqn:E.
  - destruct (span isSpace "") as [ws2 r4] eqn:S2. simpl in S2. inversion S2; subst.
    discriminate.
  - destruct (Ascii.eqb_spec c ":"%char) as [->|Hc].
    + destruct (span isWordChar r2') as [w' r'] eqn:S1.
      destruct (isEmpty w') eqn:W.
      * destruct (span isSpace (String ":"%char r2')) as [ws2 r4].
        destruct (isEmpty ws2); [discriminate|].
        destruct (isEmpty r4 || existsb isLineTerminator r4); discriminate.
      * destruct (span isSpace r') as [ws2 r4].
        destruct (isEmpty ws2); [discriminate|].
        destruct (isEmpty r4 || existsb isLineTerminator r4); [discriminate|].
        inversion H; subst. split; [apply isEmpty_false; exact W|].
        eapply span_all. exact S1.
    + assert (G : match
                    (let '(ws2, r4) := span isSpace (String c r2') in
                     if isEmpty ws2 then None
                     else if isEmpty r4 || existsb isLineTerminator r4 then None
                          else Some (@None string, r4))
                  with Some (Some _, _) => False | _ => True end).
      { destruct (span isSpace (String c r2')) as [ws2 r4].
        destruct (isEmpty ws2); [exact I|].
        destruct (isEmpty r4 || existsb isLineTerminator r4); exact I. }
      destruct c as [[] [] [] [] [] [] [] []];
        try (exfalso; apply Hc; reflexivity);
        cbv iota beta in H; rewrite H in G; contradiction.
Qed.

(** The keys of the own entries are [*] or a tag of the directive, never
    [__proto__]; the argument objects, the one that serves as prototype
    included, are well formed. *)
Definition wellFormedProperties (props : FileProperties) : Prop :=
  (forall tag args, ownProps props !! tag = Some args ->
     (tag = "*" \/ (tag <> "" /\ allChars isWordChar tag = true))
     /\ tag <> "__proto__" /\ wellFormedArgs args)
  /\ (forall proto, protoProps props = Some proto -> wellFormedArgs proto).

(** A property line whose tag is [__proto__]. *)
Definition isPrototypeLine (line : string) : Prop :=
  exists argsStr, matchProperty (trim line) = Some (Some "__proto__", argsStr).

Lemma wellFormedArgs_union (a b : Args) :
  wellFormedArgs a -> wellFormedArgs b -> wellFormedArgs (a ∪ b).
Proof.
  intros Ha Hb key val H. apply lookup_union_Some_raw in H as [H|[_ H]].
  - apply Ha. exact H.
  - apply Hb. exact H.
Qed.

Lemma wellFormedArgs_empty : wellFormedArgs ∅.
Proof. intros k v H. rewrite lookup_empty in H. discriminate. Qed.

Definition isDigit (c : ascii) : bool := ((48 <=? code c) && (code c <=? 57))%N.

Lemma string_of_uint_digits (d : Decimal.uint) :
  allChars isDigit (NilEmpty.string_of_uint d) = true.
Proof. induction d; simpl; try rewrite IHd; reflexivity. Qed.

Lemma to_little_uint_nonnil (n : nat) :
  forall acc, acc <> Decimal.Nil -> Nat.to_little_uint n acc <> Decimal.Nil.
Proof.
  induction n as [|n IH]; intros acc H; [exact H|].
  simpl. apply IH. destruct acc; discriminate.
Qed.

(** A decimal numeral is a non-empty run of digits. *)
Lemma ofNat_digits (n : nat) : ofNat n <> "" /\ allChars isDigit (ofNat n) = true.
Proof.
  unfold ofNat. split; [|apply string_of_uint_digits].
  assert (H : Nat.to_uint n <> Decimal.Nil).
  { unfold Nat.to_uint. intros E. apply DecimalFacts.rev_nil_inv in E.
    revert E. apply to_little_uint_nonnil. discriminate. }
  destruct (Nat.to_uint n); simpl; congruence.
Qed.

(** The indexed code units of a well-formed value form a well-formed
    argument object. *)
Lemma charsFrom_wellFormed (s : string) :
  allChars isValueChar s = true -> forall i, wellFormedArgs (charsFrom i s).
Proof.
  induction s as [|c s IH]; intros Hs i; [apply wellFormedArgs_empty|].
  simpl in Hs. apply andb_prop in Hs as [Hc Hs].
  intros key val H. cbn [charsFrom] in H.
  destruct (decide (key = ofNat i)) as [->|Hne].
  - rewrite lookup_insert_eq in H. inversion H; subst val.
    destruct (ofNat_digits i) as [D1 D2].
    split; [exact D1|]. split.
    + eapply allChars_impl; [|exact D2].
      intros d Hd. destruct d as [[] [] [] [] [] [] [] []]; vm_compute in Hd;
        try discriminate; reflexivity.
    + split.
      * intros E. rewrite E in D2. vm_compute in D2. discriminate.
      * simpl. rewrite Hc. reflexivity.
  - rewrite lookup_insert_ne in H by congruence. apply (IH Hs (S i) _ _ H).
Qed.

Lemma spreadProp_wellFormed (props : FileProperties) (key : string) :
  wellFormedProperties props -> wellFormedArgs (spreadProp (getProp props key)).
Proof.
  intros [Ho Hp]. unfold getProp.
  destruct (ownProps props !! key) as [a|] eqn:E; [apply (Ho _ _ E)|].
  destruct (protoProps props) as [proto|] eqn:P.
  - specialize (Hp proto eq_refl).
    destruct (String.eqb key "__proto__"); [exact Hp|].
    destruct (proto !! key) as [[v|b]|] eqn:G; cbn [spreadProp].
    + apply charsFrom_wellFormed. apply (Hp _ _ G).
    + apply wellFormedArgs_empty.
    + destruct (objectPrototypeMember key); apply wellFormedArgs_empty.
  - destruct (objectPrototypeMember key); apply wellFormedArgs_empty.
Qed.

Lemma parseHeaderArgs_wellFormed (line : string) :
  wellFormedArgs (snd (parseHeaderArgs line)).
Proof.
  unfold parseHeaderArgs.
  destruct (matchBeginSrc line) as [[l r]|]; simpl.
  - apply headerArgsOf_wellFormed.
  - apply wellFormedArgs_empty.
Qed.

Lemma propertyLine_wellFormed (props : FileProperties) (line : string) :
  wellFormedProperties props -> wellFormedProperties (propertyLine props line).
Proof.
  intros Hp. unfold propertyLine.
  destruct (matchProperty (trim line)) as [[tag argsStr]|] eqn:M; [|exact Hp].
  pose proof (parseHeaderArgs_wellFormed ("#+begin_src dummy " +:+ argsStr)) as Wa.
  destruct (parseHeaderArgs ("#+begin_src dummy " +:+ argsStr)) as [l args].
  cbn [snd] in Wa.
  assert (Wn : wellFormedArgs (args ∪ spreadProp (getProp props (default "*" tag)))).
  { apply wellFormedArgs_union; [exact Wa | apply spreadProp_wellFormed; exact Hp]. }
  destruct Hp as [Ho Hq]. unfold setProp.
  destruct (String.eqb_spec (default "*" tag) "__proto__") as [E|E]; cbn [andb].
  - destruct (bool_decide (is_Some (ownProps props !! default "*" tag))) eqn:B;
      cbn [negb].
    + apply bool_decide_eq_true in B as [a B].
      destruct (Ho _ _ B) as (_ & F & _). contradiction.
    + split; cbn [ownProps protoProps]; [exact Ho|].
      intros proto G. inversion G; subst proto. exact Wn.
  - split; cbn [ownProps protoProps]; [|exact Hq].
    intros t a H. destruct (decide (t = default "*" tag)) as [->|Hne].
    + rewrite lookup_insert_eq in H. inversion H; subst a. split; [|split].
      * destruct tag as [w|]; [right | left; reflexivity].
        exact (matchProperty_tag _ _ _ M w eq_refl).
      * exact E.
      * exact Wn.
    + rewrite lookup_insert_ne in H by congruence. apply (Ho _ _ H).
Qed.

(** Only a line tagged [__proto__] sets the prototype, and no line
    creates an own key of that name. *)
Lemma propertyLine_proto (props : FileProperties) (line : string) :
  ownProps props !! "__proto__" = None ->
  ownProps (propertyLine props line) !! "__proto__" = None
  /\ (is_Some (protoProps (propertyLine props line))
      <-> is_Some (protoProps props) \/ isPrototypeLine line).
Proof.
  intros Hown. unfold propertyLine, isPrototypeLine.
  destruct (matchProperty (trim line)) as [[tag argsStr]|] eqn:M.
  - destruct (parseHeaderArgs ("#+begin_src dummy " +:+ argsStr)) as [l args].
    unfold setProp.
    destruct (String.eqb_spec (default "*" tag) "__proto__") as [E|E]; cbn [andb].
    + rewrite E, Hown.
      rewrite bool_decide_eq_false_2 by (intros [x Hx]; discriminate).
      cbn [negb ownProps protoProps]. split; [exact Hown|].
      split; [|intros _; eexists; reflexivity].
      intros _. right. destruct tag as [w|]; [|discriminate].
      cbn in E. subst w. exists argsStr. reflexivity.
    + cbn [ownProps protoProps]. split.
      * rewrite lookup_insert_ne by exact E. exact Hown.
      * split; [intros H; left; exact H|].
        intros [H|[a H]]; [exact H|].
        inversion H; subst. exfalso. apply E. reflexivity.
  - split; [exact Hown|]. split; [intros H; left; exact H|].
    intros [H|[a H]]; [exact H | discriminate].
Qed.

Lemma fold_propertyLine_proto (lines : list string) :
  forall props,
    ownProps props !! "__proto__" = None ->
    is_Some (protoProps (fold_left propertyLine lines props))
    <-> is_Some (protoProps props) \/ Exists isPrototypeLine lines.
Proof.
  induction lines as [|l lines IH]; intros props Hown.
  - cbn [fold_left]. split; [intros H; left; exact H|].
    intros [H|H]; [exact H | inversion H].
  - cbn [fold_left]. destruct (propertyLine_proto props l Hown) as [H1 H2].
    rewrite (IH _ H1), H2, Exists_cons. tauto.
Qed.

(** X24.  Whatever the document, the properties object that
    [extractFileProperties] returns has its own entries filed under [*]
    or under a non-empty tag of letters, digits and underscores other
    than [__proto__] (a tag such as [c++] files nothing), each argument
    object in it is well formed in the sense of X1, and its prototype is
    replaced by an argument object exactly when some property line
    carries the tag [__proto__]: such a line files no entry. *)
Theorem file_properties_are_well_formed (text : string) :
  wellFormedProperties (extractFileProperties text)
  /\ (is_Some (protoProps (extractFileProperties text))
      <-> Exists isPrototypeLine (split LF (normalizeNewlines text))).
Proof.
  unfold extractFileProperties. split.
  - apply (fold_left_invariant wellFormedProperties (fun _ => True)).
    + intros a b Ha _. apply propertyLine_wellFormed. exact Ha.
    + split.
      * intros tag args H. cbn in H. rewrite lookup_empty in H. discriminate.
      * intros proto H. discriminate.
    + intros b _. exact I.
  - rewrite (fold_propertyLine_proto _ emptyProps) by reflexivity.
    split; [|intros H; right; exact H].
    intros [[x H]|H]; [discriminate | exact H].
Qed.

Lemma fold_propertyLine_filter (lines : list string) :
  forall props,
    fold_left propertyLine (List.filter isPropertyLine lines) props
    = fold_left propertyLine lines props.
Proof.
  induction lines as [|l lines IH]; intros props; [reflexivity|].
  cbn [List.filter]. destruct (isPropertyLine l) eqn:E.
  - cbn [fold_left]. apply IH.
  - cbn [fold_left]. rewrite IH. f_equal.
    unfold propertyLine. unfold isPropertyLine in E.
    destruct (matchProperty (trim l)); [discriminate | reflexivity].
Qed.

(** X25.  The document properties depend on the property lines alone,
    in their order.  The scan keeps no state about blocks or examples and
    trims each line first, so fences, content and prose have no influence
    and a property directive counts wherever it stands, indented or
    inside a source block included. *)
Theorem properties_depend_on_property_lines_only (text : string) :
  extractFileProperties text
  = fold_left propertyLine
              (List.filter isPropertyLine (split LF (normalizeNewlines text)))
              emptyProps.
Proof. unfold extractFileProperties. symmetry. apply fold_propertyLine_filter. Qed.

Definition prototypeTagDoc : string :=
  Sample.document ["#+PROPERTY: header-args:c++ :tangle a.cpp";
                   "#+property: header-args:sh :tangle run:me";
                   "#+PROPERTY: header-args:__proto__ :python ab";
                   "#+begin_src python";
                   "pass";
                   "#+end_src"].

Lemma file_properties_are_well_formed_witness :
  extractFileProperties prototypeTagDoc
  = mkProps {[ "sh" := {[ "tangle" := VStr "run" ]} ]}
            (Some {[ "python" := VStr "ab" ]})
  /\ allChars isWordChar "sh" = true
  /\ Exists isPrototypeLine (split LF (normalizeNewlines prototypeTagDoc))
  /\ List.map headerArgs (Sample.blocksOf prototypeTagDoc)
     = [ {[ "0" := VStr "a"; "1" := VStr "b" ]} ].
Proof.
  split; [vm_compute; reflexivity|].
  assert (H : ownProps (extractFileProperties prototypeTagDoc) !! "sh"
              = Some {[ "tangle" := VStr "run" ]})
    by (vm_compute; reflexivity).
  destruct (file_properties_are_well_formed prototypeTagDoc) as [[Ho _] Hp].
  split.
  - destruct (proj1 (Ho _ _ H)) as [E|[_ E]]; [discriminate | exact E].
  - split; [|vm_compute; reflexivity].
    apply Hp. vm_compute. eexists. reflexivity.
Defined.

Lemma properties_depend_on_property_lines_only_witness :
  extractFileProperties
    (Sample.document ["#+begin_src org"; "  #+PROPERTY: header-args :tangle x.ts";
                      "#+end_src"])
  = mkProps {[ "*" := {[ "tangle" := VStr "x.ts" ]} ]} None.
Proof.
  rewrite properties_depend_on_property_lines_only. vm_compute. reflexivity.
Defined.

(** The lines that a reference to blocks without references of their
    own expands to: the lines of each block behind the indent, and one
    empty line between two blocks. *)
Fixpoint fanIn (ti : string) (bs : list SourceBlock) : list string :=
  match bs with
  | [] => []
  | b :: rest =>
      List.map (String.append ti) (split LF (content b))
      ++ match rest with
         | [] => []
         | _ :: _ => "" :: fanIn ti rest
         end
  end.

Section FanIn.

Variable store : Store.
Variable blockIndex : BlockIndex.

Lemma expandNoweb_plain (fuel : nat) (text : string) (v : gset string) (ind : string) :
  Forall (fun l => matchNoweb l = None) (split LF text) ->
  expandNoweb store blockIndex (S fuel) text v ind
  = Some (join nl (List.map (String.append ind) (split LF text)), v).
Proof.
  intros H. cbn [expandNoweb]. rewrite (expandLines_plain _ _ _ _ _ H). reflexivity.
Qed.

Lemma NoLF_map_append (ti : string) (lines : list string) :
  hasLF ti = false -> NoLF lines -> NoLF (List.map (String.append ti) lines).
Proof.
  intros Hti. induction 1 as [|l lines Hl _ IH]; [constructor|].
  constructor; [|exact IH]. rewrite hasLF_append, Hti, Hl. reflexivity.
Qed.

Lemma expandBlocks_fanIn (fuel : nat) (ti : string) (ids : list nat) :
  hasLF ti = false ->
  forall bs res v,
    Forall2 (fun id b => store !! id = Some b) ids bs ->
    Forall (fun b => Forall (fun l => matchNoweb l = None) (split LF (content b))) bs ->
    expandBlocks store (expandNoweb store blockIndex (S fuel)) ids ti (res, v)
    = Some (res ++ fanIn ti bs, v).
Proof.
  intros Hti. induction ids as [|id rest IH]; intros bs res v H2 Hp.
  - inversion H2; subst. simpl. rewrite app_nil_r. reflexivity.
  - inversion H2 as [|? b ? bs' Hb Hrest]; subst.
    inversion Hp as [|? ? Hpb Hprest]; subst.
    cbn [expandBlocks fst snd]. rewrite Hb.
    rewrite (expandNoweb_plain fuel (content b) v ti Hpb).
    rewrite split_join.
    + destruct rest as [|id2 rest'].
      * inversion Hrest; subst. cbn [expandBlocks fanIn].
        rewrite app_nil_r. reflexivity.
      * inversion Hrest as [|? b2 ? bs2 Hb2 Hrest2]; subst.
        rewrite (IH (b2 :: bs2) _ v Hrest Hprest).
        cbn [fanIn]. rewrite <- !app_assoc. reflexivity.
    + pose proof (split_nonempty (content b)) as Hne.
      destruct (split LF (content b)); [contradiction | discriminate].
    + apply NoLF_map_append; [exact Hti | apply split_noLF].
Qed.

(** X26.  A reference line without trailing text whose name holds
    blocks that contain no reference themselves expands to the lines of
    those blocks, in the order of the index, each behind the indent of
    the site, with exactly one empty line between two successive blocks
    and none after the last. *)
Theorem fan_in_concatenates_blocks
    (fuel : nat) (ind : string) (res : list string) (v : gset string)
    (line lead ref : string) (ids : list nat) (bs : list SourceBlock) :
  matchNoweb line = Some (lead, ref, "") ->
  hasLF ind = false -> hasLF line = false ->
  ref ∉ v ->
  blockIndex !! VStr ref = Some ids ->
  ids <> [] ->
  Forall2 (fun id b => store !! id = Some b) ids bs ->
  Forall (fun b => Forall (fun l => matchNoweb l = None) (split LF (content b))) bs ->
  expandLine store blockIndex (expandNoweb store blockIndex (S fuel)) ind (res, v) line
  = Some (res ++ fanIn (ind +:+ lead) bs, v).
Proof.
  intros M Hind Hline Hv Hidx Hne H2 Hp.
  destruct (matchNoweb_noLF _ _ _ _ M Hline) as (L1 & _ & _).
  unfold expandLine. rewrite M.
  rewrite bool_decide_eq_false_2 by exact Hv. rewrite Hidx.
  destruct ids as [|id ids']; [contradiction|].
  rewrite (expandBlocks_fanIn fuel (ind +:+ lead) (id :: ids')
             ltac:(rewrite hasLF_append, Hind, L1; reflexivity) bs res _ H2 Hp).
  cbn [isEmpty]. rewrite visited_pop by exact Hv. reflexivity.
Qed.

End FanIn.

Lemma fan_in_concatenates_blocks_witness :
  let store := Sample.blocksOf fanInDoc in
  let index := buildBlockIndex store in
  expandLine store index (expandNoweb store index 1) "" ([], ∅) "    <<greet>>"
  = Some (["    hi"; ""; "    bye"], ∅).
Proof.
  intros store index.
  destruct (store !! 0) as [b0|] eqn:E0; [|vm_compute in E0; discriminate].
  destruct (store !! 1) as [b1|] eqn:E1; [|vm_compute in E1; discriminate].
  rewrite (fan_in_concatenates_blocks store index 0 "" [] ∅ "    <<greet>>"
             "    " "greet" [0; 1] [b0; b1]).
  - vm_compute in E0. vm_compute in E1. inversion E0. inversion E1. reflexivity.
  - vm_compute. reflexivity.
  - reflexivity.
  - reflexivity.
  - apply not_elem_of_empty.
  - vm_compute. reflexivity.
  - discriminate.
  - repeat constructor; assumption.
  - vm_compute in E0. vm_compute in E1. inversion E0. inversion E1.
    vm_compute. repeat constructor.
Defined.

(* ===================================================================== *)
(** * Further properties: reading the documents *)
(* ===================================================================== *)

Section Reading.

Variable pathRelative : string -> string -> string.
Variable workingDir : string.

(** [readFileSync(file, 'utf-8')]: the content, or the message of the
    error thrown. *)
Variable readFileSync : string -> string + string.
Variable verboseReading : bool.






End Reading.


